(** * Constraint satisfaction, normalization and subsumption (SemaConcept.cpp)

    A shallow embedding of clang/lib/Sema/SemaConcept.cpp: the well-formedness
    checker, the satisfaction evaluator and its cache, the normalizer, the
    CNF/DNF builders, the subsumption engine and the subsumption cache.

    Conventions.
    - AST nodes are values of [Expr]; declarations and template arguments are
      opaque identities ([nat]).
    - The collaborators the file calls but does not define (substitution,
      constant evaluation, type queries, instantiation frames, template
      argument checking) are fields of [Collaborators]; every function of the
      model takes them as a parameter.
    - [Sema] carries what this file mutates: the two caches, and a log of the
      observable calls the file makes (substitutions, constant evaluations,
      diagnostics issued by [S.Diag], satisfaction-cache lookups and
      insertions).  Diagnostics produced inside a collaborator are not part
      of the log.
    - An out-pointer [T *p] is an [option T]: [None] is the null pointer,
      [Some v] a pointer whose target currently holds [v]. *)

From stdpp Require Import base option list gmap.

Set Default Proof Using "Type".

(** ** AST view *)

Definition NamedDecl := nat.
Definition TemplateArgument := nat.
Definition ArgList := list TemplateArgument.

(** MultiLevelTemplateArgumentList: the innermost level is at the front. *)
Definition MLTAL := list ArgList.

Definition getNumLevels (L : MLTAL) : nat := length L.

(** [getInnermost] is [TemplateArgumentLists.front()]; the source asserts
    that a level exists, the model yields the empty list otherwise. *)
Definition getInnermost (L : MLTAL) : ArgList :=
  match L with
  | [] => []
  | Innermost :: _ => Innermost
  end.

Definition addOuterTemplateArguments (Args : ArgList) (L : MLTAL) : MLTAL :=
  L ++ [Args].

Inductive Opcode := BO_LAnd | BO_LOr | BO_LT | BO_EQ | BO_Add.

Definition isLogicalOp (Opc : Opcode) : bool :=
  match Opc with
  | BO_LAnd | BO_LOr => true
  | _ => false
  end.

(** Expression nodes, as the engine classifies them.  A concept
    specialization carries the constraint expression of the concept it names
    ([getNamedConcept()->getConstraintExpr()]): a concept cannot refer to
    itself, so the expansion of concept references is a finite tree. *)
Inductive Expr :=
| BinaryOperator (Opc : Opcode) (LHS RHS : Expr)
| ParenExpr (SubExpr : Expr)
| ExprWithCleanups (SubExpr : Expr)
| ConceptSpecializationExpr (NamedConcept : NamedDecl) (ConstraintExpr : Expr)
    (TemplateArgsAsWritten : ArgList)
| OtherExpr (Id : nat).

(** ** Diagnostics, satisfaction records and the engine state *)

Inductive DiagID :=
| err_non_bool_atomic_constraint
| err_non_constant_constraint_expression
| note_evaluation (n : nat).

(** A substitution diagnostic taken from the SFINAE trap. *)
Definition PartialDiagnosticAt := nat.

(** [llvm::PointerUnion<Expr *, PartialDiagnosticAt *>] *)
Inductive Detail :=
| DetailExpr (SubstExpr : Expr)
| DetailDiag (SubstDiag : PartialDiagnosticAt).

Definition UnsatisfiedConstraintRecord : Type := Expr * Detail.

Record ConstraintSatisfaction := mkSatisfaction {
  ConstraintOwner : option NamedDecl;
  SatTemplateArgs : ArgList;
  IsSatisfied : bool;
  Details : list UnsatisfiedConstraintRecord
}.

(** [ConstraintSatisfaction Satisfaction;] *)
Definition emptySatisfaction : ConstraintSatisfaction :=
  mkSatisfaction None [] false [].

(** [new ConstraintSatisfaction(ConstraintOwner, TemplateArgs)] *)
Definition newSatisfaction (Owner : NamedDecl) (Args : ArgList) :
  ConstraintSatisfaction :=
  mkSatisfaction (Some Owner) Args false [].

Definition setIsSatisfied (b : bool) (Sat : ConstraintSatisfaction) :
  ConstraintSatisfaction :=
  mkSatisfaction (ConstraintOwner Sat) (SatTemplateArgs Sat) b (Details Sat).

(** [Satisfaction.Details.emplace_back(E, R)] *)
Definition emplaceDetail (r : UnsatisfiedConstraintRecord)
  (Sat : ConstraintSatisfaction) : ConstraintSatisfaction :=
  mkSatisfaction (ConstraintOwner Sat) (SatTemplateArgs Sat) (IsSatisfied Sat)
    (Details Sat ++ [r]).

(** Lines 1017-1024: the copy constructor.  Its loop ranges over [Details]
    of the object under construction, not over [Other.Details]; that vector
    is empty when the body starts, so the loop body never runs. *)
Definition copyConstruct (Other : ConstraintSatisfaction) :
  ConstraintSatisfaction :=
  let This := mkSatisfaction None [] (IsSatisfied Other) [] in
  fold_left (fun Acc Record => emplaceDetail Record Acc) (Details This) This.

(** The profile of a satisfaction-cache key ([llvm::FoldingSetNodeID]). *)
Definition FoldingSetNodeID := list nat.

Inductive Event :=
| EvSubstExpr (E : Expr) (Args : MLTAL)
| EvEvaluateAsRValue (E : Expr)
| EvDiag (At : Expr) (ID : DiagID)
| EvCacheFind (ID : FoldingSetNodeID)
| EvCacheInsert (ID : FoldingSetNodeID).

Record Sema := mkSema {
  Log : list Event;
  SatisfactionCache : gmap FoldingSetNodeID ConstraintSatisfaction;
  SubsumptionCache : gmap (NamedDecl * NamedDecl) bool
}.

Definition emit (ev : Event) (S : Sema) : Sema :=
  mkSema (Log S ++ [ev]) (SatisfactionCache S) (SubsumptionCache S).

Definition emitAll (evs : list Event) (S : Sema) : Sema :=
  mkSema (Log S ++ evs) (SatisfactionCache S) (SubsumptionCache S).

(** [S.Diag(E->getExprLoc(), ID)] *)
Definition Diag (At : Expr) (ID : DiagID) (S : Sema) : Sema :=
  emit (EvDiag At ID) S.

(** ** Normalized constraints and normal forms *)

Record AtomicConstraint := mkAtomic {
  AtomicExpr : Expr;
  ParameterMapping : ArgList
}.

Inductive CompoundConstraintKind := CCK_Conjunction | CCK_Disjunction.

Inductive NormalizedConstraint :=
| Atomic (A : AtomicConstraint)
| Compound (LHS RHS : NormalizedConstraint) (Kind : CompoundConstraintKind).

(** [SmallVector<SmallVector<AtomicConstraint *, 2>, 4>] *)
Abbreviation Clause := (list AtomicConstraint).
Abbreviation NormalForm := (list (list AtomicConstraint)).

(** What the source leaves undefined: [*O] on an empty [llvm::Optional], a
    failed [assert], a [cast<>] to the wrong node kind. *)
Inductive Fault :=
| EmptyOptionalDereference
| FailedAssertion
| BadCast
| NullPointerDereference.

Inductive Outcome (A : Type) :=
| Ok (a : A)
| Undefined (f : Fault).
Arguments Ok {A} a.
Arguments Undefined {A} f.

#[global] Instance Outcome_bind : MBind Outcome := fun A B k m =>
  match m with
  | Ok a => k a
  | Undefined f => Undefined f
  end.

(** ** Collaborators *)

Inductive FrameKind :=
| ConstraintsCheck
| ConstraintSubstitution
| ConstraintNormalization
| NestedRequirementConstraintsCheck
| RequirementInstantiation.

(** What [SubstExpr] under a [SFINAETrap] leaves behind: the substituted
    expression ([None] is [ExprError()]), whether the trap caught an error,
    and the diagnostic [takeSFINAEDiagnostic] then yields.  What the
    substitution itself does to the engine state, such as checking and
    storing the satisfaction of a concept specialization that it rebuilds,
    is code outside this file and is not modelled: the log keeps the place
    of each call, and the caches are only followed through the code of
    this file. *)
Record SubstResult := mkSubstResult {
  SubstitutedExpression : option Expr;
  TrapHasErrorOccurred : bool;
  SFINAEDiagnostic : PartialDiagnosticAt
}.

(** What [fromConstraintExprs] reads of a constrained entity that is a
    function (lines 1197-1210): whether it has a trailing requires-clause,
    the three places its pattern is looked for, and the number of its
    parameters.  [DescribedFunctionTemplate] is [None] for a null
    [getDescribedFunctionTemplate()] and otherwise holds the templated
    declaration of its [getInstantiatedFromMemberTemplate()], [None] when
    that pointer is null; [PrimaryTemplate] holds the templated declaration
    of [getPrimaryTemplate()], [None] when that pointer is null. *)
Record FunctionDeclView := mkFunctionDeclView {
  hasTrailingRequiresClause : bool;
  DescribedFunctionTemplate : option (option NamedDecl);
  InstantiatedFromMemberFunction : option NamedDecl;
  PrimaryTemplate : option NamedDecl;
  param_size : nat
}.

Record Collaborators := mkCollaborators {
  isTypeDependent : Expr -> bool;
  (** [Context.hasSameType(E->IgnoreParenImpCasts()->getType()
        .getNonReferenceType().getUnqualifiedType(), Context.BoolTy)] *)
  hasBoolType : Expr -> bool;
  SubstExpr : Expr -> MLTAL -> SubstResult;
  isInstantiationDependent : Expr -> bool;
  containsUnexpandedParameterPack : Expr -> bool;
  (** [EvaluateAsRValue]: [inr b] is a constant whose integer value converts
      to [b]; [inl notes] is not a constant expression. *)
  EvaluateAsRValue : Expr -> list nat + bool;
  (** [InstantiatingTemplate(...).isInvalid()] for a frame pushed on behalf
      of an entity, at an expression when there is one. *)
  InstIsInvalid : FrameKind -> NamedDecl -> option Expr -> bool;
  getCanonicalDecl : NamedDecl -> NamedDecl;
  ProfileArg : TemplateArgument -> nat;
  (** [CheckTemplateArgumentList]: failure flag, converted arguments and
      instantiation dependence. *)
  CheckTemplateArgumentList : NamedDecl -> ArgList -> bool * ArgList * bool;
  (** [getTemplateInstantiationArgs(cast<Decl>(D->getDeclContext()))] *)
  getTemplateInstantiationArgs : NamedDecl -> MLTAL;
  (** [AtomicConstraint::subsumes(Context, Other)] *)
  AtomicSubsumes : AtomicConstraint -> AtomicConstraint -> bool;
  (** [dyn_cast<FunctionDecl>(D)] *)
  asFunctionDecl : NamedDecl -> option FunctionDeclView
}.

Section Engine.

Variable X : Collaborators.

(** ** Well-formedness checker *)

(** Modelled from the spec: the default argument of [Culprit], declared in
    Sema.h with the prototype of [CheckConstraintExpression]; the spec calls
    the out-pointer optional, so a call that leaves it out passes null. *)
Definition Culprit_default : option (option Expr) := None.

(** The atomic case of [CheckConstraintExpression] (lines 40-54). *)
Definition checkAtomicConstraint (ConstraintExpression : Expr)
  (Culprit : option (option Expr)) (S : Sema) :
  bool * option (option Expr) * Sema :=
  if isTypeDependent X ConstraintExpression then (true, Culprit, S)
  else if negb (hasBoolType X ConstraintExpression) then
    let S' := Diag ConstraintExpression err_non_bool_atomic_constraint S in
    let Culprit' :=
      match Culprit with
      | Some _ => Some (Some ConstraintExpression)
      | None => None
      end in
    (false, Culprit', S')
  else (true, Culprit, S).

(** [Sema::CheckConstraintExpression].  The recursive calls are written
    without the second argument: whatever they do to their own out-pointer,
    the caller's [Culprit] is returned as it came in. *)
Fixpoint CheckConstraintExpression (ConstraintExpression : Expr)
  (Culprit : option (option Expr)) (S : Sema) :
  bool * option (option Expr) * Sema :=
  match ConstraintExpression with
  | BinaryOperator Opc LHS RHS =>
      if isLogicalOp Opc then
        let '(okL, _, S1) :=
          CheckConstraintExpression LHS Culprit_default S in
        if okL then
          let '(okR, _, S2) :=
            CheckConstraintExpression RHS Culprit_default S1 in
          (okR, Culprit, S2)
        else (false, Culprit, S1)
      else checkAtomicConstraint ConstraintExpression Culprit S
  | _ => checkAtomicConstraint ConstraintExpression Culprit S
  end.

(** ** Satisfaction evaluator *)

(** [ExprResult]: [ExprError()], [ExprEmpty()] or a usable expression. *)
Inductive ExprResult :=
| ExprError
| ExprEmpty
| ExprUsable (E : Expr).

(** What an evaluation mutates: the record under construction, the targets
    of the two optional out-flags, and the engine state. *)
Record EvalCtx := mkCtx {
  Sat : ConstraintSatisfaction;
  PackFlag : option bool;
  DepFlag : option bool;
  SemaSt : Sema
}.

Definition withSat (f : ConstraintSatisfaction -> ConstraintSatisfaction)
  (C : EvalCtx) : EvalCtx :=
  mkCtx (f (Sat C)) (PackFlag C) (DepFlag C) (SemaSt C).

Definition withSema (f : Sema -> Sema) (C : EvalCtx) : EvalCtx :=
  mkCtx (Sat C) (PackFlag C) (DepFlag C) (f (SemaSt C)).

(** [if (Flag != nullptr) *Flag |= b] *)
Definition orFlag (b : bool) (Flag : option bool) : option bool :=
  match Flag with
  | Some old => Some (old || b)
  | None => None
  end.

(** [if (Flag != nullptr) *Flag = b] *)
Definition setFlag (b : bool) (Flag : option bool) : option bool :=
  match Flag with
  | Some _ => Some b
  | None => None
  end.

Definition AtomicEvaluator := Expr -> EvalCtx -> ExprResult * EvalCtx.

(** Lines 98-129: the atomic case of the generic
    [calculateConstraintSatisfaction]; the result is the hard-failure flag. *)
Definition evaluateAtomicConstraint (Evaluator : AtomicEvaluator)
  (ConstraintExpr : Expr) (C : EvalCtx) : bool * EvalCtx :=
  let '(SubstitutedAtomicExpr, C1) := Evaluator ConstraintExpr C in
  match SubstitutedAtomicExpr with
  | ExprError => (true, C1)
  | ExprEmpty => (false, C1)
  | ExprUsable SE =>
      let C2 := withSema (emit (EvEvaluateAsRValue SE)) C1 in
      match EvaluateAsRValue X SE with
      | inl EvaluationDiags =>
          (true,
           withSema
             (fun S =>
                emitAll
                  (map (fun n => EvDiag SE (note_evaluation n)) EvaluationDiags)
                  (Diag SE err_non_constant_constraint_expression S))
             C2)
      | inr b =>
          let C3 := withSat (setIsSatisfied b) C2 in
          if negb b
          then (false, withSat (emplaceDetail (ConstraintExpr, DetailExpr SE)) C3)
          else (false, C3)
      end
  end.

(** Lines 57-130: the generic [calculateConstraintSatisfaction]. *)
Fixpoint calculateConstraintSatisfaction (Evaluator : AtomicEvaluator)
  (ConstraintExpr : Expr) (C : EvalCtx) : bool * EvalCtx :=
  match ConstraintExpr with
  | BinaryOperator Opc LHS RHS =>
      if isLogicalOp Opc then
        let '(Failed, C1) :=
          calculateConstraintSatisfaction Evaluator LHS C in
        if Failed then (true, C1)
        else
          let IsLHSSatisfied := IsSatisfied (Sat C1) in
          match Opc with
          | BO_LOr =>
              if IsLHSSatisfied then (false, C1)
              else calculateConstraintSatisfaction Evaluator RHS C1
          | BO_LAnd =>
              if negb IsLHSSatisfied then (false, C1)
              else calculateConstraintSatisfaction Evaluator RHS C1
          | _ => calculateConstraintSatisfaction Evaluator RHS C1
          end
      else evaluateAtomicConstraint Evaluator ConstraintExpr C
  | ParenExpr SubExpr =>
      calculateConstraintSatisfaction Evaluator SubExpr C
  | ExprWithCleanups SubExpr =>
      calculateConstraintSatisfaction Evaluator SubExpr C
  | _ => evaluateAtomicConstraint Evaluator ConstraintExpr C
  end.

(** Lines 141-209: the evaluator that substitutes template arguments.
    [Creator AtomicExpr] is [Inst.isInvalid()] of the frame the creator
    builds for the atomic expression. *)
Definition substitutingEvaluator (Creator : Expr -> bool)
  (TemplateArgs : MLTAL) : AtomicEvaluator :=
  fun AtomicExpr C =>
    if Creator AtomicExpr then (ExprError, C)
    else
      let R := SubstExpr X AtomicExpr TemplateArgs in
      let C1 := withSema (emit (EvSubstExpr AtomicExpr TemplateArgs)) C in
      match SubstitutedExpression R, TrapHasErrorOccurred R with
      | None, false =>
          (* a non-SFINAE error *)
          (ExprError, C1)
      | _, true =>
          (ExprEmpty,
           withSat
             (fun s =>
                setIsSatisfied false
                  (emplaceDetail (AtomicExpr, DetailDiag (SFINAEDiagnostic R)) s))
             C1)
      | Some SE, false =>
          let C2 :=
            mkCtx (Sat C1)
              (orFlag (containsUnexpandedParameterPack X SE) (PackFlag C1))
              (DepFlag C1) (SemaSt C1) in
          if isInstantiationDependent X SE then
            (ExprEmpty,
             mkCtx (setIsSatisfied true (Sat C2)) (PackFlag C2)
               (setFlag true (DepFlag C2)) (SemaSt C2))
          else
            let '(ok, _, S') :=
              CheckConstraintExpression SE Culprit_default (SemaSt C2) in
            let C3 := withSema (fun _ => S') C2 in
            if negb ok then (ExprError, C3) else (ExprUsable SE, C3)
      end.

(** Lines 132-210: [calculateConstraintSatisfaction] with a frame creator. *)
Definition calculateConstraintSatisfaction_subst (Creator : Expr -> bool)
  (TemplateArgs : MLTAL) (ConstraintExpr : Expr) (C : EvalCtx) :
  bool * EvalCtx :=
  calculateConstraintSatisfaction (substitutingEvaluator Creator TemplateArgs)
    ConstraintExpr C.

(** Lines 212-236: the file-local [CheckConstraintSatisfaction] over a list
    of constraint expressions. *)
Fixpoint CheckConstraintSatisfaction_exprs (ConstraintExprs : list Expr)
  (TemplateArgs : MLTAL) (Creator : Expr -> bool) (C : EvalCtx) :
  bool * EvalCtx :=
  match ConstraintExprs with
  | [] => (false, C)
  | ConstraintExpr :: Rest =>
      let '(Failed, C1) :=
        calculateConstraintSatisfaction_subst Creator TemplateArgs
          ConstraintExpr C in
      if Failed then (true, C1)
      else if negb (IsSatisfied (Sat C1)) then (false, C1)
      else CheckConstraintSatisfaction_exprs Rest TemplateArgs Creator C1
  end.

(** [ConstraintSatisfaction::Profile] (lines 1008-1015). *)
Definition Profile (Owner : NamedDecl) (TemplateArgs : ArgList) :
  FoldingSetNodeID :=
  getCanonicalDecl X Owner :: map (ProfileArg X) TemplateArgs.

(** Modelled from the spec: the copy assignment of [ConstraintSatisfaction],
    whose class definition is not among the sources.  The spec has the cached
    record returned by value; the class declares no assignment operator of
    its own in this file, so the target takes every member of the source. *)
Definition assignSatisfaction (Target Source : ConstraintSatisfaction) :
  ConstraintSatisfaction := Source.

(** [SatisfactionCache.InsertNode(Cached)] *)
Definition InsertNode (ID : FoldingSetNodeID) (Cached : ConstraintSatisfaction)
  (S : Sema) : Sema :=
  mkSema (Log S ++ [EvCacheInsert ID]) (<[ID := Cached]> (SatisfactionCache S))
    (SubsumptionCache S).

(** Lines 238-281: [Sema::CheckConstraintSatisfaction], the cached entry
    point.  The result is the hard-failure flag, the caller's record and the
    engine state. *)
Definition CheckConstraintSatisfaction (Owner Template : NamedDecl)
  (ConstraintExprs : list Expr) (TemplateArgs : MLTAL)
  (Satisfaction : ConstraintSatisfaction) (S : Sema) :
  bool * ConstraintSatisfaction * Sema :=
  match ConstraintExprs with
  | [] => (false, setIsSatisfied true Satisfaction, S)
  | _ :: _ =>
      let ID := Profile Owner (getInnermost TemplateArgs) in
      let S1 := emit (EvCacheFind ID) S in
      match SatisfactionCache S1 !! ID with
      | Some Cached => (false, assignSatisfaction Satisfaction Cached, S1)
      | None =>
          if InstIsInvalid X ConstraintsCheck Template None
          then (true, Satisfaction, S1)
          else
            let Cached := newSatisfaction Owner (getInnermost TemplateArgs) in
            let '(Failed, C) :=
              CheckConstraintSatisfaction_exprs ConstraintExprs TemplateArgs
                (fun AtomicExpr =>
                   InstIsInvalid X ConstraintSubstitution Template
                     (Some AtomicExpr))
                (mkCtx Cached None None S1) in
            if Failed then (true, Satisfaction, SemaSt C)
            else
              let S2 := InsertNode ID (Sat C) (SemaSt C) in
              (false, assignSatisfaction Satisfaction (Sat C), S2)
      end
  end.

(** Lines 283-305: the overload for a nested requirement [Req]; the two
    reference out-flags are returned after the record. *)
Definition CheckConstraintSatisfaction_nested (Req : NamedDecl)
  (ConstraintExpr : Expr) (TemplateArgs : MLTAL)
  (Satisfaction : ConstraintSatisfaction) (S : Sema) :
  bool * ConstraintSatisfaction * bool * bool * Sema :=
  if InstIsInvalid X NestedRequirementConstraintsCheck Req (Some ConstraintExpr)
  then (true, Satisfaction, false, false, S)
  else
    let '(Failed, C) :=
      CheckConstraintSatisfaction_exprs [ConstraintExpr] TemplateArgs
        (fun AtomicExpr =>
           InstIsInvalid X RequirementInstantiation Req (Some AtomicExpr))
        (mkCtx Satisfaction (Some false) (Some false) S) in
    (Failed, Sat C, default false (DepFlag C), default false (PackFlag C),
     SemaSt C).

(** Lines 307-314: the overload without substitution. *)
Definition CheckConstraintSatisfaction_expr (ConstraintExpr : Expr)
  (Satisfaction : ConstraintSatisfaction) (S : Sema) :
  bool * ConstraintSatisfaction * Sema :=
  let '(Failed, C) :=
    calculateConstraintSatisfaction
      (fun AtomicExpr C => (ExprUsable AtomicExpr, C))
      ConstraintExpr (mkCtx Satisfaction None None S) in
  (Failed, Sat C, SemaSt C).

(** ** Normal-form builder *)

(** [V.pop_back_val()]: the last element and the vector without it. *)
Fixpoint pop_back_val {A : Type} (V : list A) : option (A * list A) :=
  match V with
  | [] => None
  | x :: V' =>
      match pop_back_val V' with
      | None => Some (x, [])
      | Some (y, W) => Some (y, x :: W)
      end
  end.

(** [while (!R.empty()) L.push_back(std::move(R.pop_back_val()));] with one
    unit of fuel for each iteration. *)
Fixpoint moveClauses {A : Type} (fuel : nat) (L R : list A) : list A :=
  match fuel with
  | 0 => L
  | S fuel' =>
      match pop_back_val R with
      | None => L
      | Some (x, R') => moveClauses fuel' (L ++ [x]) R'
      end
  end.

(** The two nested [for] loops: every left clause combined with every
    right clause, left clause outermost. *)
Definition distribute (LNF RNF : NormalForm) : NormalForm :=
  concat (map (fun LClause => map (fun RClause => LClause ++ RClause) RNF) LNF).

Fixpoint makeCNF (Normalized : NormalizedConstraint) : NormalForm :=
  match Normalized with
  | Atomic A => [[A]]
  | Compound LHS RHS Kind =>
      let LCNF := makeCNF LHS in
      let RCNF := makeCNF RHS in
      match Kind with
      | CCK_Conjunction => moveClauses (length RCNF) LCNF RCNF
      | CCK_Disjunction => distribute LCNF RCNF
      end
  end.

Fixpoint makeDNF (Normalized : NormalizedConstraint) : NormalForm :=
  match Normalized with
  | Atomic A => [[A]]
  | Compound LHS RHS Kind =>
      let LDNF := makeDNF LHS in
      let RDNF := makeDNF RHS in
      match Kind with
      | CCK_Disjunction => moveClauses (length RDNF) LDNF RDNF
      | CCK_Conjunction => distribute LDNF RDNF
      end
  end.

(** ** Subsumption engine *)

Definition AtomicSubsumptionEvaluator :=
  AtomicConstraint -> AtomicConstraint -> bool.

(** The innermost loop of [subsumes]: is there a [Qjb] in [Qj] with
    [E(Pia, Qjb)]? *)
Fixpoint findInQj (E : AtomicSubsumptionEvaluator) (Pia : AtomicConstraint)
  (Qj : Clause) : bool :=
  match Qj with
  | [] => false
  | Qjb :: Qj' => if E Pia Qjb then true else findInQj E Pia Qj'
  end.

(** The loop over [Pi]; the result is [Found]. *)
Fixpoint findInPi (E : AtomicSubsumptionEvaluator) (Pi Qj : Clause) : bool :=
  match Pi with
  | [] => false
  | Pia :: Pi' => if findInQj E Pia Qj then true else findInPi E Pi' Qj
  end.

(** The loop over the clauses of [QCNF] for one [Pi]: [false] as soon as a
    clause has no match. *)
Fixpoint everyQj (E : AtomicSubsumptionEvaluator) (Pi : Clause)
  (QCNF : NormalForm) : bool :=
  match QCNF with
  | [] => true
  | Qj :: QCNF' => if findInPi E Pi Qj then everyQj E Pi QCNF' else false
  end.

Fixpoint everyPi (E : AtomicSubsumptionEvaluator) (PDNF QCNF : NormalForm) :
  bool :=
  match PDNF with
  | [] => true
  | Pi :: PDNF' => if everyQj E Pi QCNF then everyPi E PDNF' QCNF else false
  end.

(** [subsumes] (lines 536-577): the failure flag, then [DoesSubsume]. *)
Definition subsumes (PNormalized QNormalized : NormalizedConstraint)
  (E : AtomicSubsumptionEvaluator) : bool * bool :=
  let PDNF := makeDNF PNormalized in
  let QCNF := makeCNF QNormalized in
  (false, everyPi E PDNF QCNF).

(** ** Normalizer *)

(** The last [return] of [fromConstraintExpr]: an atomic leaf with the
    innermost level of the mapping, if there is one. *)
Definition atomicLeaf (E : Expr) (Mapping : MLTAL) :
  Outcome (option NormalizedConstraint) :=
  Ok (Some (Atomic (mkAtomic E
    (if decide (getNumLevels Mapping = 0) then [] else getInnermost Mapping)))).

(** [NormalizedConstraint::fromConstraintExpr] (lines 1053-1190).  The
    calls of [S.SubstExpr] (line 1123) and [S.CheckTemplateArgumentList]
    (line 1140) are read as their results: the normalizer is not given the
    engine state, and the log and the caches are not followed across a
    normalization. *)
Fixpoint fromConstraintExpr (ConstrainedEntity : NamedDecl) (E : Expr)
  (Mapping : MLTAL) : Outcome (option NormalizedConstraint) :=
  match E with
  | ParenExpr P => fromConstraintExpr ConstrainedEntity P Mapping
  | BinaryOperator Opc LHS RHS =>
      if isLogicalOp Opc then
        L ← fromConstraintExpr ConstrainedEntity LHS Mapping;
        match L with
        | None => Ok None
        | Some LN =>
            R ← fromConstraintExpr ConstrainedEntity RHS Mapping;
            match R with
            | None => Ok None
            | Some RN =>
                Ok (Some (Compound LN RN
                  (match Opc with
                   | BO_LAnd => CCK_Conjunction
                   | _ => CCK_Disjunction
                   end)))
            end
        end
      else atomicLeaf E Mapping
  | ConceptSpecializationExpr NamedConcept ConstraintExpr _ =>
      match SubstitutedExpression (SubstExpr X E Mapping) with
      | None => Ok None
      | Some (ConceptSpecializationExpr _ _ SubstMapping) =>
          let '(Failure, Converted, InstantiationDependent) :=
            CheckTemplateArgumentList X NamedConcept SubstMapping in
          if Failure then Undefined FailedAssertion
          else if InstantiationDependent
          then Ok (Some (Atomic (mkAtomic E Converted)))
          else
            fromConstraintExpr NamedConcept ConstraintExpr
              (addOuterTemplateArguments Converted [])
      | Some _ => Undefined BadCast
      end
  | _ => atomicLeaf E Mapping
  end.

(** The loop at lines 1226-1235. *)
Fixpoint conjoinNext (ConstrainedEntity : NamedDecl) (Mapping : MLTAL)
  (Conjunction : NormalizedConstraint) (Rest : list Expr) :
  Outcome (option NormalizedConstraint) :=
  match Rest with
  | [] => Ok (Some Conjunction)
  | EI :: Rest' =>
      Next ← fromConstraintExpr ConstrainedEntity EI Mapping;
      match Next with
      | None => Ok None
      | Some NextN =>
          conjoinNext ConstrainedEntity Mapping
            (Compound Conjunction NextN CCK_Conjunction) Rest'
      end
  end.

(** The pattern of lines 1200-1206; each arrow after a call that can
    return null is a dereference without a test. *)
Definition functionPattern (FD : FunctionDeclView) : Outcome NamedDecl :=
  match DescribedFunctionTemplate FD with
  | Some (Some Pattern) => Ok Pattern
  | Some None => Undefined NullPointerDereference
  | None =>
      match InstantiatedFromMemberFunction FD with
      | Some Pattern => Ok Pattern
      | None =>
          match PrimaryTemplate FD with
          | Some Pattern => Ok Pattern
          | None => Undefined NullPointerDereference
          end
      end
  end.

(** [LocalInstantiationScope]: parameter [I] of the pattern stands for
    parameter [I] of the function.  The scope lives for the call only. *)
Definition LocalInstantiationScope := list (NamedDecl * nat).

(** Lines 1196-1210: the locals registered before anything is normalized,
    for the result [FD] of [dyn_cast<FunctionDecl>(ConstrainedEntity)]. *)
Definition instantiatedLocals (FD : option FunctionDeclView)
  (Mapping : MLTAL) : Outcome LocalInstantiationScope :=
  match FD with
  | Some FD =>
      if hasTrailingRequiresClause FD
         && negb (bool_decide (getNumLevels Mapping = 0))
      then
        Pattern ← functionPattern FD;
        Ok (map (fun I => (Pattern, I)) (seq 0 (param_size FD)))
      else Ok []
  | None => Ok []
  end.

(** [NormalizedConstraint::fromConstraintExprs] (lines 1192-1237) after
    the cast of line 1197, whose result is [FD].  [*First] is evaluated at
    line 1224 without a test of [First]. *)
Definition fromConstraintExprs_cast (FD : option FunctionDeclView)
  (ConstrainedEntity : NamedDecl) (E : list Expr) (Mapping : MLTAL) :
  Outcome (option NormalizedConstraint) :=
  InstScope ← instantiatedLocals FD Mapping;
  match E with
  | [] => Undefined FailedAssertion
  | E0 :: Rest =>
      First ← fromConstraintExpr ConstrainedEntity E0 Mapping;
      match Rest with
      | [] => Ok First
      | E1 :: Rest' =>
          Second ← fromConstraintExpr ConstrainedEntity E1 Mapping;
          match Second with
          | None => Ok None
          | Some SecondN =>
              match First with
              | None => Undefined EmptyOptionalDereference
              | Some FirstN =>
                  conjoinNext ConstrainedEntity Mapping
                    (Compound FirstN SecondN CCK_Conjunction) Rest'
              end
          end
      end
  end.

(** [NormalizedConstraint::fromConstraintExprs] (lines 1192-1237). *)
Definition fromConstraintExprs (ConstrainedEntity : NamedDecl)
  (E : list Expr) (Mapping : MLTAL) : Outcome (option NormalizedConstraint) :=
  fromConstraintExprs_cast (asFunctionDecl X ConstrainedEntity)
    ConstrainedEntity E Mapping.

(** ** At-least-as-constrained *)

Definition isEmpty {A : Type} (l : list A) : bool :=
  match l with [] => true | _ => false end.

(** Lines 605-646: the overload that takes the template arguments. *)
Definition IsAtLeastAsConstrained_MLTAL (D1 : NamedDecl) (AC1 : list Expr)
  (MLTAL1 : MLTAL) (D2 : NamedDecl) (AC2 : list Expr) (MLTAL2 : MLTAL)
  (Invalid : option bool) : Outcome (bool * option bool) :=
  let Invalid := setFlag false Invalid in
  if isEmpty AC1 then Ok (isEmpty AC2, Invalid)
  else if isEmpty AC2 then Ok (true, Invalid)
  else
    Normalized1 ← fromConstraintExprs D1 AC1 MLTAL1;
    match Normalized1 with
    | None => Ok (false, setFlag true Invalid)
    | Some N1 =>
        Normalized2 ← fromConstraintExprs D2 AC2 MLTAL2;
        match Normalized2 with
        | None => Ok (false, setFlag true Invalid)
        | Some N2 =>
            let '(Failed, Subsumes) := subsumes N1 N2 (AtomicSubsumes X) in
            if Failed then Ok (false, setFlag true Invalid)
            else Ok (Subsumes, Invalid)
        end
    end.

(** [SubsumptionCache.try_emplace(Key, Subsumes)] *)
Definition try_emplace (Key : NamedDecl * NamedDecl) (Subsumes : bool)
  (S : Sema) : Sema :=
  match SubsumptionCache S !! Key with
  | Some _ => S
  | None =>
      mkSema (Log S) (SatisfactionCache S) (<[Key := Subsumes]> (SubsumptionCache S))
  end.

(** Lines 579-603: [Sema::IsAtLeastAsConstrained], the cached entry point.
    The result is the returned boolean, the target of [Invalid] and the
    engine state. *)
Definition IsAtLeastAsConstrained (D1 : NamedDecl) (AC1 : list Expr)
  (D2 : NamedDecl) (AC2 : list Expr) (Invalid : option bool) (S : Sema) :
  Outcome (bool * option bool * Sema) :=
  let Invalid := setFlag false Invalid in
  if isEmpty AC1 then Ok (isEmpty AC2, Invalid, S)
  else if isEmpty AC2 then Ok (true, Invalid, S)
  else
    let Key := (D1, D2) in
    match SubsumptionCache S !! Key with
    | Some CacheEntry => Ok (CacheEntry, Invalid, S)
    | None =>
        let MLTAL1 := getTemplateInstantiationArgs X D1 in
        let MLTAL2 := getTemplateInstantiationArgs X D2 in
        '(Subsumes, Invalid') ←
          IsAtLeastAsConstrained_MLTAL D1 AC1 MLTAL1 D2 AC2 MLTAL2 Invalid;
        Ok (Subsumes, Invalid', try_emplace Key Subsumes S)
    end.

End Engine.

(** ** Classification used by the statements *)

(** The nodes the satisfaction evaluator treats as atomic: neither [&&] nor
    [||], nor a paren or cleanup wrapper. *)
Definition isAtomicConstraintExpr (E : Expr) : bool :=
  match E with
  | BinaryOperator Opc _ _ => negb (isLogicalOp Opc)
  | ParenExpr _ | ExprWithCleanups _ => false
  | _ => true
  end.

(** The atomic constraints of an expression in source order, as the
    satisfaction evaluator decomposes it. *)
Fixpoint atomicConstraints (E : Expr) : list Expr :=
  match E with
  | BinaryOperator Opc LHS RHS =>
      if isLogicalOp Opc
      then atomicConstraints LHS ++ atomicConstraints RHS
      else [E]
  | ParenExpr SubExpr | ExprWithCleanups SubExpr => atomicConstraints SubExpr
  | _ => [E]
  end.

(** No [||] among the connectives the satisfaction evaluator decomposes. *)
Fixpoint orFree (E : Expr) : bool :=
  match E with
  | BinaryOperator BO_LOr _ _ => false
  | BinaryOperator BO_LAnd LHS RHS => orFree LHS && orFree RHS
  | ParenExpr SubExpr | ExprWithCleanups SubExpr => orFree SubExpr
  | _ => true
  end.

(** The atomic sub-expressions of the [&&]/[||]-decomposed tree of the
    well-formedness checker (which does not look through parens). *)
Fixpoint checkedAtoms (E : Expr) : list Expr :=
  match E with
  | BinaryOperator Opc LHS RHS =>
      if isLogicalOp Opc then checkedAtoms LHS ++ checkedAtoms RHS else [E]
  | _ => [E]
  end.

(** The expressions handed to [SubstExpr], in the order of the calls. *)
Definition substitutedExprs (evs : list Event) : list Expr :=
  omap (fun ev => match ev with EvSubstExpr E _ => Some E | _ => None end) evs.

Definition isNonBoolAtomic (X : Collaborators) (E : Expr) : bool :=
  negb (isTypeDependent X E) && negb (hasBoolType X E).

(** The truth value of a normalized constraint, of a CNF and of a DNF under
    a valuation of the atomic constraints. *)
Fixpoint holds (v : AtomicConstraint -> bool) (N : NormalizedConstraint) :
  bool :=
  match N with
  | Atomic A => v A
  | Compound LHS RHS CCK_Conjunction => holds v LHS && holds v RHS
  | Compound LHS RHS CCK_Disjunction => holds v LHS || holds v RHS
  end.

Definition holdsCNF (v : AtomicConstraint -> bool) (NF : NormalForm) : bool :=
  forallb (existsb v) NF.

Definition holdsDNF (v : AtomicConstraint -> bool) (NF : NormalForm) : bool :=
  existsb (forallb v) NF.

(** The left-associated conjunction of a first constraint and the ones
    that follow it. *)
Definition conjoinAll (First : NormalizedConstraint)
  (Others : list NormalizedConstraint) : NormalizedConstraint :=
  fold_left (fun Conjunction Next => Compound Conjunction Next CCK_Conjunction)
    Others First.

(** ** A concrete translation unit

    [OtherExpr 0] is a [bool] constant that is true and [OtherExpr 1] one
    that is false; substitution into [OtherExpr 2] fails under the trap;
    [OtherExpr 3] has type [int]; substitution into a specialization of
    concept 9 is invalid. *)
Definition demo : Collaborators := {|
  isTypeDependent := fun _ => false;
  hasBoolType := fun E => match E with OtherExpr 3 => false | _ => true end;
  SubstExpr := fun E _ =>
    match E with
    | OtherExpr 2 => mkSubstResult None true 7
    | ConceptSpecializationExpr 9 _ _ => mkSubstResult None false 0
    | _ => mkSubstResult (Some E) false 0
    end;
  isInstantiationDependent := fun _ => false;
  containsUnexpandedParameterPack := fun _ => false;
  EvaluateAsRValue := fun E =>
    match E with OtherExpr 1 => inr false | _ => inr true end;
  InstIsInvalid := fun _ _ _ => false;
  getCanonicalDecl := fun D => D;
  ProfileArg := fun A => A;
  CheckTemplateArgumentList := fun _ Args => (false, Args, false);
  getTemplateInstantiationArgs := fun _ => [];
  AtomicSubsumes := fun A B =>
    match AtomicExpr A, AtomicExpr B with
    | OtherExpr n, OtherExpr m =>
        bool_decide (n = m) &&
        bool_decide (ParameterMapping A = ParameterMapping B)
    | _, _ => false
    end;
  asFunctionDecl := fun D =>
    match D with
    | 20 => Some (mkFunctionDeclView true None None None 1)
    | 21 => Some (mkFunctionDeclView true None None (Some 22) 2)
    | _ => None
    end
|}.

Definition emptySema : Sema := mkSema [] ∅ ∅.

Definition atomA : AtomicConstraint := mkAtomic (OtherExpr 0) [].
Definition atomB : AtomicConstraint := mkAtomic (OtherExpr 1) [].
Definition atomC : AtomicConstraint := mkAtomic (OtherExpr 2) [].

(** A specialization of concept 9; substitution into it is invalid. *)
Definition illFormedCSE : Expr :=
  ConceptSpecializationExpr 9 (OtherExpr 0) [1].

Definition freshCtx : EvalCtx := mkCtx emptySatisfaction None None emptySema.

(** * Properties *)

(** ** Reference readings used by the further properties *)

#[global] Instance Opcode_eq_dec : EqDecision Opcode.
Proof. solve_decision. Defined.

#[global] Instance Expr_eq_dec : EqDecision Expr.
Proof. solve_decision. Defined.

#[global] Instance AtomicConstraint_eq_dec : EqDecision AtomicConstraint.
Proof. solve_decision. Defined.

(** ** Ambiguous atomic constraints *)

(** What the ambiguity detector reads besides [Collaborators]:
    [AtomicConstraint::hasMatchingParameterMapping] and the canonical
    profile of an expression ([Expr::Profile] with [Canonical = true]). *)
Record AmbiguityAccess := mkAmbiguityAccess {
  hasMatchingParameterMapping : AtomicConstraint -> AtomicConstraint -> bool;
  ProfileExpr : Expr -> nat
}.

(** An evaluator that carries state from one call to the next, as a lambda
    that captures by reference does. *)
Definition TrackingEvaluator (St : Type) : Type :=
  AtomicConstraint -> AtomicConstraint -> St -> bool * St.

(** The loops of [subsumes] (lines 551-574) for such an evaluator. *)
Fixpoint findInQjWith {St : Type} (E : TrackingEvaluator St)
  (Pia : AtomicConstraint) (Qj : Clause) (s : St) : bool * St :=
  match Qj with
  | [] => (false, s)
  | Qjb :: Qj' =>
      let '(Found, s1) := E Pia Qjb s in
      if Found then (true, s1) else findInQjWith E Pia Qj' s1
  end.

Fixpoint findInPiWith {St : Type} (E : TrackingEvaluator St)
  (Pi Qj : Clause) (s : St) : bool * St :=
  match Pi with
  | [] => (false, s)
  | Pia :: Pi' =>
      let '(Found, s1) := findInQjWith E Pia Qj s in
      if Found then (true, s1) else findInPiWith E Pi' Qj s1
  end.

Fixpoint everyQjWith {St : Type} (E : TrackingEvaluator St)
  (Pi : Clause) (QCNF : NormalForm) (s : St) : bool * St :=
  match QCNF with
  | [] => (true, s)
  | Qj :: QCNF' =>
      let '(Found, s1) := findInPiWith E Pi Qj s in
      if Found then everyQjWith E Pi QCNF' s1 else (false, s1)
  end.

Fixpoint everyPiWith {St : Type} (E : TrackingEvaluator St)
  (PDNF QCNF : NormalForm) (s : St) : bool * St :=
  match PDNF with
  | [] => (true, s)
  | Pi :: PDNF' =>
      let '(All, s1) := everyQjWith E Pi QCNF s in
      if All then everyPiWith E PDNF' QCNF s1 else (false, s1)
  end.

(** [subsumes] with a stateful evaluator: failure flag, [DoesSubsume] and
    the evaluator's state after the last call. *)
Definition subsumesWith {St : Type} (PNormalized QNormalized :
  NormalizedConstraint) (E : TrackingEvaluator St) (s : St) :
  bool * bool * St :=
  let PDNF := makeDNF PNormalized in
  let QCNF := makeCNF QNormalized in
  let '(DoesSubsume, s') := everyPiWith E PDNF QCNF s in
  (false, DoesSubsume, s').

(** Lines 661-680: [IdenticalExprEvaluator].  Its state is the pair
    [AmbiguousAtomic1], [AmbiguousAtomic2], null until the first
    assignment; expression nodes are compared by identity, which in the
    model is equality of the node. *)
Definition IdenticalExprEvaluator (Acc : AmbiguityAccess) :
  TrackingEvaluator (option (Expr * Expr)) :=
  fun A B Ambiguous =>
    if negb (hasMatchingParameterMapping Acc A B) then (false, Ambiguous)
    else
      let EA := AtomicExpr A in
      let EB := AtomicExpr B in
      if bool_decide (EA = EB) then (true, Ambiguous)
      else if negb (bool_decide (ProfileExpr Acc EA = ProfileExpr Acc EB))
      then (false, Ambiguous)
      else (true, Some (EA, EB)).

Inductive AmbiguityNote :=
| note_ambiguous_atomic_constraints (At : Expr)
| note_ambiguous_atomic_constraints_second (At : Expr).

(** Lines 648-728: [MaybeEmitAmbiguousAtomicConstraintsDiagnostic] with the
    template arguments given; the result is the returned boolean and the
    notes issued. *)
Definition MaybeEmitAmbiguousAtomicConstraintsDiagnostic_MLTAL
  (X : Collaborators) (Acc : AmbiguityAccess)
  (D1 : NamedDecl) (AC1 : list Expr) (MLTAL1 : MLTAL)
  (D2 : NamedDecl) (AC2 : list Expr) (MLTAL2 : MLTAL) :
  Outcome (bool * list AmbiguityNote) :=
  if isEmpty AC1 || isEmpty AC2 then Ok (false, [])
  else
    Normalized1 ← fromConstraintExprs X D1 AC1 MLTAL1;
    match Normalized1 with
    | None => Ok (false, [])
    | Some N1 =>
        Normalized2 ← fromConstraintExprs X D2 AC2 MLTAL2;
        match Normalized2 with
        | None => Ok (false, [])
        | Some N2 =>
            let '(Failed1, Is1AtLeastAs2Normally) :=
              subsumes N1 N2 (AtomicSubsumes X) in
            if Failed1 then Ok (false, [])
            else
              let '(Failed2, Is2AtLeastAs1Normally) :=
                subsumes N2 N1 (AtomicSubsumes X) in
              if Failed2 then Ok (false, [])
              else
                let '(Failed3, Is1AtLeastAs2, Ambiguous1) :=
                  subsumesWith N1 N2 (IdenticalExprEvaluator Acc) None in
                if Failed3 then Ok (false, [])
                else
                  let '(Failed4, Is2AtLeastAs1, Ambiguous2) :=
                    subsumesWith N2 N1 (IdenticalExprEvaluator Acc)
                      Ambiguous1 in
                  if Failed4 then Ok (false, [])
                  else if bool_decide (Is1AtLeastAs2 = Is1AtLeastAs2Normally)
                          && bool_decide (Is2AtLeastAs1 = Is2AtLeastAs1Normally)
                  then Ok (false, [])
                  else
                    match Ambiguous2 with
                    | None => Undefined FailedAssertion
                    | Some (AmbiguousAtomic1, AmbiguousAtomic2) =>
                        Ok (true,
                            [note_ambiguous_atomic_constraints
                               AmbiguousAtomic1;
                             note_ambiguous_atomic_constraints_second
                               AmbiguousAtomic2])
                    end
        end
    end.

(** Lines 730-740: the overload that computes the template arguments. *)
Definition MaybeEmitAmbiguousAtomicConstraintsDiagnostic
  (X : Collaborators) (Acc : AmbiguityAccess)
  (D1 : NamedDecl) (AC1 : list Expr) (D2 : NamedDecl) (AC2 : list Expr) :
  Outcome (bool * list AmbiguityNote) :=
  if isEmpty AC1 || isEmpty AC2 then Ok (false, [])
  else
    MaybeEmitAmbiguousAtomicConstraintsDiagnostic_MLTAL X Acc
      D1 AC1 (getTemplateInstantiationArgs X D1)
      D2 AC2 (getTemplateInstantiationArgs X D2).

(** The pairs [IdenticalExprEvaluator] accepts, without its state. *)
Definition identicalExprs (Acc : AmbiguityAccess) :
  AtomicSubsumptionEvaluator :=
  fun A B =>
    hasMatchingParameterMapping Acc A B &&
    (bool_decide (AtomicExpr A = AtomicExpr B) ||
     bool_decide (ProfileExpr Acc (AtomicExpr A)
                  = ProfileExpr Acc (AtomicExpr B))).

(** A pair of distinct expressions with the same canonical profile. *)
Definition ambiguousPair (Acc : AmbiguityAccess) (EA EB : Expr) : Prop :=
  EA <> EB /\ ProfileExpr Acc EA = ProfileExpr Acc EB.

(** The state of [IdenticalExprEvaluator] is null or such a pair. *)
Definition ambiguityState (Acc : AmbiguityAccess)
  (Ambiguous : option (Expr * Expr)) : Prop :=
  match Ambiguous with
  | None => True
  | Some (EA, EB) => ambiguousPair Acc EA EB
  end.

(** A stateful computation of the ambiguity detector that answers [pure],
    keeps its state a valid one, never resets it, and, unless it leaves an
    ambiguous pair behind, leaves the state alone and answers [normal]. *)
Definition tracks (Acc : AmbiguityAccess)
  (f : option (Expr * Expr) -> bool * option (Expr * Expr))
  (pure normal : bool) : Prop :=
  forall s, ambiguityState Acc s ->
    ambiguityState Acc (f s).2 /\
    (f s).1 = pure /\
    (s <> None -> (f s).2 <> None) /\
    (((f s).2 = s /\ (f s).1 = normal) \/ (f s).2 <> None).

(** Associated constraints of a template-like declaration; [None] when the
    declaration is neither a template nor a partial specialization. *)
Definition AssociatedConstraintsOf := NamedDecl -> option (list Expr).

(** Lines 1032-1051: [Sema::getNormalizedAssociatedConstraints].  A
    declaration that passed the assertion is a template or a partial
    specialization, so the cast to a function at line 1197 gives null. *)
Definition getNormalizedAssociatedConstraints (X : Collaborators)
  (getAssociatedConstraints : AssociatedConstraintsOf)
  (TemplateLike : NamedDecl) : Outcome (option NormalizedConstraint) :=
  match getAssociatedConstraints TemplateLike with
  | None => Undefined FailedAssertion
  | Some AssociatedConstraints =>
      fromConstraintExprs_cast X None TemplateLike AssociatedConstraints
        (getTemplateInstantiationArgs X TemplateLike)
  end.

(** What the substituting evaluator and the constant evaluation decide for
    one atomic constraint: [None] is a hard failure, [Some b] the value
    [IsSatisfied] is left with. *)
Definition atomicVerdict (X : Collaborators) (Creator : Expr -> bool)
  (Args : MLTAL) (E : Expr) : option bool :=
  if Creator E then None
  else if TrapHasErrorOccurred (SubstExpr X E Args) then Some false
  else
    match SubstitutedExpression (SubstExpr X E Args) with
    | None => None
    | Some SE =>
        if isInstantiationDependent X SE then Some true
        else if forallb (fun A => negb (isNonBoolAtomic X A)) (checkedAtoms SE)
        then match EvaluateAsRValue X SE with
             | inl _ => None
             | inr b => Some b
             end
        else None
    end.

(** Conjunction and disjunction of [temp.constr.op] over the verdicts of
    the operands: the right operand counts only when the left one does not
    decide. *)
Fixpoint verdict (atomic : Expr -> option bool) (E : Expr) : option bool :=
  match E with
  | BinaryOperator BO_LAnd LHS RHS =>
      match verdict atomic LHS with
      | Some true => verdict atomic RHS
      | r => r
      end
  | BinaryOperator BO_LOr LHS RHS =>
      match verdict atomic LHS with
      | Some false => verdict atomic RHS
      | r => r
      end
  | ParenExpr SubExpr | ExprWithCleanups SubExpr => verdict atomic SubExpr
  | _ => atomic E
  end.

(** The atomic constraints that the short-circuit evaluation finds
    unsatisfied, in the order in which it evaluates them: the right operand
    of [&&] is reached after a satisfied left operand, that of [||] after
    an unsatisfied one. *)
Fixpoint unsatisfiedAtoms (atomic : Expr -> option bool) (E : Expr) :
  list Expr :=
  match E with
  | BinaryOperator BO_LAnd LHS RHS =>
      match verdict atomic LHS with
      | Some true => unsatisfiedAtoms atomic LHS ++ unsatisfiedAtoms atomic RHS
      | _ => unsatisfiedAtoms atomic LHS
      end
  | BinaryOperator BO_LOr LHS RHS =>
      match verdict atomic LHS with
      | Some false => unsatisfiedAtoms atomic LHS ++ unsatisfiedAtoms atomic RHS
      | _ => unsatisfiedAtoms atomic LHS
      end
  | ParenExpr SubExpr | ExprWithCleanups SubExpr =>
      unsatisfiedAtoms atomic SubExpr
  | _ =>
      match atomic E with
      | Some false => [E]
      | _ => []
      end
  end.

(** The record [After] is [Before] with one entry added, at the end of the
    details, for each of [Atoms] in order. *)
Definition gainedEntriesFor (Atoms : list Expr)
  (Before After : ConstraintSatisfaction) : Prop :=
  exists New, Details After = Details Before ++ New /\ New.*1 = Atoms.

(** An evaluation of [E] that took the record [Before] to [After] and did
    not fail hard left the verdict in [IsSatisfied] and recorded the atomic
    constraints it found unsatisfied. *)
Definition recordsUnsatisfiedAtoms (atomic : Expr -> option bool) (E : Expr)
  (Before After : ConstraintSatisfaction) : Prop :=
  forall b, verdict atomic E = Some b ->
    IsSatisfied After = b /\
    gainedEntriesFor (unsatisfiedAtoms atomic E) Before After.

(** The conjunction [(E && E1) && ... && En] of a first expression and the
    ones that follow it. *)
Definition conjunctionOf (E : Expr) (Rest : list Expr) : Expr :=
  fold_left (fun Conjunction Next => BinaryOperator BO_LAnd Conjunction Next)
    Rest E.

(** A flag behind an optional out-pointer may only go from false to true,
    and a null pointer stays null. *)
Definition flagGrows (Before After : option bool) : Prop :=
  match Before, After with
  | None, None => True
  | Some b, Some b' => b = true -> b' = true
  | _, _ => False
  end.

(** What an evaluation leaves alone. *)
Definition ctxFrame (C C' : EvalCtx) : Prop :=
  ConstraintOwner (Sat C') = ConstraintOwner (Sat C) /\
  SatTemplateArgs (Sat C') = SatTemplateArgs (Sat C) /\
  SatisfactionCache (SemaSt C') = SatisfactionCache (SemaSt C) /\
  SubsumptionCache (SemaSt C') = SubsumptionCache (SemaSt C) /\
  flagGrows (PackFlag C) (PackFlag C') /\
  flagGrows (DepFlag C) (DepFlag C').

(** The normalized constraint with conjunctions and disjunctions
    exchanged. *)
Fixpoint swapKinds (N : NormalizedConstraint) : NormalizedConstraint :=
  match N with
  | Atomic A => Atomic A
  | Compound LHS RHS CCK_Conjunction =>
      Compound (swapKinds LHS) (swapKinds RHS) CCK_Disjunction
  | Compound LHS RHS CCK_Disjunction =>
      Compound (swapKinds LHS) (swapKinds RHS) CCK_Conjunction
  end.

(** The atomic constraints at the leaves, left to right. *)
Fixpoint leaves (N : NormalizedConstraint) : list AtomicConstraint :=
  match N with
  | Atomic A => [A]
  | Compound LHS RHS _ => leaves LHS ++ leaves RHS
  end.

(** The atomic expressions of the normalizer's decomposition, in source
    order: it looks through parens but not through cleanup wrappers. *)
Fixpoint normalizedAtoms (E : Expr) : list Expr :=
  match E with
  | BinaryOperator Opc LHS RHS =>
      if isLogicalOp Opc
      then normalizedAtoms LHS ++ normalizedAtoms RHS
      else [E]
  | ParenExpr SubExpr => normalizedAtoms SubExpr
  | _ => [E]
  end.

(** Does the normalizer meet a concept specialization in [E]? *)
Fixpoint hasConceptReference (E : Expr) : bool :=
  match E with
  | BinaryOperator Opc LHS RHS =>
      isLogicalOp Opc && (hasConceptReference LHS || hasConceptReference RHS)
  | ParenExpr SubExpr => hasConceptReference SubExpr
  | ConceptSpecializationExpr _ _ _ => true
  | _ => false
  end.

Definition isConceptSpecialization (E : Expr) : bool :=
  match E with ConceptSpecializationExpr _ _ _ => true | _ => false end.

(** The mapping an atomic leaf is given under [Mapping]. *)
Definition leafMapping (Mapping : MLTAL) : ArgList :=
  if decide (getNumLevels Mapping = 0) then [] else getInnermost Mapping.

(** What the constant evaluation decides for an expression that is
    evaluated as it stands. *)
Definition constantVerdict (X : Collaborators) (E : Expr) : option bool :=
  match EvaluateAsRValue X E with
  | inl _ => None
  | inr b => Some b
  end.

(** An atomic constraint whose substituted expression is
    instantiation-dependent, and one whose substituted expression contains
    an unexpanded parameter pack. *)
Definition dependentAtom (X : Collaborators) (Args : MLTAL) (A : Expr) : Prop :=
  exists SE, SubstitutedExpression (SubstExpr X A Args) = Some SE /\
             isInstantiationDependent X SE = true.

Definition packAtom (X : Collaborators) (Args : MLTAL) (A : Expr) : Prop :=
  exists SE, SubstitutedExpression (SubstExpr X A Args) = Some SE /\
             containsUnexpandedParameterPack X SE = true.

(** The concrete translation unit with the atomic evaluator that accepts
    exactly identical atomic constraints. *)
Definition demoIdentity : Collaborators := {|
  isTypeDependent := isTypeDependent demo;
  hasBoolType := hasBoolType demo;
  SubstExpr := SubstExpr demo;
  isInstantiationDependent := isInstantiationDependent demo;
  containsUnexpandedParameterPack := containsUnexpandedParameterPack demo;
  EvaluateAsRValue := EvaluateAsRValue demo;
  InstIsInvalid := InstIsInvalid demo;
  getCanonicalDecl := getCanonicalDecl demo;
  ProfileArg := ProfileArg demo;
  CheckTemplateArgumentList := CheckTemplateArgumentList demo;
  getTemplateInstantiationArgs := getTemplateInstantiationArgs demo;
  AtomicSubsumes := fun A B => bool_decide (A = B);
  asFunctionDecl := asFunctionDecl demo
|}.

(** ** Requirements of a requires-expression *)

(** What the requirement code and the renderer leave undefined, and the
    end of the model's recursion budget. *)
Inductive Crash :=
| AssertFailed
| UnreachableReached
| WrongAlternative
| NullDereference
| UninitializedRead
| OutOfFuel.

Inductive Checked (A : Type) :=
| Fine (a : A)
| Crashed (c : Crash).
Arguments Fine {A} a.
Arguments Crashed {A} c.

#[global] Instance Checked_bind : MBind Checked := fun A B k m =>
  match m with
  | Fine a => k a
  | Crashed c => Crashed c
  end.

Inductive RequirementKind := RK_Type | RK_Simple | RK_Compound | RK_Nested.

(** [ExprRequirement::SatisfactionStatus] *)
Inductive ExprSatisfactionStatus :=
| SS_Dependent
| SS_ExprSubstitutionFailure
| SS_NoexceptNotMet
| SS_TypeRequirementSubstitutionFailure
| SS_ImplicitConversionAmbiguous
| SS_NoImplicitConversionExists
| SS_ConstraintsNotSatisfied
| SS_Satisfied.

#[global] Instance ExprSatisfactionStatus_eq_dec :
  EqDecision ExprSatisfactionStatus.
Proof. solve_decision. Defined.

(** [TypeRequirement::SatisfactionStatus] *)
Inductive TypeSatisfactionStatus :=
| TSS_Dependent
| TSS_SubstitutionFailure
| TSS_Satisfied.

Inductive CanThrowResult := CT_Cannot | CT_Dependent | CT_Can.

#[global] Instance CanThrowResult_eq_dec : EqDecision CanThrowResult.
Proof. solve_decision. Defined.

(** [InitializationSequence]: [isAmbiguous()], [Failed()], or neither. *)
Inductive InitializationResult := InitAmbiguous | InitFailed | InitDone.

Definition TypeSourceInfo := nat.
Definition SourceLocation := option nat.

Record SubstitutionDiagnostic := mkSubstitutionDiagnostic {
  SubstitutedEntity : nat;
  DiagLoc : nat;
  DiagMessage : list nat
}.

(** A template parameter list as the return-type requirement reads it:
    its size, its depth, and the type constraint of its first parameter
    with the immediately-declared constraint ([None] is a null pointer at
    either step). *)
Record TemplateParameterList := mkTPL {
  TPLSize : nat;
  TPLDepth : nat;
  TypeConstraintOfFirst : option (option Expr)
}.

(** The value of a [ReturnTypeRequirement]; a type constraint is the pair
    of the parameter list and the substituted constraint, null until
    [calculateSatisfaction] stores it. *)
Inductive ReturnTypeValue :=
| RT_Empty
| RT_SubstitutionDiagnostic (D : SubstitutionDiagnostic)
| RT_ExpectedType (T : TypeSourceInfo)
| RT_TypeConstraint (TPL : TemplateParameterList) (Substituted : option Expr).

Record ReturnTypeRequirement := mkReturnTypeRequirement {
  RTDependent : bool;
  RTContainsUnexpandedParameterPack : bool;
  RTValue : ReturnTypeValue
}.

Definition RTisEmpty (Req : ReturnTypeRequirement) : bool :=
  match RTValue Req with RT_Empty => true | _ => false end.

Record ExprRequirement := mkExprRequirement {
  ERKind : RequirementKind;
  ERDependent : bool;
  ERContainsUnexpandedParameterPack : bool;
  ERSatisfied : bool;
  ERValue : Expr + SubstitutionDiagnostic;
  NoexceptLoc : SourceLocation;
  TypeReq : ReturnTypeRequirement;
  ERStatus : ExprSatisfactionStatus
}.

Record TypeRequirement := mkTypeRequirement {
  TRDependent : bool;
  TRContainsUnexpandedParameterPack : bool;
  TRSatisfied : bool;
  TRValue : TypeSourceInfo + SubstitutionDiagnostic;
  TRStatus : TypeSatisfactionStatus
}.

(** [ASTConstraintSatisfaction]: the satisfaction stored in an AST node.
    Modelled from the spec: [ASTConstraintSatisfaction::Create] is not in
    this file; the record is stored by value, flag and details as given. *)
Record ASTConstraintSatisfaction := mkASTSatisfaction {
  ASTIsSatisfied : bool;
  ASTDetails : list UnsatisfiedConstraintRecord
}.

Record NestedRequirement := mkNestedRequirement {
  NRDependent : bool;
  NRContainsUnexpandedParameterPack : bool;
  NRSatisfied : bool;
  NRConstraintExpr : Expr;
  NRSatisfaction : ASTConstraintSatisfaction
}.

Inductive Requirement :=
| Req_Expr (R : ExprRequirement)
| Req_Type (R : TypeRequirement)
| Req_Nested (R : NestedRequirement).

(** Modelled from the spec: the base class [Requirement] is declared in a
    header; its accessors read the flags that the constructors of this
    file pass and set. *)
Definition isDependent (Req : Requirement) : bool :=
  match Req with
  | Req_Expr R => ERDependent R
  | Req_Type R => TRDependent R
  | Req_Nested R => NRDependent R
  end.

Definition isSatisfied (Req : Requirement) : bool :=
  match Req with
  | Req_Expr R => ERSatisfied R
  | Req_Type R => TRSatisfied R
  | Req_Nested R => NRSatisfied R
  end.

(** The result of [EvaluateAsInt] into a fresh [EvalResult]: the value if
    the expression is an integer constant, and whether the [Diag] member
    of the result is non-null afterwards. *)
Record IntEvaluation := mkIntEvaluation {
  IntValue : option Z;
  DiagIsSet : bool
}.

(** What the requirement code and the renderer read from the rest of the
    compiler. *)
Record RequirementAccess := mkRequirementAccess {
  canThrow : Expr -> CanThrowResult;
  InitializationSequence : TypeSourceInfo -> Expr -> InitializationResult;
  (** [BuildDecltypeType(E).getCanonicalType()] as a template argument *)
  BuildDecltypeType : Expr -> TemplateArgument;
  (** [CSE->isSatisfied()] and [CSE->getSatisfaction()] *)
  CSEisSatisfied : Expr -> bool;
  getSatisfaction : Expr -> ASTConstraintSatisfaction;
  isInstantiationDependentType : TypeSourceInfo -> bool;
  isDependentType : TypeSourceInfo -> bool;
  typeContainsUnexpandedParameterPack : TypeSourceInfo -> bool;
  isDependentArgument : TemplateArgument -> bool;
  (** [E->getType()] and the type a [TypeSourceInfo] names *)
  getType : Expr -> nat;
  getInfoType : TypeSourceInfo -> nat;
  isIntegerType : Expr -> bool;
  EvaluateAsBooleanCondition : Expr -> option bool;
  EvaluateAsInt : Expr -> IntEvaluation;
  (** [dyn_cast<RequiresExpr>(E)->getRequirements()] *)
  getRequirements : Expr -> option (list Requirement);
  (** [TD->getAssociatedConstraints] and
      [getTemplateInstantiationArgs(TD, &TAL)] *)
  getAssociatedConstraintsOf : NamedDecl -> list Expr;
  getTemplateInstantiationArgsWith : NamedDecl -> ArgList -> MLTAL
}.

Section Requirements.

Variable X : Collaborators.
Variable RA : RequirementAccess.

(** Lines 794-799: a return-type requirement that expects a type. *)
Definition ReturnTypeRequirement_type (ExpectedType : TypeSourceInfo) :
  ReturnTypeRequirement :=
  mkReturnTypeRequirement
    (isInstantiationDependentType RA ExpectedType)
    (typeContainsUnexpandedParameterPack RA ExpectedType)
    (RT_ExpectedType ExpectedType).

(** Lines 801-821: a return-type requirement with a type constraint. *)
Definition ReturnTypeRequirement_constraint (TPL : TemplateParameterList)
  (CSE : option Expr) : Checked ReturnTypeRequirement :=
  if negb (bool_decide (TPLSize TPL = 1)) then Crashed AssertFailed
  else
    match TypeConstraintOfFirst TPL with
    | None => Crashed AssertFailed
    | Some None => Crashed NullDereference
    | Some (Some (ConceptSpecializationExpr _ _ Args as Constraint)) =>
        (* [drop_front(1)] asserts that there is an argument to drop *)
        if isEmpty Args then Crashed AssertFailed
        else
          Fine (mkReturnTypeRequirement
                  (existsb (isDependentArgument RA) (drop 1 Args))
                  (containsUnexpandedParameterPack X Constraint)
                  (RT_TypeConstraint TPL CSE))
    | Some (Some _) => Crashed WrongAlternative
    end.

(** [MLTAL(TAL)] followed by [TPL->getDepth()] retained outer levels. *)
Definition decltypeLevels (MatchedType : TemplateArgument) (Depth : nat) :
  MLTAL :=
  [MatchedType] :: replicate Depth [].

(** Lines 823-870: [ReturnTypeRequirement::calculateSatisfaction]; the
    result is the status and the requirement with the substituted
    constraint stored. *)
Definition calculateSatisfaction (Req : ReturnTypeRequirement) (E : Expr) :
  Checked (ExprSatisfactionStatus * ReturnTypeRequirement) :=
  match RTValue Req with
  | RT_Empty => Fine (SS_Satisfied, Req)
  | RT_SubstitutionDiagnostic _ =>
      Fine (SS_TypeRequirementSubstitutionFailure, Req)
  | RT_ExpectedType T =>
      match InitializationSequence RA T E with
      | InitAmbiguous => Fine (SS_ImplicitConversionAmbiguous, Req)
      | InitFailed => Fine (SS_NoImplicitConversionExists, Req)
      | InitDone => Fine (SS_Satisfied, Req)
      end
  | RT_TypeConstraint TPL _ =>
      match TypeConstraintOfFirst TPL with
      | None => Crashed NullDereference
      | Some None => Crashed AssertFailed
      | Some (Some Declared) =>
          match
            SubstitutedExpression
              (SubstExpr X Declared
                 (decltypeLevels (BuildDecltypeType RA E) (TPLDepth TPL)))
          with
          | None => Crashed AssertFailed
          | Some (ConceptSpecializationExpr _ _ _ as CSE) =>
              let Req' :=
                mkReturnTypeRequirement (RTDependent Req)
                  (RTContainsUnexpandedParameterPack Req)
                  (RT_TypeConstraint TPL (Some CSE)) in
              if negb (CSEisSatisfied RA CSE)
              then Fine (SS_ConstraintsNotSatisfied, Req')
              else Fine (SS_Satisfied, Req')
          | Some _ => Crashed WrongAlternative
          end
      end
  end.

Definition isValidLoc (Loc : SourceLocation) : bool :=
  match Loc with Some _ => true | None => false end.

(** The assertion shared by the three constructors of [ExprRequirement]. *)
Definition simpleRequirementAssertion (IsSimple : bool)
  (Loc : SourceLocation) (Req : ReturnTypeRequirement) : bool :=
  negb IsSimple || (RTisEmpty Req && negb (isValidLoc Loc)).

(** Lines 743-765: the constructor that computes the status. *)
Definition ExprRequirement_evaluate (E : Expr) (IsSimple : bool)
  (Loc : SourceLocation) (Req : ReturnTypeRequirement) :
  Checked ExprRequirement :=
  let Kind := if IsSimple then RK_Simple else RK_Compound in
  let Dependent := isInstantiationDependent X E || RTDependent Req in
  let Pack :=
    containsUnexpandedParameterPack X E ||
    RTContainsUnexpandedParameterPack Req in
  if negb (simpleRequirementAssertion IsSimple Loc Req)
  then Crashed AssertFailed
  else if Dependent
  then Fine (mkExprRequirement Kind Dependent Pack false (inl E) Loc Req
               SS_Dependent)
  else if isValidLoc Loc && bool_decide (canThrow RA E = CT_Can)
  then Fine (mkExprRequirement Kind Dependent Pack false (inl E) Loc Req
               SS_NoexceptNotMet)
  else
    '(Status, Req') ← calculateSatisfaction Req E;
    Fine (mkExprRequirement Kind Dependent Pack
            (bool_decide (Status = SS_Satisfied)) (inl E) Loc Req' Status).

(** Lines 767-780: the constructor that is given the status. *)
Definition ExprRequirement_withStatus (E : Expr) (IsSimple : bool)
  (Loc : SourceLocation) (Req : ReturnTypeRequirement)
  (Status : ExprSatisfactionStatus) : Checked ExprRequirement :=
  if negb (simpleRequirementAssertion IsSimple Loc Req)
  then Crashed AssertFailed
  else
    Fine (mkExprRequirement (if IsSimple then RK_Simple else RK_Compound)
            (bool_decide (Status = SS_Dependent))
            (bool_decide (Status = SS_Dependent) &&
             (containsUnexpandedParameterPack X E ||
              RTContainsUnexpandedParameterPack Req))
            (bool_decide (Status = SS_Satisfied)) (inl E) Loc Req Status).

(** Lines 782-792: the constructor for a substitution failure. *)
Definition ExprRequirement_substitutionFailure
  (ExprSubstDiag : SubstitutionDiagnostic) (IsSimple : bool)
  (Loc : SourceLocation) (Req : ReturnTypeRequirement) :
  Checked ExprRequirement :=
  if negb (simpleRequirementAssertion IsSimple Loc Req)
  then Crashed AssertFailed
  else
    Fine (mkExprRequirement (if IsSimple then RK_Simple else RK_Compound)
            (RTDependent Req) (RTContainsUnexpandedParameterPack Req) false
            (inr ExprSubstDiag) Loc Req SS_ExprSubstitutionFailure).

(** Lines 947-956: a type requirement built from a type. *)
Definition TypeRequirement_type (T : TypeSourceInfo) : TypeRequirement :=
  mkTypeRequirement (isDependentType RA T)
    (typeContainsUnexpandedParameterPack RA T) true (inl T)
    (if isDependentType RA T then TSS_Dependent else TSS_Satisfied).

(** Lines 983-1002: a nested requirement; the checks' return values are
    dropped. *)
Definition NestedRequirement_create (Req : NamedDecl) (Constraint : Expr)
  (TemplateArgs : MLTAL) (S : Sema) : NestedRequirement * Sema :=
  if bool_decide (getNumLevels TemplateArgs = 0) then
    let '(_, Satisfaction, S') :=
      CheckConstraintSatisfaction_expr X Constraint emptySatisfaction S in
    (mkNestedRequirement false false (IsSatisfied Satisfaction) Constraint
       (mkASTSatisfaction (IsSatisfied Satisfaction) (Details Satisfaction)),
     S')
  else
    let '(_, Satisfaction, IsDependent, ContainsPack, S') :=
      CheckConstraintSatisfaction_nested X Req Constraint TemplateArgs
        emptySatisfaction S in
    (mkNestedRequirement IsDependent ContainsPack
       (IsSatisfied Satisfaction) Constraint
       (mkASTSatisfaction (IsSatisfied Satisfaction) (Details Satisfaction)),
     S').

End Requirements.

(** ** Diagnostic renderer *)

Inductive Note :=
| err_template_arg_list_constraints_not_satisfied (TD : NamedDecl)
    (Args : ArgList)
| note_substituted_constraint_expr_is_ill_formed (D : PartialDiagnosticAt)
| note_atomic_constraint_evaluated_to_false (First : bool) (E : Expr)
| note_atomic_constraint_evaluated_to_false_elaborated (First : bool)
    (E : Expr) (LHS : Z) (Opc : Opcode) (RHS : Z)
| note_single_arg_concept_specialization_constraint_evaluated_to_false
    (First : bool) (Arg : TemplateArgument) (Concept : NamedDecl)
| note_concept_specialization_constraint_evaluated_to_false (First : bool)
    (CSE : Expr)
| note_expr_requirement_expr_substitution_error (First : bool)
    (Entity : nat) (Message : list nat)
| note_expr_requirement_expr_unknown_substitution_error (First : bool)
    (Entity : nat)
| note_expr_requirement_noexcept_not_met (First : bool) (E : Expr)
| note_expr_requirement_type_requirement_substitution_error (First : bool)
    (Entity : nat) (Message : list nat)
| note_expr_requirement_type_requirement_unknown_substitution_error
    (First : bool) (Entity : nat)
| note_expr_requirement_ambiguous_conversion (First : bool) (From To : nat)
| note_expr_requirement_no_implicit_conversion (First : bool) (From To : nat)
| note_expr_requirement_constraints_not_satisfied_simple (First : bool)
    (ExprType : nat) (Concept : NamedDecl)
| note_expr_requirement_constraints_not_satisfied (First : bool) (CSE : Expr)
| note_type_requirement_substitution_error (First : bool) (Entity : nat)
    (Message : list nat)
| note_type_requirement_unknown_substitution_error (First : bool)
    (Entity : nat).

(** Modelled from the spec: the default argument of [First] in the
    declarations of [Sema::DiagnoseUnsatisfiedConstraint], which are in
    Sema.h; the spec starts the walk with [first] true, as the helpers of
    this file do. *)
Definition First_default : bool := true.

Section Renderer.

Variable RA : RequirementAccess.

(** The call of [Sema::DiagnoseUnsatisfiedConstraint] on a satisfaction
    stored in an AST node, to which the functions below recur. *)
Variable DiagnoseStored :
  ASTConstraintSatisfaction -> bool -> Checked (list Note).

(** The note for a concept specialization that is not satisfied, and the
    walk into its stored satisfaction. *)
Definition substitutionNote
  (withMessage : bool -> nat -> list nat -> Note)
  (unknown : bool -> nat -> Note) (First : bool)
  (SubstDiag : SubstitutionDiagnostic) : Note :=
  if negb (isEmpty (DiagMessage SubstDiag))
  then withMessage First (SubstitutedEntity SubstDiag) (DiagMessage SubstDiag)
  else unknown First (SubstitutedEntity SubstDiag).

(** Lines 872-945: [ExprRequirement::Diagnose]. *)
Definition ExprRequirement_Diagnose (R : ExprRequirement) (First : bool) :
  Checked (list Note) :=
  if ERSatisfied R then Crashed AssertFailed
  else
    match ERStatus R with
    | SS_Dependent => Crashed UnreachableReached
    | SS_ExprSubstitutionFailure =>
        match ERValue R with
        | inr SubstDiag =>
            Fine [substitutionNote
                    note_expr_requirement_expr_substitution_error
                    note_expr_requirement_expr_unknown_substitution_error
                    First SubstDiag]
        | inl _ => Crashed WrongAlternative
        end
    | SS_NoexceptNotMet =>
        match ERValue R with
        | inl E => Fine [note_expr_requirement_noexcept_not_met First E]
        | inr _ => Crashed WrongAlternative
        end
    | SS_TypeRequirementSubstitutionFailure =>
        match RTValue (TypeReq R) with
        | RT_SubstitutionDiagnostic SubstDiag =>
            Fine [substitutionNote
              note_expr_requirement_type_requirement_substitution_error
              note_expr_requirement_type_requirement_unknown_substitution_error
              First SubstDiag]
        | _ => Crashed WrongAlternative
        end
    | SS_ImplicitConversionAmbiguous =>
        match RTValue (TypeReq R), ERValue R with
        | RT_ExpectedType T, inl E =>
            Fine [note_expr_requirement_ambiguous_conversion First
                    (getType RA E) (getInfoType RA T)]
        | _, _ => Crashed WrongAlternative
        end
    | SS_NoImplicitConversionExists =>
        match RTValue (TypeReq R), ERValue R with
        | RT_ExpectedType T, inl E =>
            Fine [note_expr_requirement_no_implicit_conversion First
                    (getType RA E) (getInfoType RA T)]
        | _, _ => Crashed WrongAlternative
        end
    | SS_ConstraintsNotSatisfied =>
        match RTValue (TypeReq R) with
        | RT_TypeConstraint _ None => Crashed NullDereference
        | RT_TypeConstraint _
            (Some (ConceptSpecializationExpr Concept _ Args as ConstraintExpr)) =>
            Heading ←
              (if bool_decide (length Args = 1) then
                 match ERValue R with
                 | inl E =>
                     Fine
                       (note_expr_requirement_constraints_not_satisfied_simple
                          First (getType RA E) Concept)
                 | inr _ => Crashed WrongAlternative
                 end
               else
                 Fine (note_expr_requirement_constraints_not_satisfied
                         First ConstraintExpr));
            Rest ← DiagnoseStored (getSatisfaction RA ConstraintExpr)
                     First_default;
            Fine (Heading :: Rest)
        | _ => Crashed WrongAlternative
        end
    | SS_Satisfied => Crashed UnreachableReached
    end.

(** Lines 958-981: [TypeRequirement::Diagnose]. *)
Definition TypeRequirement_Diagnose (R : TypeRequirement) (First : bool) :
  Checked (list Note) :=
  if TRSatisfied R then Crashed AssertFailed
  else
    match TRStatus R with
    | TSS_Dependent => Crashed UnreachableReached
    | TSS_SubstitutionFailure =>
        match TRValue R with
        | inr SubstDiag =>
            Fine [substitutionNote note_type_requirement_substitution_error
                    note_type_requirement_unknown_substitution_error
                    First SubstDiag]
        | inl _ => Crashed WrongAlternative
        end
    | TSS_Satisfied => Crashed UnreachableReached
    end.

(** Lines 1004-1006: [NestedRequirement::Diagnose]. *)
Definition NestedRequirement_Diagnose (R : NestedRequirement)
  (First : bool) : Checked (list Note) :=
  DiagnoseStored (NRSatisfaction R) First.

Definition Requirement_Diagnose (Req : Requirement) (First : bool) :
  Checked (list Note) :=
  match Req with
  | Req_Expr R => ExprRequirement_Diagnose R First
  | Req_Type R => TypeRequirement_Diagnose R First
  | Req_Nested R => NestedRequirement_Diagnose R First
  end.

(** Lines 424-428: the first requirement that is neither dependent nor
    satisfied is diagnosed, and only that one. *)
Fixpoint diagnoseFirstFailing (Reqs : list Requirement) (First : bool) :
  Checked (list Note) :=
  match Reqs with
  | [] => Fine []
  | Req :: Reqs' =>
      if negb (isDependent Req) && negb (isSatisfied Req)
      then Requirement_Diagnose Req First
      else diagnoseFirstFailing Reqs' First
  end.

(** The last statement of the function (lines 432-434). *)
Definition genericNote (SubstExpr : Expr) (First : bool) :
  Checked (list Note) :=
  Fine [note_atomic_constraint_evaluated_to_false First SubstExpr].

(** Lines 345-435: [diagnoseWellFormedUnsatisfiedConstraintExpr]. *)
Fixpoint diagnoseWellFormedUnsatisfiedConstraintExpr (SubstExpr : Expr)
  (First : bool) : Checked (list Note) :=
  match SubstExpr with
  | BinaryOperator BO_LOr LHS RHS =>
      L ← diagnoseWellFormedUnsatisfiedConstraintExpr LHS First;
      R ← diagnoseWellFormedUnsatisfiedConstraintExpr RHS false;
      Fine (L ++ R)
  | BinaryOperator BO_LAnd LHS RHS =>
      match EvaluateAsBooleanCondition RA LHS with
      | None => Crashed UninitializedRead
      | Some true => diagnoseWellFormedUnsatisfiedConstraintExpr RHS First
      | Some false =>
          L ← diagnoseWellFormedUnsatisfiedConstraintExpr LHS First;
          match EvaluateAsBooleanCondition RA RHS with
          | None => Crashed UninitializedRead
          | Some true => Fine L
          | Some false =>
              R ← diagnoseWellFormedUnsatisfiedConstraintExpr RHS false;
              Fine (L ++ R)
          end
      end
  | BinaryOperator (BO_LT | BO_EQ) LHS RHS =>
      if isIntegerType RA LHS && isIntegerType RA RHS then
        let SimplifiedLHS := EvaluateAsInt RA LHS in
        let SimplifiedRHS := EvaluateAsInt RA RHS in
        if negb (DiagIsSet SimplifiedLHS) && negb (DiagIsSet SimplifiedRHS)
        then
          match IntValue SimplifiedLHS, IntValue SimplifiedRHS with
          | Some L, Some R =>
              Fine [note_atomic_constraint_evaluated_to_false_elaborated
                      First SubstExpr L
                      (match SubstExpr with
                       | BinaryOperator Opc _ _ => Opc
                       | _ => BO_EQ
                       end) R]
          | _, _ => Crashed AssertFailed
          end
        else genericNote SubstExpr First
      else genericNote SubstExpr First
  | BinaryOperator _ _ _ => genericNote SubstExpr First
  | ParenExpr SubExpr =>
      diagnoseWellFormedUnsatisfiedConstraintExpr SubExpr First
  | ConceptSpecializationExpr Concept _ Args =>
      let Heading :=
        match Args with
        | [Arg] =>
            note_single_arg_concept_specialization_constraint_evaluated_to_false
              First Arg Concept
        | _ =>
            note_concept_specialization_constraint_evaluated_to_false
              First SubstExpr
        end in
      Rest ← DiagnoseStored (getSatisfaction RA SubstExpr) First_default;
      Fine (Heading :: Rest)
  | OtherExpr _ =>
      match getRequirements RA SubstExpr with
      | Some Reqs => diagnoseFirstFailing Reqs First
      | None => genericNote SubstExpr First
      end
  | ExprWithCleanups _ => genericNote SubstExpr First
  end.

(** Lines 437-450: [diagnoseUnsatisfiedConstraintExpr]. *)
Definition diagnoseUnsatisfiedConstraintExpr (E : Expr) (Record : Detail)
  (First : bool) : Checked (list Note) :=
  match Record with
  | DetailDiag D => Fine [note_substituted_constraint_expr_is_ill_formed D]
  | DetailExpr SubstExpr =>
      diagnoseWellFormedUnsatisfiedConstraintExpr SubstExpr First
  end.

(** The loop of lines 457-460 and 468-471: [First] is false after the
    first record. *)
Fixpoint diagnoseDetails (Records : list UnsatisfiedConstraintRecord)
  (First : bool) : Checked (list Note) :=
  match Records with
  | [] => Fine []
  | (E, Record) :: Records' =>
      Notes ← diagnoseUnsatisfiedConstraintExpr E Record First;
      Rest ← diagnoseDetails Records' false;
      Fine (Notes ++ Rest)
  end.

End Renderer.

(** Lines 463-472: [Sema::DiagnoseUnsatisfiedConstraint] for a stored
    satisfaction; [fuel] bounds the nesting of stored satisfactions that
    is followed. *)
Fixpoint DiagnoseUnsatisfiedConstraint_AST (RA : RequirementAccess)
  (fuel : nat) (Satisfaction : ASTConstraintSatisfaction) (First : bool) :
  Checked (list Note) :=
  match fuel with
  | 0 => Crashed OutOfFuel
  | S fuel' =>
      if ASTIsSatisfied Satisfaction then Crashed AssertFailed
      else
        diagnoseDetails RA (DiagnoseUnsatisfiedConstraint_AST RA fuel')
          (ASTDetails Satisfaction) First
  end.

(** Lines 452-461: [Sema::DiagnoseUnsatisfiedConstraint] for a
    [ConstraintSatisfaction]. *)
Definition DiagnoseUnsatisfiedConstraint (RA : RequirementAccess)
  (fuel : nat) (Satisfaction : ConstraintSatisfaction) (First : bool) :
  Checked (list Note) :=
  if IsSatisfied Satisfaction then Crashed AssertFailed
  else
    diagnoseDetails RA (DiagnoseUnsatisfiedConstraint_AST RA fuel)
      (Details Satisfaction) First.

(** Lines 316-343: [Sema::EnsureTemplateArgumentListConstraints]; the
    result is the returned boolean, the engine state and what was
    rendered. *)
Definition EnsureTemplateArgumentListConstraints (X : Collaborators)
  (RA : RequirementAccess) (fuel : nat) (TD : NamedDecl)
  (TemplateArgs : ArgList) (S : Sema) : bool * Sema * Checked (list Note) :=
  let AssociatedConstraints := getAssociatedConstraintsOf RA TD in
  let MLTAL := getTemplateInstantiationArgsWith RA TD TemplateArgs in
  let '(Failed, Satisfaction, S') :=
    CheckConstraintSatisfaction X TD TD AssociatedConstraints MLTAL
      emptySatisfaction S in
  if Failed then (true, S', Fine [])
  else if negb (IsSatisfied Satisfaction) then
    (true, S',
     Notes ← DiagnoseUnsatisfiedConstraint RA fuel Satisfaction First_default;
     Fine (err_template_arg_list_constraints_not_satisfied TD TemplateArgs
             :: Notes))
  else (false, S', Fine []).

(** ** Reference readings for the requirements and the renderer *)

(** The requirements that the three constructors of [ExprRequirement]
    build. *)
Definition ExprRequirement_constructed (X : Collaborators)
  (RA : RequirementAccess) (R : ExprRequirement) : Prop :=
  (exists E IsSimple Loc Req,
     ExprRequirement_evaluate X RA E IsSimple Loc Req = Fine R) \/
  (exists E IsSimple Loc Req Status,
     ExprRequirement_withStatus X E IsSimple Loc Req Status = Fine R) \/
  (exists ExprSubstDiag IsSimple Loc Req,
     ExprRequirement_substitutionFailure ExprSubstDiag IsSimple Loc Req
     = Fine R).

(** The operands of the [&&] tree that the renderer walks; it looks
    through parentheses only. *)
Fixpoint conjuncts (E : Expr) : list Expr :=
  match E with
  | BinaryOperator BO_LAnd LHS RHS => conjuncts LHS ++ conjuncts RHS
  | ParenExpr SubExpr => conjuncts SubExpr
  | _ => [E]
  end.

(** The nodes of that tree: the operands and every conjunction and
    parenthesis above them. *)
Fixpoint conjunctionNodes (E : Expr) : list Expr :=
  E ::
  match E with
  | BinaryOperator BO_LAnd LHS RHS =>
      conjunctionNodes LHS ++ conjunctionNodes RHS
  | ParenExpr SubExpr => conjunctionNodes SubExpr
  | _ => []
  end.

(** The value of the tree as the conjunction of the values of its
    operands. *)
Fixpoint conjunctionValue (value : Expr -> bool) (E : Expr) : bool :=
  match E with
  | BinaryOperator BO_LAnd LHS RHS =>
      conjunctionValue value LHS && conjunctionValue value RHS
  | ParenExpr SubExpr => conjunctionValue value SubExpr
  | _ => value E
  end.

(** An operand for which the renderer has no case of its own: not [||],
    not a comparison of two integers, not a concept specialization and
    not a requires-expression. *)
Definition isPlainOperand (RA : RequirementAccess) (E : Expr) : bool :=
  match E with
  | BinaryOperator BO_Add _ _ | ExprWithCleanups _ => true
  | BinaryOperator (BO_LT | BO_EQ) LHS RHS =>
      negb (isIntegerType RA LHS && isIntegerType RA RHS)
  | OtherExpr _ =>
      match getRequirements RA E with
      | None => true
      | Some _ => false
      end
  | _ => false
  end.

(** One generic note for each expression; the first carries [First], the
    others are continuations. *)
Definition genericNotes (First : bool) (Es : list Expr) : list Note :=
  match Es with
  | [] => []
  | E :: Es' =>
      note_atomic_constraint_evaluated_to_false First E ::
      map (note_atomic_constraint_evaluated_to_false false) Es'
  end.

(** What [Sema::EnsureTemplateArgumentListConstraints] renders for the
    record of its check. *)
Definition renderedFor (RA : RequirementAccess) (fuel : nat)
  (TD : NamedDecl) (TemplateArgs : ArgList)
  (Satisfaction : ConstraintSatisfaction) : Checked (list Note) :=
  if IsSatisfied Satisfaction then Fine []
  else
    Notes ← DiagnoseUnsatisfiedConstraint RA fuel Satisfaction First_default;
    Fine (err_template_arg_list_constraints_not_satisfied TD TemplateArgs
            :: Notes).

(** The rest of the compiler for the concrete translation unit: odd
    numbered expressions are false, [noexcept] holds nowhere, a conversion
    to type 5 is ambiguous and one to type 6 does not exist, and template
    7 is constrained by expression 1. *)
Definition demoValue (E : Expr) : bool :=
  match E with
  | OtherExpr n => Nat.even n
  | _ => true
  end.

Definition demoRequirements : RequirementAccess := {|
  canThrow := fun _ => CT_Can;
  InitializationSequence := fun T _ =>
    match T with
    | 5 => InitAmbiguous
    | 6 => InitFailed
    | _ => InitDone
    end;
  BuildDecltypeType := fun _ => 0;
  CSEisSatisfied := fun _ => false;
  getSatisfaction := fun _ => mkASTSatisfaction false [];
  isInstantiationDependentType := fun _ => false;
  isDependentType := fun _ => false;
  typeContainsUnexpandedParameterPack := fun _ => false;
  isDependentArgument := fun _ => false;
  getType := fun _ => 0;
  getInfoType := fun T => T;
  isIntegerType := fun _ => true;
  EvaluateAsBooleanCondition := fun E => Some (conjunctionValue demoValue E);
  EvaluateAsInt := fun _ => mkIntEvaluation (Some 0%Z) false;
  getRequirements := fun _ => None;
  getAssociatedConstraintsOf := fun TD =>
    match TD with
    | 7 => [OtherExpr 1]
    | _ => []
    end;
  getTemplateInstantiationArgsWith := fun _ Args => [Args]
|}.

(** Two textually identical atomic constraints of different concepts:
    [OtherExpr 10] and [OtherExpr 11] have the same canonical profile. *)
Definition demoAccess : AmbiguityAccess := {|
  hasMatchingParameterMapping := fun A B =>
    bool_decide (ParameterMapping A = ParameterMapping B);
  ProfileExpr := fun E =>
    match E with
    | OtherExpr 10 | OtherExpr 11 => 100
    | OtherExpr n => n
    | _ => 0
    end
|}.

(** The concrete translation unit with the atomic evaluator that accepts
    the same expression under matching parameter mappings. *)
Definition demoSameExpr : Collaborators := {|
  isTypeDependent := isTypeDependent demo;
  hasBoolType := hasBoolType demo;
  SubstExpr := SubstExpr demo;
  isInstantiationDependent := isInstantiationDependent demo;
  containsUnexpandedParameterPack := containsUnexpandedParameterPack demo;
  EvaluateAsRValue := EvaluateAsRValue demo;
  InstIsInvalid := InstIsInvalid demo;
  getCanonicalDecl := getCanonicalDecl demo;
  ProfileArg := ProfileArg demo;
  CheckTemplateArgumentList := CheckTemplateArgumentList demo;
  getTemplateInstantiationArgs := getTemplateInstantiationArgs demo;
  AtomicSubsumes := fun A B =>
    bool_decide (AtomicExpr A = AtomicExpr B) &&
    hasMatchingParameterMapping demoAccess A B;
  asFunctionDecl := asFunctionDecl demo
|}.

Lemma find_app_first {A : Type} (f : A -> bool) (l1 l2 : list A) :
  List.find f (l1 ++ l2) =
  match List.find f l1 with
  | Some x => Some x
  | None => List.find f l2
  end.
Proof.
  induction l1 as [|x l1 IH]; simpl; [reflexivity|].
  destruct (f x); [reflexivity|exact IH].
Qed.

Section Properties.

Variable X : Collaborators.

(** ** Well-formedness checker *)

Lemma checkAtomicConstraint_spec E Culprit S :
  checkAtomicConstraint X E Culprit S =
  if isNonBoolAtomic X E
  then (false,
        match Culprit with Some _ => Some (Some E) | None => None end,
        Diag E err_non_bool_atomic_constraint S)
  else (true, Culprit, S).
Proof.
  unfold checkAtomicConstraint, isNonBoolAtomic.
  destruct (isTypeDependent X E), (hasBoolType X E); reflexivity.
Qed.

(** The checker answers whether no checked atom is a non-dependent
    non-[bool] one, and logs one error, at the first such atom. *)
Lemma CheckConstraintExpression_result E : forall Culprit S,
  exists Culprit',
    CheckConstraintExpression X E Culprit S =
    (forallb (fun A => negb (isNonBoolAtomic X A)) (checkedAtoms E), Culprit',
     match List.find (isNonBoolAtomic X) (checkedAtoms E) with
     | Some A => Diag A err_non_bool_atomic_constraint S
     | None => S
     end).
Proof.
  assert (Hatom : forall E' Culprit S, exists Culprit',
    checkAtomicConstraint X E' Culprit S =
    (forallb (fun A => negb (isNonBoolAtomic X A)) [E'], Culprit',
     match List.find (isNonBoolAtomic X) [E'] with
     | Some A => Diag A err_non_bool_atomic_constraint S
     | None => S
     end)).
  { intros E' Culprit S. rewrite checkAtomicConstraint_spec. simpl.
    destruct (isNonBoolAtomic X E'); simpl; eauto. }
  induction E as [Opc L IHL R IHR| | | |]; intros Culprit S; simpl;
    try apply Hatom.
  destruct (isLogicalOp Opc) eqn:Hop; [|apply Hatom].
  destruct (IHL (Culprit_default) S) as [cl ->].
  rewrite forallb_app, find_app_first.
  destruct (List.find (isNonBoolAtomic X) (checkedAtoms L)) as [A|] eqn:HfL.
  - assert (forallb (fun A => negb (isNonBoolAtomic X A)) (checkedAtoms L) = false)
      as ->.
    { apply find_some in HfL as [HIn HA].
      apply not_true_is_false. intros Hall.
      rewrite forallb_forall in Hall. specialize (Hall _ HIn).
      rewrite HA in Hall. discriminate. }
    simpl. eauto.
  - assert (forallb (fun A => negb (isNonBoolAtomic X A)) (checkedAtoms L) = true)
      as ->.
    { apply forallb_forall. intros A HIn.
      pose proof (find_none _ _ HfL A HIn) as ->. reflexivity. }
    simpl. destruct (IHR (Culprit_default) S) as [cr ->]. eauto.
Qed.

(** For a top-level [&&] or [||] the caller's out-pointer comes back as it
    went in, whatever the operands are. *)
Lemma CheckConstraintExpression_logical_Culprit Opc LHS RHS Culprit S :
  isLogicalOp Opc = true ->
  (CheckConstraintExpression X (BinaryOperator Opc LHS RHS) Culprit S).1.2
  = Culprit.
Proof.
  intros Hop. simpl. rewrite Hop.
  destruct (CheckConstraintExpression X LHS Culprit_default S) as [[okL cl] S1].
  destruct okL; [|reflexivity].
  destruct (CheckConstraintExpression X RHS Culprit_default S1) as [[okR cr] S2].
  reflexivity.
Qed.

(** The checker only adds diagnostics to the log and leaves the caches
    alone. *)
Lemma CheckConstraintExpression_state E Culprit S :
  exists evs,
    Log (CheckConstraintExpression X E Culprit S).2 = Log S ++ evs /\
    substitutedExprs evs = [] /\
    SatisfactionCache (CheckConstraintExpression X E Culprit S).2
      = SatisfactionCache S /\
    SubsumptionCache (CheckConstraintExpression X E Culprit S).2
      = SubsumptionCache S.
Proof.
  destruct (CheckConstraintExpression_result E Culprit S) as [c ->]. simpl.
  destruct (List.find _ _).
  - exists [EvDiag e err_non_bool_atomic_constraint]. simpl. auto.
  - exists []. rewrite app_nil_r. auto.
Qed.

(** The copy constructor keeps [IsSatisfied] and copies no detail. *)
Lemma copyConstruct_drops_details Other :
  IsSatisfied (copyConstruct Other) = IsSatisfied Other /\
  Details (copyConstruct Other) = [].
Proof. split; reflexivity. Qed.

(** ** Satisfaction evaluator: control flow *)

Lemma calculateConstraintSatisfaction_atomic Evaluator E C :
  isAtomicConstraintExpr E = true ->
  calculateConstraintSatisfaction X Evaluator E C
  = evaluateAtomicConstraint X Evaluator E C.
Proof.
  destruct E as [Opc L R| | | |]; simpl; try discriminate; try reflexivity.
  destruct (isLogicalOp Opc); [discriminate|reflexivity].
Qed.

Lemma calculateConstraintSatisfaction_LAnd_short Evaluator A B C C1 :
  calculateConstraintSatisfaction X Evaluator A C = (false, C1) ->
  IsSatisfied (Sat C1) = false ->
  calculateConstraintSatisfaction X Evaluator (BinaryOperator BO_LAnd A B) C
  = (false, C1).
Proof. intros HA Hs. simpl. rewrite HA, Hs. reflexivity. Qed.

Lemma calculateConstraintSatisfaction_LOr_short Evaluator A B C C1 :
  calculateConstraintSatisfaction X Evaluator A C = (false, C1) ->
  IsSatisfied (Sat C1) = true ->
  calculateConstraintSatisfaction X Evaluator (BinaryOperator BO_LOr A B) C
  = (false, C1).
Proof. intros HA Hs. simpl. rewrite HA, Hs. reflexivity. Qed.

(** ** Satisfaction evaluator: what one atomic constraint does *)

Lemma substitutedExprs_app evs1 evs2 :
  substitutedExprs (evs1 ++ evs2) = substitutedExprs evs1 ++ substitutedExprs evs2.
Proof. apply omap_app. Qed.

(** One atomic constraint under the substituting evaluator: the record
    grows by at most one entry, for this expression and only after this
    expression was substituted, and an entry is added only when the record
    is left unsatisfied. *)
Lemma evaluateAtomicConstraint_subst_effect Creator Args E C :
  exists new evs,
    Details (Sat (evaluateAtomicConstraint X
      (substitutingEvaluator X Creator Args) E C).2) = Details (Sat C) ++ new /\
    Log (SemaSt (evaluateAtomicConstraint X
      (substitutingEvaluator X Creator Args) E C).2) = Log (SemaSt C) ++ evs /\
    sublist new.*1 (substitutedExprs evs) /\
    sublist (substitutedExprs evs) [E] /\
    (IsSatisfied (Sat (evaluateAtomicConstraint X
      (substitutingEvaluator X Creator Args) E C).2) = true -> new = []).
Proof.
  unfold evaluateAtomicConstraint, substitutingEvaluator.
  destruct (Creator E).
  { exists [], []. simpl. rewrite !app_nil_r.
    repeat split; auto using sublist_nil_l. }
  destruct (SubstitutedExpression (SubstExpr X E Args)) as [SE|],
    (TrapHasErrorOccurred (SubstExpr X E Args)); simpl.
  - exists [(E, DetailDiag (SFINAEDiagnostic (SubstExpr X E Args)))],
      [EvSubstExpr E Args]. simpl. repeat split; auto; discriminate.
  - destruct (isInstantiationDependent X SE); simpl.
    { exists [], [EvSubstExpr E Args]. simpl. rewrite app_nil_r.
      repeat split; auto using sublist_nil_l. }
    destruct (CheckConstraintExpression_state SE Culprit_default
                (emit (EvSubstExpr E Args) (SemaSt C)))
      as (evs & HLog & Hevs & _ & _).
    destruct (CheckConstraintExpression X SE Culprit_default
                (emit (EvSubstExpr E Args) (SemaSt C))) as [[ok c] S'].
    simpl in HLog. rewrite <- app_assoc in HLog.
    destruct ok; simpl.
    + destruct (EvaluateAsRValue X SE) as [notes|[|]]; simpl.
      * exists [], ([EvSubstExpr E Args] ++ evs ++
          [EvEvaluateAsRValue SE;
           EvDiag SE err_non_constant_constraint_expression] ++
          map (fun n => EvDiag SE (note_evaluation n)) notes).
        rewrite HLog, app_nil_r, !substitutedExprs_app, Hevs.
        assert (substitutedExprs
                  (map (fun n => EvDiag SE (note_evaluation n)) notes) = [])
          as -> by (induction notes; auto).
        simpl. rewrite <- !app_assoc. simpl.
        repeat split; auto using sublist_nil_l.
      * exists [], ([EvSubstExpr E Args] ++ evs ++ [EvEvaluateAsRValue SE]).
        rewrite HLog, app_nil_r, !substitutedExprs_app, Hevs.
        simpl. rewrite <- !app_assoc. simpl.
        repeat split; auto using sublist_nil_l.
      * exists [(E, DetailExpr SE)],
          ([EvSubstExpr E Args] ++ evs ++ [EvEvaluateAsRValue SE]).
        rewrite HLog, !substitutedExprs_app, Hevs.
        simpl. rewrite <- !app_assoc. simpl.
        repeat split; auto; discriminate.
    + exists [], ([EvSubstExpr E Args] ++ evs).
      rewrite HLog, app_nil_r, !substitutedExprs_app, Hevs.
      simpl. repeat split; auto using sublist_nil_l.
  - exists [(E, DetailDiag (SFINAEDiagnostic (SubstExpr X E Args)))],
      [EvSubstExpr E Args]. simpl. repeat split; auto; discriminate.
  - exists [], [EvSubstExpr E Args]. simpl. rewrite app_nil_r.
    repeat split; auto using sublist_nil_l.
Qed.

(** ** Satisfaction evaluator: whole expressions *)

(** Details grow at the end only; their clause expressions are among the
    expressions substituted during the call, in the order of substitution,
    and those are among the atomic constraints in source order. *)
Lemma calculateConstraintSatisfaction_subst_order Creator Args E : forall C,
  exists new evs,
    Details (Sat (calculateConstraintSatisfaction_subst X Creator Args E C).2)
      = Details (Sat C) ++ new /\
    Log (SemaSt (calculateConstraintSatisfaction_subst X Creator Args E C).2)
      = Log (SemaSt C) ++ evs /\
    sublist new.*1 (substitutedExprs evs) /\
    sublist (substitutedExprs evs) (atomicConstraints E).
Proof.
  unfold calculateConstraintSatisfaction_subst.
  assert (Hatom : forall E' C, exists new evs,
    Details (Sat (evaluateAtomicConstraint X
      (substitutingEvaluator X Creator Args) E' C).2) = Details (Sat C) ++ new /\
    Log (SemaSt (evaluateAtomicConstraint X
      (substitutingEvaluator X Creator Args) E' C).2) = Log (SemaSt C) ++ evs /\
    sublist new.*1 (substitutedExprs evs) /\
    sublist (substitutedExprs evs) [E']).
  { intros E' C.
    destruct (evaluateAtomicConstraint_subst_effect Creator Args E' C)
      as (new & evs & ? & ? & ? & ? & _). eauto 8. }
  induction E as [Opc L IHL R IHR|E IH|E IH| |]; intros C; simpl; auto.
  destruct (isLogicalOp Opc) eqn:Hop; [|apply Hatom].
  destruct (IHL C) as (n1 & e1 & HD1 & HL1 & Hs1 & Ha1).
  destruct (calculateConstraintSatisfaction X _ L C) as [Failed C1].
  simpl in HD1, HL1.
  assert (Hstop : exists new evs,
    Details (Sat C1) = Details (Sat C) ++ new /\
    Log (SemaSt C1) = Log (SemaSt C) ++ evs /\
    sublist new.*1 (substitutedExprs evs) /\
    sublist (substitutedExprs evs) (atomicConstraints L ++ atomicConstraints R)).
  { exists n1, e1. repeat split; auto. by apply sublist_inserts_r. }
  assert (Hgo : exists new evs,
    Details (Sat (calculateConstraintSatisfaction X
      (substitutingEvaluator X Creator Args) R C1).2) = Details (Sat C) ++ new /\
    Log (SemaSt (calculateConstraintSatisfaction X
      (substitutingEvaluator X Creator Args) R C1).2) = Log (SemaSt C) ++ evs /\
    sublist new.*1 (substitutedExprs evs) /\
    sublist (substitutedExprs evs) (atomicConstraints L ++ atomicConstraints R)).
  { destruct (IHR C1) as (n2 & e2 & HD2 & HL2 & Hs2 & Ha2).
    exists (n1 ++ n2), (e1 ++ e2).
    rewrite HD2, HL2, HD1, HL1, <- !app_assoc, fmap_app, substitutedExprs_app.
    repeat split; auto using sublist_app. }
  destruct Failed; simpl; [exact Hstop|].
  destruct Opc; try discriminate; destruct (IsSatisfied (Sat C1)); simpl; auto.
Qed.

(** Without [||], an evaluation that leaves the record satisfied has added
    no entry to it. *)
Lemma calculateConstraintSatisfaction_subst_orFree Creator Args E :
  orFree E = true -> forall C,
  exists new,
    Details (Sat (calculateConstraintSatisfaction_subst X Creator Args E C).2)
      = Details (Sat C) ++ new /\
    (IsSatisfied
       (Sat (calculateConstraintSatisfaction_subst X Creator Args E C).2) = true ->
     new = []).
Proof.
  unfold calculateConstraintSatisfaction_subst.
  assert (Hatom : forall E' C, exists new,
    Details (Sat (evaluateAtomicConstraint X
      (substitutingEvaluator X Creator Args) E' C).2) = Details (Sat C) ++ new /\
    (IsSatisfied (Sat (evaluateAtomicConstraint X
      (substitutingEvaluator X Creator Args) E' C).2) = true -> new = [])).
  { intros E' C.
    destruct (evaluateAtomicConstraint_subst_effect Creator Args E' C)
      as (new & evs & ? & ? & ? & ? & ?). eauto. }
  induction E as [Opc L IHL R IHR|E IH|E IH| |]; intros Hfree C; simpl; auto.
  destruct Opc; simpl in *; try discriminate; try apply Hatom.
  apply andb_true_iff in Hfree as [HfL HfR].
  destruct (IHL HfL C) as (n1 & HD1 & Hn1).
  destruct (calculateConstraintSatisfaction X _ L C) as [Failed C1].
  simpl in HD1, Hn1.
  destruct Failed; simpl; [eauto|].
  destruct (IsSatisfied (Sat C1)) eqn:Hsat; simpl; [|eauto].
  destruct (IHR HfR C1) as (n2 & HD2 & Hn2).
  exists n2. rewrite HD2, HD1, Hn1, app_nil_r; auto.
Qed.

Lemma CheckConstraintSatisfaction_exprs_orFree Creator Args Exprs :
  forallb orFree Exprs = true -> forall C,
  exists new,
    Details (Sat (CheckConstraintSatisfaction_exprs X Exprs Args Creator C).2)
      = Details (Sat C) ++ new /\
    (IsSatisfied
       (Sat (CheckConstraintSatisfaction_exprs X Exprs Args Creator C).2) = true ->
     new = []).
Proof.
  induction Exprs as [|E Exprs IH]; intros Hfree C; simpl.
  - exists []. rewrite app_nil_r. auto.
  - simpl in Hfree. apply andb_true_iff in Hfree as [HE HEs].
    destruct (calculateConstraintSatisfaction_subst_orFree Creator Args E HE C)
      as (n1 & HD1 & Hn1).
    destruct (calculateConstraintSatisfaction_subst X Creator Args E C)
      as [Failed C1].
    simpl in HD1, Hn1.
    destruct Failed; simpl; [eauto|].
    destruct (IsSatisfied (Sat C1)) eqn:Hsat; simpl; [|eauto].
    destruct (IH HEs C1) as (n2 & HD2 & Hn2).
    exists n2. rewrite HD2, HD1, Hn1, app_nil_r; auto.
Qed.

(** C1: when the left operand [A] of [A && B] is evaluated without hard
    failure and leaves the record unsatisfied, the evaluation of [A && B]
    returns at once with the context [A] produced: unsatisfied, and with no
    substitution or evaluation of [B] in the log.  The same holds for
    [A || B] when [A] leaves the record satisfied.  Detail entries are only
    appended, their clause expressions follow the order in which expressions
    were substituted, and that order is the source order of the atomic
    constraints. *)
Theorem short_circuit_and_detail_order Evaluator Creator Args A B C C1 :
  calculateConstraintSatisfaction X Evaluator A C = (false, C1) ->
  (IsSatisfied (Sat C1) = false ->
   calculateConstraintSatisfaction X Evaluator (BinaryOperator BO_LAnd A B) C
   = (false, C1)) /\
  (IsSatisfied (Sat C1) = true ->
   calculateConstraintSatisfaction X Evaluator (BinaryOperator BO_LOr A B) C
   = (false, C1)) /\
  (forall E C0, exists new evs,
     Details (Sat (calculateConstraintSatisfaction_subst X Creator Args E C0).2)
       = Details (Sat C0) ++ new /\
     Log (SemaSt (calculateConstraintSatisfaction_subst X Creator Args E C0).2)
       = Log (SemaSt C0) ++ evs /\
     sublist new.*1 (substitutedExprs evs) /\
     sublist (substitutedExprs evs) (atomicConstraints E)).
Proof.
  intros HA. split; [|split].
  - intros Hs. by apply calculateConstraintSatisfaction_LAnd_short.
  - intros Hs. by apply calculateConstraintSatisfaction_LOr_short.
  - intros E C0. apply calculateConstraintSatisfaction_subst_order.
Qed.

(** C2: for an atomic constraint expression whose frame is acquired and
    whose substitution leaves an error in the SFINAE trap, the evaluator
    returns without hard failure, sets [IsSatisfied] to false, appends one
    entry, the substitution diagnostic of this expression, and adds nothing
    to the log but the substitution itself: no diagnostic is issued and the
    out-flags are as before. *)
Theorem sfinae_failure_is_unsatisfied Creator Args E C :
  isAtomicConstraintExpr E = true ->
  Creator E = false ->
  TrapHasErrorOccurred (SubstExpr X E Args) = true ->
  exists C',
    calculateConstraintSatisfaction_subst X Creator Args E C = (false, C') /\
    IsSatisfied (Sat C') = false /\
    Details (Sat C') =
      Details (Sat C) ++
        [(E, DetailDiag (SFINAEDiagnostic (SubstExpr X E Args)))] /\
    Log (SemaSt C') = Log (SemaSt C) ++ [EvSubstExpr E Args] /\
    PackFlag C' = PackFlag C /\ DepFlag C' = DepFlag C.
Proof.
  intros Hatomic Hframe Htrap.
  unfold calculateConstraintSatisfaction_subst.
  rewrite calculateConstraintSatisfaction_atomic by exact Hatomic.
  unfold evaluateAtomicConstraint, substitutingEvaluator.
  rewrite Hframe, Htrap.
  destruct (SubstitutedExpression (SubstExpr X E Args));
    eexists; (split; [reflexivity|]); simpl; auto.
Qed.

(** When no [||] occurs among the connectives of the constraint
    expressions and the evaluation starts from a record without details, a
    record that comes back satisfied has no details. *)
Lemma satisfied_without_disjunction_has_no_details Creator Args Exprs C :
  forallb orFree Exprs = true ->
  Details (Sat C) = [] ->
  IsSatisfied
    (Sat (CheckConstraintSatisfaction_exprs X Exprs Args Creator C).2) = true ->
  Details (Sat (CheckConstraintSatisfaction_exprs X Exprs Args Creator C).2) = [].
Proof.
  intros Hfree Hempty Hsat.
  destruct (CheckConstraintSatisfaction_exprs_orFree Creator Args Exprs Hfree C)
    as (new & HD & Hnew).
  rewrite HD, Hempty, (Hnew Hsat). reflexivity.
Qed.

(** C10: with no constraint expressions the cached entry point reports
    success and a satisfied record, touches nothing else in the record, and
    returns the engine state it was given: the log has no cache lookup and
    the cache is the same. *)
Theorem CheckConstraintSatisfaction_no_constraints
  Owner Template Args Satisfaction S :
  exists Satisfaction',
    CheckConstraintSatisfaction X Owner Template [] Args Satisfaction S
    = (false, Satisfaction', S) /\
    IsSatisfied Satisfaction' = true /\
    Details Satisfaction' = Details Satisfaction /\
    Log (CheckConstraintSatisfaction X Owner Template [] Args Satisfaction S).2
    = Log S /\
    SatisfactionCache
      (CheckConstraintSatisfaction X Owner Template [] Args Satisfaction S).2
    = SatisfactionCache S.
Proof. eexists. repeat split; reflexivity. Qed.

(** A lookup that finds a record returns that record and only logs the
    lookup. *)
Lemma CheckConstraintSatisfaction_hit
  Owner Template E Exprs Args Satisfaction S Cached :
  SatisfactionCache S !! Profile X Owner (getInnermost Args) = Some Cached ->
  CheckConstraintSatisfaction X Owner Template (E :: Exprs) Args Satisfaction S
  = (false, Cached, emit (EvCacheFind (Profile X Owner (getInnermost Args))) S).
Proof. intros Hhit. unfold CheckConstraintSatisfaction. simpl. by rewrite Hhit. Qed.

(** After a call with constraints that succeeded, the cache holds the
    record the call returned. *)
Lemma CheckConstraintSatisfaction_cached
  Owner Template E Exprs Args Satisfaction S Satisfaction1 S1 :
  CheckConstraintSatisfaction X Owner Template (E :: Exprs) Args Satisfaction S
  = (false, Satisfaction1, S1) ->
  SatisfactionCache S1 !! Profile X Owner (getInnermost Args)
  = Some Satisfaction1.
Proof.
  unfold CheckConstraintSatisfaction.
  set (ID := Profile X Owner (getInnermost Args)). cbv beta iota zeta.
  change (SatisfactionCache (emit (EvCacheFind ID) S))
    with (SatisfactionCache S).
  destruct (SatisfactionCache S !! ID) as [Cached|] eqn:Hfind.
  - intros [= <- <-]. exact Hfind.
  - destruct (InstIsInvalid X ConstraintsCheck Template None); [discriminate|].
    destruct (CheckConstraintSatisfaction_exprs X (E :: Exprs) Args _ _)
      as [Failed C].
    destruct Failed; [discriminate|].
    intros [= <- <-]. simpl. apply lookup_insert_eq.
Qed.

(** C6: after a call that returned a record, a call with the same list of
    constraint expressions and a key of the same profile, made in any state
    whose cache still holds what the first call left under that key, returns
    the same record without hard failure; its only effect is the logged
    cache lookup, so nothing is substituted or evaluated again and the cache
    is not changed.  A record found in the cache is returned as it is
    stored. *)
Theorem CheckConstraintSatisfaction_repeated
  Owner Template Exprs Args Satisfaction S Satisfaction1 S1
  Owner' Template' Args' S2 :
  CheckConstraintSatisfaction X Owner Template Exprs Args Satisfaction S
  = (false, Satisfaction1, S1) ->
  Profile X Owner' (getInnermost Args') = Profile X Owner (getInnermost Args) ->
  SatisfactionCache S2 !! Profile X Owner (getInnermost Args)
  = SatisfactionCache S1 !! Profile X Owner (getInnermost Args) ->
  CheckConstraintSatisfaction X Owner' Template' Exprs Args' Satisfaction S2
  = (false, Satisfaction1,
     match Exprs with
     | [] => S2
     | _ => emit (EvCacheFind (Profile X Owner (getInnermost Args))) S2
     end) /\
  (forall E Rest Cached S0,
     SatisfactionCache S0 !! Profile X Owner (getInnermost Args) = Some Cached ->
     CheckConstraintSatisfaction X Owner Template (E :: Rest) Args Satisfaction S0
     = (false, Cached,
        emit (EvCacheFind (Profile X Owner (getInnermost Args))) S0)).
Proof.
  intros Hfirst Hkey Hsame. split.
  - destruct Exprs as [|E Exprs].
    + simpl in *. by injection Hfirst as <- _.
    + apply CheckConstraintSatisfaction_cached in Hfirst.
      rewrite Hfirst in Hsame. rewrite <- Hkey in *.
      by apply CheckConstraintSatisfaction_hit.
  - intros E Rest Cached S0 Hhit. by apply CheckConstraintSatisfaction_hit.
Qed.

(** ** Normal forms *)

Lemma pop_back_val_snoc {A : Type} (V : list A) (x : A) :
  pop_back_val (V ++ [x]) = Some (x, V).
Proof.
  induction V as [|y V IH]; simpl; [reflexivity|]. by rewrite IH.
Qed.

(** The draining loop appends the right vector back to front. *)
Lemma moveClauses_reverse {A : Type} (R : list A) : forall L fuel,
  length R <= fuel -> moveClauses fuel L R = L ++ reverse R.
Proof.
  induction R as [|x R IH] using rev_ind; intros L fuel Hfuel.
  - rewrite reverse_nil, app_nil_r. by destruct fuel.
  - rewrite length_app in Hfuel. simpl in Hfuel.
    destruct fuel as [|fuel]; [lia|].
    simpl. rewrite pop_back_val_snoc, IH by lia.
    by rewrite reverse_snoc, <- app_assoc.
Qed.

Lemma makeCNF_conjunction LHS RHS :
  makeCNF (Compound LHS RHS CCK_Conjunction)
  = makeCNF LHS ++ reverse (makeCNF RHS).
Proof. simpl. by apply moveClauses_reverse. Qed.

Lemma makeDNF_disjunction LHS RHS :
  makeDNF (Compound LHS RHS CCK_Disjunction)
  = makeDNF LHS ++ reverse (makeDNF RHS).
Proof. simpl. by apply moveClauses_reverse. Qed.

Lemma distribute_length (LNF RNF : NormalForm) :
  length (distribute LNF RNF) = length LNF * length RNF.
Proof.
  unfold distribute.
  induction LNF as [|l LNF IH]; simpl; [reflexivity|].
  by rewrite length_app, length_map, IH.
Qed.

Lemma distribute_lookup (LNF RNF : NormalForm) : forall i j l r,
  LNF !! i = Some l -> RNF !! j = Some r ->
  distribute LNF RNF !! (i * length RNF + j) = Some (l ++ r).
Proof.
  unfold distribute.
  induction LNF as [|l0 LNF IH]; intros i j l r Hl Hr.
  - discriminate.
  - simpl. destruct i as [|i]; simpl in *.
    + injection Hl as ->.
      rewrite lookup_app_l by (rewrite length_map; by eapply lookup_lt_Some).
      by rewrite list_lookup_fmap, Hr.
    + rewrite lookup_app_r by (rewrite length_map; lia).
      rewrite length_map.
      replace (length RNF + i * length RNF + j - length RNF)
        with (i * length RNF + j) by lia.
      by apply IH.
Qed.

Lemma elem_of_distribute (LNF RNF : NormalForm) (c : Clause) :
  c ∈ distribute LNF RNF <->
  exists l r, l ∈ LNF /\ r ∈ RNF /\ c = l ++ r.
Proof.
  unfold distribute. rewrite list_elem_of_In, in_concat. split.
  - intros (cs & Hcs & Hc). apply in_map_iff in Hcs as (l & <- & Hl).
    apply in_map_iff in Hc as (r & <- & Hr).
    exists l, r. by rewrite !list_elem_of_In.
  - intros (l & r & Hl & Hr & ->). rewrite list_elem_of_In in Hl, Hr.
    exists (map (fun RClause => l ++ RClause) RNF). split.
    + apply in_map_iff. eauto.
    + apply in_map_iff. eauto.
Qed.

(** C5 (as amended): when the kind matches the outer connective of the
    normal form, the result is the left side's normal form followed by the
    clauses of the right side's normal form in reverse order; otherwise it
    has one clause for every pair of a left and a right clause, the
    concatenation of the two, ordered by the left clause first. *)
Theorem normal_form_of_compound LHS RHS :
  makeCNF (Compound LHS RHS CCK_Conjunction)
    = makeCNF LHS ++ reverse (makeCNF RHS) /\
  makeDNF (Compound LHS RHS CCK_Disjunction)
    = makeDNF LHS ++ reverse (makeDNF RHS) /\
  (length (makeCNF (Compound LHS RHS CCK_Disjunction))
     = length (makeCNF LHS) * length (makeCNF RHS) /\
   forall i j l r,
     makeCNF LHS !! i = Some l -> makeCNF RHS !! j = Some r ->
     makeCNF (Compound LHS RHS CCK_Disjunction)
       !! (i * length (makeCNF RHS) + j) = Some (l ++ r)) /\
  (length (makeDNF (Compound LHS RHS CCK_Conjunction))
     = length (makeDNF LHS) * length (makeDNF RHS) /\
   forall i j l r,
     makeDNF LHS !! i = Some l -> makeDNF RHS !! j = Some r ->
     makeDNF (Compound LHS RHS CCK_Conjunction)
       !! (i * length (makeDNF RHS) + j) = Some (l ++ r)).
Proof.
  split; [apply makeCNF_conjunction|].
  split; [apply makeDNF_disjunction|].
  split; (split; [apply distribute_length|apply distribute_lookup]).
Qed.

(** The builders yield normal forms of the constraint: under every
    valuation of the atomic constraints the CNF and the DNF have the truth
    value of the constraint. *)
Lemma holdsCNF_app v (NF1 NF2 : NormalForm) :
  holdsCNF v (NF1 ++ NF2) = holdsCNF v NF1 && holdsCNF v NF2.
Proof. apply forallb_app. Qed.

Lemma holdsDNF_app v (NF1 NF2 : NormalForm) :
  holdsDNF v (NF1 ++ NF2) = holdsDNF v NF1 || holdsDNF v NF2.
Proof. apply existsb_app. Qed.

Lemma holdsCNF_reverse v (NF : NormalForm) :
  holdsCNF v (reverse NF) = holdsCNF v NF.
Proof.
  induction NF as [|c NF IH]; [reflexivity|].
  rewrite reverse_cons, holdsCNF_app, IH. simpl.
  rewrite andb_true_r. apply andb_comm.
Qed.

Lemma holdsDNF_reverse v (NF : NormalForm) :
  holdsDNF v (reverse NF) = holdsDNF v NF.
Proof.
  induction NF as [|c NF IH]; [reflexivity|].
  rewrite reverse_cons, holdsDNF_app, IH. simpl.
  rewrite orb_false_r. apply orb_comm.
Qed.

Lemma holdsCNF_distribute v (LNF RNF : NormalForm) :
  holdsCNF v (distribute LNF RNF) = holdsCNF v LNF || holdsCNF v RNF.
Proof.
  unfold distribute.
  induction LNF as [|l LNF IH]; simpl; [reflexivity|].
  rewrite holdsCNF_app, IH.
  assert (holdsCNF v (map (fun RClause => l ++ RClause) RNF)
          = existsb v l || holdsCNF v RNF) as ->.
  { clear IH. induction RNF as [|r RNF IHR]; simpl; [by rewrite orb_true_r|].
    rewrite IHR, existsb_app.
    destruct (existsb v l), (existsb v r); reflexivity. }
  destruct (existsb v l), (holdsCNF v RNF), (holdsCNF v LNF); reflexivity.
Qed.

Lemma holdsDNF_distribute v (LNF RNF : NormalForm) :
  holdsDNF v (distribute LNF RNF) = holdsDNF v LNF && holdsDNF v RNF.
Proof.
  unfold distribute.
  induction LNF as [|l LNF IH]; simpl; [reflexivity|].
  rewrite holdsDNF_app, IH.
  assert (holdsDNF v (map (fun RClause => l ++ RClause) RNF)
          = forallb v l && holdsDNF v RNF) as ->.
  { clear IH. induction RNF as [|r RNF IHR]; simpl; [by rewrite andb_false_r|].
    rewrite IHR, forallb_app.
    destruct (forallb v l), (forallb v r); reflexivity. }
  destruct (forallb v l), (holdsDNF v RNF), (holdsDNF v LNF); reflexivity.
Qed.

Lemma makeCNF_holds v N : holdsCNF v (makeCNF N) = holds v N.
Proof.
  induction N as [A|L IHL R IHR [|]].
  - simpl. by destruct (v A).
  - rewrite makeCNF_conjunction, holdsCNF_app, holdsCNF_reverse, IHL, IHR.
    reflexivity.
  - simpl. rewrite holdsCNF_distribute, IHL, IHR. reflexivity.
Qed.

Lemma makeDNF_holds v N : holdsDNF v (makeDNF N) = holds v N.
Proof.
  induction N as [A|L IHL R IHR [|]].
  - simpl. by destruct (v A).
  - simpl. rewrite holdsDNF_distribute, IHL, IHR. reflexivity.
  - rewrite makeDNF_disjunction, holdsDNF_app, holdsDNF_reverse, IHL, IHR.
    reflexivity.
Qed.

(** ** Subsumption *)

Lemma findInQj_spec E Pia (Qj : Clause) :
  findInQj E Pia Qj = true <-> exists Qjb, Qjb ∈ Qj /\ E Pia Qjb = true.
Proof.
  induction Qj as [|b Qj IH]; simpl.
  - split; [discriminate|]. intros (b & Hb & _). by apply elem_of_nil in Hb.
  - destruct (E Pia b) eqn:HE.
    + split; [|done]. intros _. exists b. split; [left|done].
    + rewrite IH. split.
      * intros (b' & Hb' & HE'). exists b'. split; [by right|done].
      * intros (b' & Hb' & HE'). apply elem_of_cons in Hb' as [->|Hb'].
        -- congruence.
        -- eauto.
Qed.

Lemma findInPi_spec E (Pi Qj : Clause) :
  findInPi E Pi Qj = true <->
  exists Pia Qjb, Pia ∈ Pi /\ Qjb ∈ Qj /\ E Pia Qjb = true.
Proof.
  induction Pi as [|a Pi IH]; simpl.
  - split; [discriminate|]. intros (a & b & Ha & _). by apply elem_of_nil in Ha.
  - destruct (findInQj E a Qj) eqn:Hfind.
    + split; [|done]. intros _.
      apply findInQj_spec in Hfind as (b & Hb & HE).
      exists a, b. split; [left|done].
    + rewrite IH. split.
      * intros (a' & b & Ha' & Hb & HE). exists a', b. split; [by right|done].
      * intros (a' & b & Ha' & Hb & HE).
        apply elem_of_cons in Ha' as [->|Ha'].
        -- assert (findInQj E a Qj = true) by (apply findInQj_spec; eauto).
           congruence.
        -- eauto.
Qed.

Lemma everyQj_spec E (Pi : Clause) (QCNF : NormalForm) :
  everyQj E Pi QCNF = true <->
  forall Qj, Qj ∈ QCNF -> findInPi E Pi Qj = true.
Proof.
  induction QCNF as [|Qj QCNF IH]; simpl.
  - split; [|done]. intros _ Qj HQj. by apply elem_of_nil in HQj.
  - destruct (findInPi E Pi Qj) eqn:Hfind.
    + rewrite IH. split.
      * intros Hall Qj' [->|HQj']%elem_of_cons; auto.
      * intros Hall Qj' HQj'. apply Hall. by right.
    + split; [discriminate|]. intros Hall.
      rewrite <- Hfind. apply Hall. left.
Qed.

Lemma everyPi_spec E (PDNF QCNF : NormalForm) :
  everyPi E PDNF QCNF = true <->
  forall Pi Qj, Pi ∈ PDNF -> Qj ∈ QCNF -> findInPi E Pi Qj = true.
Proof.
  induction PDNF as [|Pi PDNF IH]; simpl.
  - split; [|done]. intros _ Pi Qj HPi. by apply elem_of_nil in HPi.
  - destruct (everyQj E Pi QCNF) eqn:Hevery.
    + rewrite IH. split.
      * intros Hall Pi' Qj [->|HPi']%elem_of_cons HQj; [|by auto].
        by apply (proj1 (everyQj_spec E Pi QCNF)).
      * intros Hall Pi' Qj HPi' HQj. apply Hall; [by right|done].
    + split; [discriminate|]. intros Hall.
      rewrite <- Hevery. apply everyQj_spec. intros Qj HQj.
      apply Hall; [left|done].
Qed.


(** ** Normalization of a sequence *)

Lemma conjoinNext_all_normalized D M : forall Rest Ns Conjunction,
  Forall2 (fun E N => fromConstraintExpr X D E M = Ok (Some N)) Rest Ns ->
  conjoinNext X D M Conjunction Rest = Ok (Some (conjoinAll Conjunction Ns)).
Proof.
  induction Rest as [|E Rest IH]; intros Ns Conjunction HAll;
    inversion HAll as [|? N ? Ns' HE HRest]; subst; simpl.
  - reflexivity.
  - rewrite HE. simpl. by apply IH.
Qed.

(** When every clause has a normal form, the result is their
    left-associated conjunction. *)
Lemma fromConstraintExprs_all_normalized FD Scope D M E0 N0 Rest Ns :
  instantiatedLocals FD M = Ok Scope ->
  fromConstraintExpr X D E0 M = Ok (Some N0) ->
  Forall2 (fun E N => fromConstraintExpr X D E M = Ok (Some N)) Rest Ns ->
  fromConstraintExprs_cast X FD D (E0 :: Rest) M
  = Ok (Some (conjoinAll N0 Ns)).
Proof.
  intros HS H0 HAll. unfold fromConstraintExprs_cast. rewrite HS, H0. simpl.
  inversion HAll as [|E1 N1 Rest' Ns' H1 HRest]; subst; [reflexivity|].
  rewrite H1. simpl. by apply conjoinNext_all_normalized.
Qed.

Lemma conjoinNext_absent D M : forall Pre Ns Conjunction Absent Post,
  Forall2 (fun E N => fromConstraintExpr X D E M = Ok (Some N)) Pre Ns ->
  fromConstraintExpr X D Absent M = Ok None ->
  conjoinNext X D M Conjunction (Pre ++ Absent :: Post) = Ok None.
Proof.
  induction Pre as [|E Pre IH]; intros Ns Conjunction Absent Post HAll HAbs;
    inversion HAll as [|? N ? Ns' HE HRest]; subst; simpl.
  - by rewrite HAbs.
  - rewrite HE. simpl. by eapply IH.
Qed.

(** A clause after the first that has no normal form makes the whole
    sequence have none, when the clauses before it have one. *)
Lemma fromConstraintExprs_later_absent FD Scope D M E0 N0 Pre Ns Absent Post :
  instantiatedLocals FD M = Ok Scope ->
  fromConstraintExpr X D E0 M = Ok (Some N0) ->
  Forall2 (fun E N => fromConstraintExpr X D E M = Ok (Some N)) Pre Ns ->
  fromConstraintExpr X D Absent M = Ok None ->
  fromConstraintExprs_cast X FD D (E0 :: Pre ++ Absent :: Post) M = Ok None.
Proof.
  intros HS H0 HAll HAbs. unfold fromConstraintExprs_cast.
  rewrite HS, H0. simpl.
  inversion HAll as [|E1 N1 Pre' Ns' H1 HPre]; subst; simpl.
  - by rewrite HAbs.
  - rewrite H1. simpl. by eapply conjoinNext_absent.
Qed.

(** A first clause without a normal form, followed by a second clause that
    has one, reaches [*First] on an empty optional. *)
Lemma fromConstraintExprs_first_absent FD Scope D M E0 E1 N1 Rest :
  instantiatedLocals FD M = Ok Scope ->
  fromConstraintExpr X D E0 M = Ok None ->
  fromConstraintExpr X D E1 M = Ok (Some N1) ->
  fromConstraintExprs_cast X FD D (E0 :: E1 :: Rest) M
  = Undefined EmptyOptionalDereference.
Proof.
  intros HS H0 H1. unfold fromConstraintExprs_cast. rewrite HS, H0. simpl.
  rewrite H1. reflexivity.
Qed.

(** ** The subsumption cache *)

Lemma isEmpty_false {A : Type} (l : list A) : l <> [] -> isEmpty l = false.
Proof. by destruct l. Qed.

(** The cached entry point never changes an entry that is present. *)
Lemma IsAtLeastAsConstrained_keeps_entries D1 AC1 D2 AC2 Invalid S r Key b :
  IsAtLeastAsConstrained X D1 AC1 D2 AC2 Invalid S = Ok r ->
  SubsumptionCache S !! Key = Some b ->
  SubsumptionCache r.2 !! Key = Some b.
Proof.
  unfold IsAtLeastAsConstrained. intros Hcall HKey.
  destruct (isEmpty AC1); [by injection Hcall as <-|].
  destruct (isEmpty AC2); [by injection Hcall as <-|].
  destruct (SubsumptionCache S !! (D1, D2)) as [c|] eqn:Hfind;
    [by injection Hcall as <-|].
  destruct (IsAtLeastAsConstrained_MLTAL X _ _ _ _ _ _ _) as [[sub inv]|f];
    simpl in Hcall; [|discriminate].
  injection Hcall as <-. simpl. unfold try_emplace. rewrite Hfind. simpl.
  destruct (decide (Key = (D1, D2))) as [->|Hne]; [congruence|].
  by rewrite lookup_insert_ne.
Qed.

(** C9: take a call with non-empty [AC1] and [AC2] and a supplied [Invalid]
    that misses the cache, in which the normalization of one side yields no
    normal form.  It returns false with [Invalid] set to true, and stores
    false under the pair [(D1, D2)].  In every state that holds this entry, a
    call for the same pair with non-empty constraint lists returns false
    with [Invalid] set to false and leaves the state as it is. *)
Theorem failed_comparison_is_cached D1 AC1 D2 AC2 Invalid S :
  AC1 <> [] -> AC2 <> [] ->
  SubsumptionCache S !! (D1, D2) = None ->
  (fromConstraintExprs X D1 AC1 (getTemplateInstantiationArgs X D1) = Ok None \/
   (exists N1, fromConstraintExprs X D1 AC1 (getTemplateInstantiationArgs X D1)
               = Ok (Some N1)) /\
   fromConstraintExprs X D2 AC2 (getTemplateInstantiationArgs X D2) = Ok None) ->
  exists S1,
    IsAtLeastAsConstrained X D1 AC1 D2 AC2 (Some Invalid) S
    = Ok (false, Some true, S1) /\
    SubsumptionCache S1 !! (D1, D2) = Some false /\
    forall AC1' AC2' Invalid' S2,
      AC1' <> [] -> AC2' <> [] ->
      SubsumptionCache S2 !! (D1, D2) = SubsumptionCache S1 !! (D1, D2) ->
      IsAtLeastAsConstrained X D1 AC1' D2 AC2' (Some Invalid') S2
      = Ok (false, Some false, S2).
Proof.
  intros HAC1 HAC2 Hmiss Hnorm.
  assert (Hinner :
    IsAtLeastAsConstrained_MLTAL X D1 AC1 (getTemplateInstantiationArgs X D1)
      D2 AC2 (getTemplateInstantiationArgs X D2) (setFlag false (Some Invalid))
    = Ok (false, Some true)).
  { unfold IsAtLeastAsConstrained_MLTAL.
    rewrite (isEmpty_false _ HAC1), (isEmpty_false _ HAC2).
    destruct Hnorm as [-> | [[N1 ->] ->]]; reflexivity. }
  exists (try_emplace (D1, D2) false S).
  assert (Hstored :
    SubsumptionCache (try_emplace (D1, D2) false S) !! (D1, D2) = Some false).
  { unfold try_emplace. rewrite Hmiss. simpl. apply lookup_insert_eq. }
  split; [|split].
  - unfold IsAtLeastAsConstrained.
    rewrite (isEmpty_false _ HAC1), (isEmpty_false _ HAC2), Hmiss, Hinner.
    reflexivity.
  - exact Hstored.
  - intros AC1' AC2' Invalid' S2 HAC1' HAC2' Hsame.
    unfold IsAtLeastAsConstrained.
    rewrite (isEmpty_false _ HAC1'), (isEmpty_false _ HAC2'), Hsame, Hstored.
    reflexivity.
Qed.

End Properties.

(** C8: a call with [Culprit] supplied on [OtherExpr 3 && OtherExpr 0],
    whose left operand is a non-dependent atomic constraint of type [int],
    returns false and issues one error at [OtherExpr 3], and the target of
    the out-pointer still holds what it held before the call. *)
Theorem CheckConstraintExpression_nested_culprit_not_reported :
  CheckConstraintExpression demo
    (BinaryOperator BO_LAnd (OtherExpr 3) (OtherExpr 0)) (Some None) emptySema
  = (false, Some None,
     mkSema [EvDiag (OtherExpr 3) err_non_bool_atomic_constraint] ∅ ∅)
  /\ CheckConstraintExpression demo (OtherExpr 3) (Some None) emptySema
  = (false, Some (Some (OtherExpr 3)),
     mkSema [EvDiag (OtherExpr 3) err_non_bool_atomic_constraint] ∅ ∅).
Proof. split; reflexivity. Qed.

(** ** Concrete runs *)

(** [OtherExpr 1 && OtherExpr 0] stops after the left operand, and so does
    [OtherExpr 0 || OtherExpr 1]: the log holds the substitution and the
    evaluation of the left operand only. *)
Lemma short_circuit_witness :
  calculateConstraintSatisfaction demo
    (substitutingEvaluator demo (fun _ => false) [[]])
    (BinaryOperator BO_LAnd (OtherExpr 1) (OtherExpr 0)) freshCtx
  = (false,
     mkCtx
       (mkSatisfaction None [] false [(OtherExpr 1, DetailExpr (OtherExpr 1))])
       None None
       (mkSema [EvSubstExpr (OtherExpr 1) [[]]; EvEvaluateAsRValue (OtherExpr 1)]
          ∅ ∅)) /\
  calculateConstraintSatisfaction demo
    (substitutingEvaluator demo (fun _ => false) [[]])
    (BinaryOperator BO_LOr (OtherExpr 0) (OtherExpr 1)) freshCtx
  = (false,
     mkCtx (mkSatisfaction None [] true []) None None
       (mkSema [EvSubstExpr (OtherExpr 0) [[]]; EvEvaluateAsRValue (OtherExpr 0)]
          ∅ ∅)).
Proof.
  split.
  - exact (proj1
      (short_circuit_and_detail_order demo
         (substitutingEvaluator demo (fun _ => false) [[]])
         (fun _ => false) [[]] (OtherExpr 1) (OtherExpr 0) freshCtx _ eq_refl)
      eq_refl).
  - exact (proj1 (proj2
      (short_circuit_and_detail_order demo
         (substitutingEvaluator demo (fun _ => false) [[]])
         (fun _ => false) [[]] (OtherExpr 0) (OtherExpr 1) freshCtx _ eq_refl))
      eq_refl).
Defined.

(** Substitution into [OtherExpr 2] fails under the trap. *)
Lemma sfinae_failure_witness :
  exists C',
    calculateConstraintSatisfaction_subst demo (fun _ => false) [[]]
      (OtherExpr 2) freshCtx = (false, C') /\
    IsSatisfied (Sat C') = false /\
    Details (Sat C') = [(OtherExpr 2, DetailDiag 7)] /\
    Log (SemaSt C') = [EvSubstExpr (OtherExpr 2) [[]]] /\
    PackFlag C' = None /\ DepFlag C' = None.
Proof.
  exact (sfinae_failure_is_unsatisfied demo (fun _ => false) [[]]
           (OtherExpr 2) freshCtx eq_refl eq_refl eq_refl).
Defined.

(** C7 as stated does not hold: [OtherExpr 1 || OtherExpr 0], whose left
    operand is false and whose right operand is true, comes back satisfied
    with the entry of the left operand in its details. *)
Lemma satisfied_record_with_details :
  (CheckConstraintSatisfaction demo 0 0
     [BinaryOperator BO_LOr (OtherExpr 1) (OtherExpr 0)] [[5]]
     emptySatisfaction emptySema).1
  = (false,
     mkSatisfaction (Some 0) [5] true
       [(OtherExpr 1, DetailExpr (OtherExpr 1))]) /\
  (CheckConstraintSatisfaction_expr demo
     (BinaryOperator BO_LOr (OtherExpr 1) (OtherExpr 0))
     emptySatisfaction emptySema).1
  = (false,
     mkSatisfaction None [] true [(OtherExpr 1, DetailExpr (OtherExpr 1))]).
Proof. split; reflexivity. Qed.

(** A second check of the same owner and innermost arguments, from another
    template and with another outer level, finds the record of the first. *)
Lemma repeated_check_witness :
  exists Satisfaction1 S1,
    CheckConstraintSatisfaction demo 0 0 [OtherExpr 1] [[5]]
      emptySatisfaction emptySema = (false, Satisfaction1, S1) /\
    Details Satisfaction1 = [(OtherExpr 1, DetailExpr (OtherExpr 1))] /\
    CheckConstraintSatisfaction demo 0 7 [OtherExpr 1] [[5]; [9]]
      emptySatisfaction S1
    = (false, Satisfaction1, emit (EvCacheFind [0; 5]) S1).
Proof.
  eexists _, _. split; [reflexivity|]. split; [reflexivity|].
  exact (proj1
    (CheckConstraintSatisfaction_repeated demo 0 0 [OtherExpr 1] [[5]]
       emptySatisfaction emptySema _ _ 0 7 [[5]; [9]] _
       eq_refl eq_refl eq_refl)).
Defined.

(** C5 as stated does not hold: for [a && (b && c)] the CNF is
    [[a]; [c]; [b]], while the CNF of the left side followed by the CNF of
    the right side is [[a]; [b]; [c]]; likewise for the DNF of
    [a || (b || c)]. *)
Lemma right_clauses_are_reversed :
  makeCNF (Compound (Atomic atomA)
             (Compound (Atomic atomB) (Atomic atomC) CCK_Conjunction)
             CCK_Conjunction)
  = [[atomA]; [atomC]; [atomB]] /\
  makeCNF (Atomic atomA)
    ++ makeCNF (Compound (Atomic atomB) (Atomic atomC) CCK_Conjunction)
  = [[atomA]; [atomB]; [atomC]] /\
  makeDNF (Compound (Atomic atomA)
             (Compound (Atomic atomB) (Atomic atomC) CCK_Disjunction)
             CCK_Disjunction)
  = [[atomA]; [atomC]; [atomB]] /\
  makeDNF (Atomic atomA)
    ++ makeDNF (Compound (Atomic atomB) (Atomic atomC) CCK_Disjunction)
  = [[atomA]; [atomB]; [atomC]].
Proof. repeat split; reflexivity. Qed.

(** C4: the first clause has no normal form and the second has one; the
    sequence does not normalize to [None] but dereferences the empty
    optional. *)
Theorem fromConstraintExprs_dereferences_absent_first :
  fromConstraintExpr demo 0 illFormedCSE [] = Ok None /\
  fromConstraintExpr demo 0 (OtherExpr 0) [] = Ok (Some (Atomic atomA)) /\
  fromConstraintExprs demo 0 [illFormedCSE; OtherExpr 0] []
  = Undefined EmptyOptionalDereference /\
  fromConstraintExprs demo 0 [OtherExpr 0; illFormedCSE] [] = Ok None.
Proof. repeat split; reflexivity. Qed.

(** A comparison whose first side has no normal form is stored as false,
    and the next call for the pair reports false without [Invalid]. *)
Lemma failed_comparison_witness :
  exists S1,
    IsAtLeastAsConstrained demo 1 [illFormedCSE] 2 [OtherExpr 0] (Some false)
      emptySema = Ok (false, Some true, S1) /\
    SubsumptionCache S1 !! (1, 2) = Some false /\
    IsAtLeastAsConstrained demo 1 [illFormedCSE] 2 [OtherExpr 0] (Some true) S1
    = Ok (false, Some false, S1).
Proof.
  destruct (failed_comparison_is_cached demo 1 [illFormedCSE] 2 [OtherExpr 0]
              false emptySema ltac:(discriminate) ltac:(discriminate)
              eq_refl (or_introl eq_refl))
    as (S1 & Hcall & Hstored & Hnext).
  exists S1. split; [exact Hcall|]. split; [exact Hstored|].
  apply Hnext; [discriminate|discriminate|reflexivity].
Defined.

(** [a && b] subsumes [a || b] but not the other way round. *)
Example subsumes_examples :
  subsumes (Compound (Atomic atomA) (Atomic atomB) CCK_Conjunction)
    (Compound (Atomic atomA) (Atomic atomB) CCK_Disjunction)
    (AtomicSubsumes demo) = (false, true) /\
  subsumes (Compound (Atomic atomA) (Atomic atomB) CCK_Disjunction)
    (Compound (Atomic atomA) (Atomic atomB) CCK_Conjunction)
    (AtomicSubsumes demo) = (false, false).
Proof. split; reflexivity. Qed.

(** * Further properties *)

Section Evaluation.

Variable X : Collaborators.

(** ** Well-formedness checker *)

(** X1: the checker answers true exactly when no atomic sub-expression of
    the [&&]/[||] tree is a non-dependent non-[bool] one; it logs nothing
    but one error at the first such sub-expression in source order, if
    there is one, and it leaves both caches alone. *)
Theorem CheckConstraintExpression_first_offender E Culprit S :
  ((CheckConstraintExpression X E Culprit S).1.1 = true <->
   Forall (fun A => isNonBoolAtomic X A = false) (checkedAtoms E)) /\
  Log (CheckConstraintExpression X E Culprit S).2 =
    Log S ++
    match List.find (isNonBoolAtomic X) (checkedAtoms E) with
    | Some A => [EvDiag A err_non_bool_atomic_constraint]
    | None => []
    end /\
  SatisfactionCache (CheckConstraintExpression X E Culprit S).2
    = SatisfactionCache S /\
  SubsumptionCache (CheckConstraintExpression X E Culprit S).2
    = SubsumptionCache S.
Proof.
  destruct (CheckConstraintExpression_result X E Culprit S) as [c ->]. simpl.
  split; [|split].
  - rewrite forallb_forall, Forall_forall. split.
    + intros H A HA. apply list_elem_of_In in HA. specialize (H A HA).
      by destruct (isNonBoolAtomic X A).
    + intros H A HA. apply list_elem_of_In in HA. by rewrite (H A HA).
  - destruct (List.find _ _); simpl; [reflexivity|by rewrite app_nil_r].
  - by destruct (List.find _ _).
Qed.

(** ** The verdict of an evaluation *)

Lemma calculateConstraintSatisfaction_verdict Evaluator atomic :
  (forall A C,
     match atomic A with
     | None => (evaluateAtomicConstraint X Evaluator A C).1 = true
     | Some b =>
         (evaluateAtomicConstraint X Evaluator A C).1 = false /\
         IsSatisfied (Sat (evaluateAtomicConstraint X Evaluator A C).2) = b
     end) ->
  forall E C,
    match verdict atomic E with
    | None => (calculateConstraintSatisfaction X Evaluator E C).1 = true
    | Some b =>
        (calculateConstraintSatisfaction X Evaluator E C).1 = false /\
        IsSatisfied (Sat (calculateConstraintSatisfaction X Evaluator E C).2) = b
    end.
Proof.
  intros Hatomic.
  induction E as [Opc L IHL R IHR|E IH|E IH| |]; intros C; simpl;
    try apply Hatomic; try apply IH.
  destruct Opc; simpl; try apply (Hatomic (BinaryOperator _ L R)).
  - specialize (IHL C).
    destruct (calculateConstraintSatisfaction X Evaluator L C) as [F C1].
    destruct (verdict atomic L) as [[|]|]; simpl in *.
    + destruct IHL as [-> Hs]. rewrite Hs. simpl. exact (IHR C1).
    + destruct IHL as [-> Hs]. rewrite Hs. simpl. auto.
    + by rewrite IHL.
  - specialize (IHL C).
    destruct (calculateConstraintSatisfaction X Evaluator L C) as [F C1].
    destruct (verdict atomic L) as [[|]|]; simpl in *.
    + destruct IHL as [-> Hs]. rewrite Hs. simpl. auto.
    + destruct IHL as [-> Hs]. rewrite Hs. simpl. exact (IHR C1).
    + by rewrite IHL.
Qed.

Lemma substitutingEvaluator_verdict Creator Args A C :
  match atomicVerdict X Creator Args A with
  | None =>
      (evaluateAtomicConstraint X (substitutingEvaluator X Creator Args) A C).1
      = true
  | Some b =>
      (evaluateAtomicConstraint X (substitutingEvaluator X Creator Args) A C).1
      = false /\
      IsSatisfied
        (Sat (evaluateAtomicConstraint X
                (substitutingEvaluator X Creator Args) A C).2) = b
  end.
Proof.
  unfold atomicVerdict, evaluateAtomicConstraint, substitutingEvaluator.
  destruct (Creator A); [reflexivity|].
  destruct (TrapHasErrorOccurred (SubstExpr X A Args)),
    (SubstitutedExpression (SubstExpr X A Args)) as [SE|]; simpl; auto.
  destruct (isInstantiationDependent X SE); simpl; auto.
  destruct (CheckConstraintExpression_result X SE Culprit_default
              (emit (EvSubstExpr A Args) (SemaSt C))) as [c ->].
  destruct (forallb _ (checkedAtoms SE)); simpl; [|reflexivity].
  destruct (EvaluateAsRValue X SE) as [notes|[|]]; simpl; auto.
Qed.

(** X2: whether an evaluation with substitution fails hard, and the value
    [IsSatisfied] is left with when it does not, are those of the
    short-circuit conjunction and disjunction over the verdicts of the
    atomic constraints; they depend neither on the incoming record and
    flags nor on the engine state. *)
Theorem evaluation_follows_verdict Creator Args E C :
  match verdict (atomicVerdict X Creator Args) E with
  | None =>
      (calculateConstraintSatisfaction_subst X Creator Args E C).1 = true
  | Some b =>
      (calculateConstraintSatisfaction_subst X Creator Args E C).1 = false /\
      IsSatisfied
        (Sat (calculateConstraintSatisfaction_subst X Creator Args E C).2) = b
  end.
Proof.
  apply calculateConstraintSatisfaction_verdict.
  apply substitutingEvaluator_verdict.
Qed.

(** X3: the overload without substitution fails hard exactly when the
    short-circuit evaluation meets an atomic constraint that is not a
    constant expression, and otherwise leaves [IsSatisfied] at the truth
    value of the expression, with [&&] and [||] read as conjunction and
    disjunction of the constants. *)
Theorem CheckConstraintSatisfaction_expr_truth_value E Satisfaction S :
  match verdict (constantVerdict X) E with
  | None => (CheckConstraintSatisfaction_expr X E Satisfaction S).1.1 = true
  | Some b =>
      (CheckConstraintSatisfaction_expr X E Satisfaction S).1.1 = false /\
      IsSatisfied (CheckConstraintSatisfaction_expr X E Satisfaction S).1.2 = b
  end.
Proof.
  unfold CheckConstraintSatisfaction_expr.
  pose proof (calculateConstraintSatisfaction_verdict
    (fun AtomicExpr C => (ExprUsable AtomicExpr, C)) (constantVerdict X)) as H.
  assert (Hatomic : forall A C,
     match constantVerdict X A with
     | None => (evaluateAtomicConstraint X
                  (fun AtomicExpr C => (ExprUsable AtomicExpr, C)) A C).1 = true
     | Some b =>
         (evaluateAtomicConstraint X
            (fun AtomicExpr C => (ExprUsable AtomicExpr, C)) A C).1 = false /\
         IsSatisfied (Sat (evaluateAtomicConstraint X
            (fun AtomicExpr C => (ExprUsable AtomicExpr, C)) A C).2) = b
     end).
  { intros A C. unfold constantVerdict, evaluateAtomicConstraint.
    destruct (EvaluateAsRValue X A) as [notes|[|]]; simpl; auto. }
  specialize (H Hatomic E (mkCtx Satisfaction None None S)).
  destruct (calculateConstraintSatisfaction X _ E _) as [F C].
  exact H.
Qed.

(** ** What an evaluation leaves alone *)

Lemma flagGrows_refl F : flagGrows F F.
Proof. destruct F; simpl; auto. Qed.

Lemma flagGrows_trans F1 F2 F3 :
  flagGrows F1 F2 -> flagGrows F2 F3 -> flagGrows F1 F3.
Proof. destruct F1, F2, F3; simpl; auto; contradiction. Qed.

Lemma flagGrows_orFlag b F : flagGrows F (orFlag b F).
Proof. destruct F as [[|]|]; simpl; auto; discriminate. Qed.

Lemma flagGrows_setFlag F : flagGrows F (setFlag true F).
Proof. destruct F; simpl; auto. Qed.

Lemma ctxFrame_refl C : ctxFrame C C.
Proof. unfold ctxFrame. auto 10 using flagGrows_refl. Qed.

Lemma ctxFrame_trans C1 C2 C3 :
  ctxFrame C1 C2 -> ctxFrame C2 C3 -> ctxFrame C1 C3.
Proof.
  unfold ctxFrame.
  intros (H1 & H2 & H3 & H4 & H5 & H6) (G1 & G2 & G3 & G4 & G5 & G6).
  repeat split; try congruence; eauto using flagGrows_trans.
Qed.

Lemma evaluateAtomicConstraint_subst_frame Creator Args A C :
  ctxFrame C
    (evaluateAtomicConstraint X (substitutingEvaluator X Creator Args) A C).2.
Proof.
  unfold evaluateAtomicConstraint, substitutingEvaluator.
  destruct (Creator A); [apply ctxFrame_refl|].
  destruct (SubstitutedExpression (SubstExpr X A Args)) as [SE|],
    (TrapHasErrorOccurred (SubstExpr X A Args)); simpl;
    try (unfold ctxFrame; simpl; auto 10 using flagGrows_refl).
  destruct (isInstantiationDependent X SE); simpl.
  { repeat split; auto using flagGrows_refl, flagGrows_orFlag,
      flagGrows_setFlag. }
  destruct (CheckConstraintExpression_state X SE Culprit_default
              (emit (EvSubstExpr A Args) (SemaSt C)))
    as (evs & _ & _ & Hc1 & Hc2).
  destruct (CheckConstraintExpression X SE Culprit_default
              (emit (EvSubstExpr A Args) (SemaSt C))) as [[ok c] S'].
  simpl in Hc1, Hc2.
  destruct ok; simpl;
    [destruct (EvaluateAsRValue X SE) as [notes|[|]]; simpl|];
    repeat split; simpl; auto using flagGrows_refl, flagGrows_orFlag.
Qed.

Lemma calculateConstraintSatisfaction_subst_frame Creator Args E : forall C,
  ctxFrame C (calculateConstraintSatisfaction_subst X Creator Args E C).2.
Proof.
  unfold calculateConstraintSatisfaction_subst.
  induction E as [Opc L IHL R IHR|E IH|E IH| |]; intros C; simpl;
    try apply evaluateAtomicConstraint_subst_frame; auto.
  destruct (isLogicalOp Opc);
    [|apply evaluateAtomicConstraint_subst_frame].
  specialize (IHL C).
  destruct (calculateConstraintSatisfaction X _ L C) as [F C1]. simpl in IHL.
  destruct F; simpl; [exact IHL|].
  destruct Opc, (IsSatisfied (Sat C1)); simpl;
    eauto using ctxFrame_trans.
Qed.

Lemma CheckConstraintSatisfaction_exprs_frame Creator Args Exprs : forall C,
  ctxFrame C (CheckConstraintSatisfaction_exprs X Exprs Args Creator C).2.
Proof.
  induction Exprs as [|E Exprs IH]; intros C; simpl; [apply ctxFrame_refl|].
  pose proof (calculateConstraintSatisfaction_subst_frame Creator Args E C) as HE.
  destruct (calculateConstraintSatisfaction_subst X Creator Args E C) as [F C1].
  simpl in HE.
  destruct F; simpl; [exact HE|].
  destruct (IsSatisfied (Sat C1)); simpl; eauto using ctxFrame_trans.
Qed.

(** X4: checking a list of constraint expressions changes neither the
    owner nor the template arguments recorded in the satisfaction record it
    fills.  The two out-flags are only ever raised: a flag that is true
    before the check is true after it, and a flag whose pointer is null
    stays without a target. *)
Theorem evaluation_frame Creator Args Exprs C :
  ConstraintOwner
    (Sat (CheckConstraintSatisfaction_exprs X Exprs Args Creator C).2)
    = ConstraintOwner (Sat C) /\
  SatTemplateArgs
    (Sat (CheckConstraintSatisfaction_exprs X Exprs Args Creator C).2)
    = SatTemplateArgs (Sat C) /\
  flagGrows (PackFlag C)
    (PackFlag (CheckConstraintSatisfaction_exprs X Exprs Args Creator C).2) /\
  flagGrows (DepFlag C)
    (DepFlag (CheckConstraintSatisfaction_exprs X Exprs Args Creator C).2).
Proof.
  destruct (CheckConstraintSatisfaction_exprs_frame Creator Args Exprs C)
    as (H1 & H2 & H3 & H4 & H5 & H6). auto 10.
Qed.

(** ** A list of constraints is their conjunction *)

Lemma CheckConstraintSatisfaction_exprs_single Creator Args E C :
  CheckConstraintSatisfaction_exprs X [E] Args Creator C
  = calculateConstraintSatisfaction_subst X Creator Args E C.
Proof.
  simpl. destruct (calculateConstraintSatisfaction_subst X Creator Args E C)
    as [[|] C1]; [reflexivity|].
  by destruct (IsSatisfied (Sat C1)).
Qed.

Lemma CheckConstraintSatisfaction_exprs_conjunction Creator Args Rest :
  forall E C,
  CheckConstraintSatisfaction_exprs X (E :: Rest) Args Creator C
  = calculateConstraintSatisfaction_subst X Creator Args
      (conjunctionOf E Rest) C.
Proof.
  induction Rest as [|E2 Rest IH]; intros E C.
  - apply CheckConstraintSatisfaction_exprs_single.
  - unfold conjunctionOf. simpl fold_left.
    change (fold_left _ Rest (BinaryOperator BO_LAnd E E2))
      with (conjunctionOf (BinaryOperator BO_LAnd E E2) Rest).
    rewrite <- IH.
    change (CheckConstraintSatisfaction_exprs X (E :: E2 :: Rest) Args Creator C)
      with (let '(Failed, C1) :=
              calculateConstraintSatisfaction_subst X Creator Args E C in
            if Failed then (true, C1)
            else if negb (IsSatisfied (Sat C1)) then (false, C1)
            else CheckConstraintSatisfaction_exprs X (E2 :: Rest) Args Creator C1).
    change (CheckConstraintSatisfaction_exprs X
              (BinaryOperator BO_LAnd E E2 :: Rest) Args Creator C)
      with (let '(Failed, C1) :=
              calculateConstraintSatisfaction_subst X Creator Args
                (BinaryOperator BO_LAnd E E2) C in
            if Failed then (true, C1)
            else if negb (IsSatisfied (Sat C1)) then (false, C1)
            else CheckConstraintSatisfaction_exprs X Rest Args Creator C1).
    unfold calculateConstraintSatisfaction_subst at 2. simpl.
    fold (calculateConstraintSatisfaction_subst X Creator Args E C).
    destruct (calculateConstraintSatisfaction_subst X Creator Args E C)
      as [[|] C1]; [reflexivity|].
    destruct (IsSatisfied (Sat C1)) eqn:Hs; simpl; [|by rewrite Hs].
    fold (calculateConstraintSatisfaction_subst X Creator Args E2 C1).
    reflexivity.
Qed.

(** ** Where the out-flags come from *)

Lemma evaluateAtomicConstraint_subst_flags Creator Args A C :
  (DepFlag (evaluateAtomicConstraint X
              (substitutingEvaluator X Creator Args) A C).2 = DepFlag C \/
   dependentAtom X Args A) /\
  (PackFlag (evaluateAtomicConstraint X
               (substitutingEvaluator X Creator Args) A C).2 = PackFlag C \/
   packAtom X Args A).
Proof.
  unfold evaluateAtomicConstraint, substitutingEvaluator, dependentAtom,
    packAtom.
  destruct (Creator A); [auto|].
  destruct (SubstitutedExpression (SubstExpr X A Args)) as [SE|],
    (TrapHasErrorOccurred (SubstExpr X A Args)); simpl; auto.
  assert (HP : orFlag (containsUnexpandedParameterPack X SE) (PackFlag C)
               = PackFlag C \/
               exists SE0, Some SE = Some SE0 /\
                           containsUnexpandedParameterPack X SE0 = true).
  { destruct (containsUnexpandedParameterPack X SE) eqn:Hp; [eauto|].
    left. destruct (PackFlag C) as [b|]; simpl; [|reflexivity].
    by rewrite orb_false_r. }
  destruct (isInstantiationDependent X SE) eqn:Hd; simpl; [eauto|].
  destruct (CheckConstraintExpression X SE Culprit_default _) as [[ok c] S'].
  destruct ok; simpl;
    [destruct (EvaluateAsRValue X SE) as [notes|[|]]; simpl|]; auto.
Qed.

Lemma calculateConstraintSatisfaction_subst_flags Creator Args E : forall C,
  (DepFlag (calculateConstraintSatisfaction_subst X Creator Args E C).2
     = DepFlag C \/
   exists A, A ∈ atomicConstraints E /\ dependentAtom X Args A) /\
  (PackFlag (calculateConstraintSatisfaction_subst X Creator Args E C).2
     = PackFlag C \/
   exists A, A ∈ atomicConstraints E /\ packAtom X Args A).
Proof.
  unfold calculateConstraintSatisfaction_subst.
  assert (Hatom : forall A C,
    (DepFlag (evaluateAtomicConstraint X
                (substitutingEvaluator X Creator Args) A C).2 = DepFlag C \/
     exists A', A' ∈ [A] /\ dependentAtom X Args A') /\
    (PackFlag (evaluateAtomicConstraint X
                 (substitutingEvaluator X Creator Args) A C).2 = PackFlag C \/
     exists A', A' ∈ [A] /\ packAtom X Args A')).
  { intros A C.
    destruct (evaluateAtomicConstraint_subst_flags Creator Args A C)
      as [[?|?] [?|?]]; split; auto;
      right; exists A; split; auto; by apply list_elem_of_singleton. }
  induction E as [Opc L IHL R IHR|E IH|E IH| |]; intros C; simpl; auto.
  destruct (isLogicalOp Opc); [|apply Hatom].
  destruct (IHL C) as [HLd HLp].
  destruct (calculateConstraintSatisfaction X _ L C) as [F C1].
  simpl in HLd, HLp.
  assert (Hstop :
    (DepFlag C1 = DepFlag C \/
     exists A, A ∈ atomicConstraints L ++ atomicConstraints R /\
               dependentAtom X Args A) /\
    (PackFlag C1 = PackFlag C \/
     exists A, A ∈ atomicConstraints L ++ atomicConstraints R /\
               packAtom X Args A)).
  { split.
    - destruct HLd as [?|(A & HA & ?)]; [auto|].
      right. exists A. split; [apply elem_of_app|]; auto.
    - destruct HLp as [?|(A & HA & ?)]; [auto|].
      right. exists A. split; [apply elem_of_app|]; auto. }
  assert (Hgo :
    (DepFlag (calculateConstraintSatisfaction X
       (substitutingEvaluator X Creator Args) R C1).2 = DepFlag C \/
     exists A, A ∈ atomicConstraints L ++ atomicConstraints R /\
               dependentAtom X Args A) /\
    (PackFlag (calculateConstraintSatisfaction X
       (substitutingEvaluator X Creator Args) R C1).2 = PackFlag C \/
     exists A, A ∈ atomicConstraints L ++ atomicConstraints R /\
               packAtom X Args A)).
  { destruct (IHR C1) as [HRd HRp]. destruct Hstop as [Hsd Hsp]. split.
    - destruct HRd as [HRd|(A & HA & ?)].
      + destruct Hsd as [Hsd|?]; [left; congruence|auto].
      + right. exists A. split; [apply elem_of_app|]; auto.
    - destruct HRp as [HRp|(A & HA & ?)].
      + destruct Hsp as [Hsp|?]; [left; congruence|auto].
      + right. exists A. split; [apply elem_of_app|]; auto. }
  destruct F; simpl; [exact Hstop|].
  destruct Opc, (IsSatisfied (Sat C1)); simpl; auto.
Qed.

(** X5: the overload for a nested requirement.  When its frame cannot be
    acquired it reports a hard failure with both flags false and touches
    neither the record nor the engine state.  It reports [IsDependent] only
    if the substituted expression of some atomic constraint of the
    expression is instantiation-dependent, and
    [ContainsUnexpandedParameterPack] only if some substituted atomic
    constraint contains an unexpanded pack. *)
Theorem nested_check_flags Req E Args Satisfaction S :
  (InstIsInvalid X NestedRequirementConstraintsCheck Req (Some E) = true ->
   CheckConstraintSatisfaction_nested X Req E Args Satisfaction S
   = (true, Satisfaction, false, false, S)) /\
  ((CheckConstraintSatisfaction_nested X Req E Args Satisfaction S).1.1.2
     = true ->
   exists A, A ∈ atomicConstraints E /\ dependentAtom X Args A) /\
  ((CheckConstraintSatisfaction_nested X Req E Args Satisfaction S).1.2
     = true ->
   exists A, A ∈ atomicConstraints E /\ packAtom X Args A).
Proof.
  unfold CheckConstraintSatisfaction_nested.
  split; [by intros ->|].
  destruct (InstIsInvalid X NestedRequirementConstraintsCheck Req (Some E));
    [split; discriminate|].
  rewrite CheckConstraintSatisfaction_exprs_single.
  destruct (calculateConstraintSatisfaction_subst_flags
              (fun AtomicExpr =>
                 InstIsInvalid X RequirementInstantiation Req (Some AtomicExpr))
              Args E (mkCtx Satisfaction (Some false) (Some false) S))
    as [Hd Hp].
  destruct (calculateConstraintSatisfaction_subst X _ Args E _) as [F C].
  simpl in *. split; intros Hflag.
  - destruct Hd as [Hd|?]; [|done]. rewrite Hd in Hflag. discriminate.
  - destruct Hp as [Hp|?]; [|done]. rewrite Hp in Hflag. discriminate.
Qed.

(** ** The satisfaction cache *)

(** X6: a call of the cached entry point that reports a hard failure had
    constraints to check and found no record under its key; it hands the
    caller's record back untouched; and either its frame could not be
    acquired, and nothing but the lookup happened, or the conjunction of
    the constraint expressions failed hard, and the engine state returned
    is the one that evaluation left: the call inserts nothing of its
    own. *)
Theorem failed_check_hands_back_the_record
  Owner Template Exprs Args Satisfaction S Satisfaction' S' :
  CheckConstraintSatisfaction X Owner Template Exprs Args Satisfaction S
  = (true, Satisfaction', S') ->
  let ID := Profile X Owner (getInnermost Args) in
  let Creator := fun AtomicExpr =>
    InstIsInvalid X ConstraintSubstitution Template (Some AtomicExpr) in
  Satisfaction' = Satisfaction /\
  SatisfactionCache S !! ID = None /\
  exists E Rest,
    Exprs = E :: Rest /\
    ((InstIsInvalid X ConstraintsCheck Template None = true /\
      S' = emit (EvCacheFind ID) S) \/
     (InstIsInvalid X ConstraintsCheck Template None = false /\
      verdict (atomicVerdict X Creator Args) (conjunctionOf E Rest) = None /\
      S' = SemaSt
             (CheckConstraintSatisfaction_exprs X Exprs Args Creator
                (mkCtx (newSatisfaction Owner (getInnermost Args)) None None
                   (emit (EvCacheFind ID) S))).2)).
Proof.
  unfold CheckConstraintSatisfaction.
  destruct Exprs as [|E Rest]; [discriminate|].
  cbv beta iota zeta.
  change (SatisfactionCache (emit (EvCacheFind
            (Profile X Owner (getInnermost Args))) S))
    with (SatisfactionCache S).
  destruct (SatisfactionCache S !! Profile X Owner (getInnermost Args));
    [discriminate|].
  destruct (InstIsInvalid X ConstraintsCheck Template None).
  { intros [= <- <-]. repeat split. exists E, Rest. auto. }
  set (Creator := fun AtomicExpr =>
         InstIsInvalid X ConstraintSubstitution Template (Some AtomicExpr)).
  set (C0 := mkCtx (newSatisfaction Owner (getInnermost Args)) None None
               (emit (EvCacheFind (Profile X Owner (getInnermost Args))) S)).
  pose proof (calculateConstraintSatisfaction_verdict
                (substitutingEvaluator X Creator Args)
                (atomicVerdict X Creator Args)
                (substitutingEvaluator_verdict Creator Args)
                (conjunctionOf E Rest) C0) as HV.
  fold (calculateConstraintSatisfaction_subst X Creator Args
          (conjunctionOf E Rest) C0) in HV.
  rewrite <- CheckConstraintSatisfaction_exprs_conjunction in HV.
  destruct (CheckConstraintSatisfaction_exprs X (E :: Rest) Args Creator C0)
    as [Failed C].
  destruct Failed; [|discriminate].
  intros [= <- <-]. repeat split. exists E, Rest. split; [reflexivity|].
  right. repeat split.
  destruct (verdict (atomicVerdict X Creator Args) (conjunctionOf E Rest));
    [|reflexivity].
  simpl in HV. by destruct HV.
Qed.

(** X7: checking the list [E; E1; ...; En] is checking the one expression
    [(E && E1) && ... && En]: same failure flag, same record, same flags
    and same log. *)
Theorem constraint_list_is_conjunction Creator Args E Rest C :
  CheckConstraintSatisfaction_exprs X (E :: Rest) Args Creator C
  = calculateConstraintSatisfaction_subst X Creator Args
      (conjunctionOf E Rest) C.
Proof. apply CheckConstraintSatisfaction_exprs_conjunction. Qed.

(** X9: on a cache miss with the frame acquired, the cached entry point
    fails hard exactly when the conjunction of the constraint expressions
    does; otherwise the record it returns is satisfied exactly when that
    conjunction is, names the owner and the innermost arguments of the
    call, and is the record then found under the key of the call. *)
Theorem fresh_check_follows_verdict
  Owner Template E Rest Args Satisfaction S :
  SatisfactionCache S !! Profile X Owner (getInnermost Args) = None ->
  InstIsInvalid X ConstraintsCheck Template None = false ->
  match
    verdict
      (atomicVerdict X
         (fun AtomicExpr =>
            InstIsInvalid X ConstraintSubstitution Template (Some AtomicExpr))
         Args)
      (conjunctionOf E Rest)
  with
  | None =>
      (CheckConstraintSatisfaction X Owner Template (E :: Rest) Args
         Satisfaction S).1.1 = true
  | Some b =>
      exists Satisfaction' S',
        CheckConstraintSatisfaction X Owner Template (E :: Rest) Args
          Satisfaction S = (false, Satisfaction', S') /\
        IsSatisfied Satisfaction' = b /\
        ConstraintOwner Satisfaction' = Some Owner /\
        SatTemplateArgs Satisfaction' = getInnermost Args /\
        SatisfactionCache S' !! Profile X Owner (getInnermost Args)
        = Some Satisfaction'
  end.
Proof.
  intros Hmiss Hframe. unfold CheckConstraintSatisfaction.
  cbv beta iota zeta.
  change (SatisfactionCache (emit (EvCacheFind
            (Profile X Owner (getInnermost Args))) S))
    with (SatisfactionCache S).
  rewrite Hmiss, Hframe.
  set (Creator := fun AtomicExpr =>
         InstIsInvalid X ConstraintSubstitution Template (Some AtomicExpr)).
  set (C0 := mkCtx (newSatisfaction Owner (getInnermost Args)) None None
               (emit (EvCacheFind (Profile X Owner (getInnermost Args))) S)).
  pose proof (CheckConstraintSatisfaction_exprs_frame Creator Args (E :: Rest) C0)
    as (Ho & Ha & _).
  pose proof (calculateConstraintSatisfaction_verdict
                (substitutingEvaluator X Creator Args)
                (atomicVerdict X Creator Args)
                (substitutingEvaluator_verdict Creator Args)
                (conjunctionOf E Rest) C0) as Hv.
  fold (calculateConstraintSatisfaction_subst X Creator Args
          (conjunctionOf E Rest) C0) in Hv.
  rewrite <- CheckConstraintSatisfaction_exprs_conjunction in Hv.
  destruct (CheckConstraintSatisfaction_exprs X (E :: Rest) Args Creator C0)
    as [Failed C].
  simpl in Ho, Ha, Hv.
  destruct (verdict (atomicVerdict X Creator Args) (conjunctionOf E Rest))
    as [b|].
  - destruct Hv as [-> Hb]. eexists _, _. split; [reflexivity|].
    unfold assignSatisfaction. repeat split; auto.
    simpl. apply lookup_insert_eq.
  - rewrite Hv. reflexivity.
Qed.

End Evaluation.

Section NormalFormsAndSubsumption.

(** ** Normal forms *)

(** X10: the CNF and the DNF the builders return are normal forms of the
    constraint: under every truth assignment to the atomic constraints, the
    conjunction of the disjunctive clauses of [makeCNF N] and the
    disjunction of the conjunctive clauses of [makeDNF N] have the truth
    value of [N]. *)
Theorem normal_forms_are_equivalent v N :
  holdsCNF v (makeCNF N) = holds v N /\
  holdsDNF v (makeDNF N) = holds v N.
Proof. split; [apply makeCNF_holds|apply makeDNF_holds]. Qed.

Lemma moveClauses_drained {A : Type} (L R : list A) :
  moveClauses (length R) L R = L ++ reverse R.
Proof. by apply moveClauses_reverse. Qed.

Lemma makeCNF_clauses N :
  makeCNF N <> [] /\ Forall (fun c => c <> []) (makeCNF N).
Proof.
  induction N as [A|L [HL1 HL2] R [HR1 HR2] [|]]; simpl.
  - split; [done|]. by repeat constructor.
  - rewrite moveClauses_drained. split.
    + destruct (makeCNF L); [done|discriminate].
    + apply Forall_app. split; [done|]. by apply Forall_reverse.
  - split.
    + intros Hnil.
      destruct (makeCNF L) as [|l LNF]; [done|].
      destruct (makeCNF R) as [|r RNF]; [done|].
      discriminate.
    + apply Forall_forall. intros c Hc.
      apply elem_of_distribute in Hc as (l & r & Hl & Hr & ->).
      rewrite Forall_forall in HL2. specialize (HL2 l Hl).
      destruct l; [done|discriminate].
Qed.

Lemma makeDNF_clauses N :
  makeDNF N <> [] /\ Forall (fun c => c <> []) (makeDNF N).
Proof.
  induction N as [A|L [HL1 HL2] R [HR1 HR2] [|]]; simpl.
  - split; [done|]. by repeat constructor.
  - split.
    + intros Hnil.
      destruct (makeDNF L) as [|l LNF]; [done|].
      destruct (makeDNF R) as [|r RNF]; [done|].
      discriminate.
    + apply Forall_forall. intros c Hc.
      apply elem_of_distribute in Hc as (l & r & Hl & Hr & ->).
      rewrite Forall_forall in HL2. specialize (HL2 l Hl).
      destruct l; [done|discriminate].
  - rewrite moveClauses_drained. split.
    + destruct (makeDNF L); [done|discriminate].
    + apply Forall_app. split; [done|]. by apply Forall_reverse.
Qed.

(** X11: a normal form always has a clause and never has an empty clause,
    so the loops of [subsumes] never pass or fail for want of atoms. *)
Theorem normal_forms_have_no_empty_clause N :
  (makeCNF N <> [] /\ Forall (fun c => c <> []) (makeCNF N)) /\
  (makeDNF N <> [] /\ Forall (fun c => c <> []) (makeDNF N)).
Proof. split; [apply makeCNF_clauses|apply makeDNF_clauses]. Qed.

Lemma makeCNF_leaves N a :
  (exists c, c ∈ makeCNF N /\ a ∈ c) <-> a ∈ leaves N.
Proof.
  induction N as [A|L IHL R IHR [|]]; simpl.
  - split.
    + intros (c & Hc & Ha). apply list_elem_of_singleton in Hc as ->. done.
    + intros Ha. exists [A]. split; [by apply list_elem_of_singleton|done].
  - rewrite moveClauses_drained, elem_of_app, <- IHL, <- IHR. split.
    + intros (c & Hc & Ha). apply elem_of_app in Hc as [Hc|Hc].
      * left. exists c. auto.
      * rewrite elem_of_reverse in Hc. right. exists c. auto.
    + intros [(c & Hc & Ha)|(c & Hc & Ha)]; exists c;
        (split; [apply elem_of_app|done]); [auto|].
      right. by rewrite elem_of_reverse.
  - rewrite elem_of_app, <- IHL, <- IHR. split.
    + intros (c & Hc & Ha).
      apply elem_of_distribute in Hc as (l & r & Hl & Hr & ->).
      apply elem_of_app in Ha as [Ha|Ha];
        [left; exists l; auto|right; exists r; auto].
    + destruct (makeCNF_clauses L) as [HLne _].
      destruct (makeCNF_clauses R) as [HRne _].
      intros [(c & Hc & Ha)|(c & Hc & Ha)].
      * destruct (makeCNF R) as [|r RNF] eqn:HR; [done|].
        exists (c ++ r). split; [|apply elem_of_app; auto].
        apply elem_of_distribute. exists c, r. repeat split; auto. left.
      * destruct (makeCNF L) as [|l LNF] eqn:HL; [done|].
        exists (l ++ c). split; [|apply elem_of_app; auto].
        apply elem_of_distribute. exists l, c. repeat split; auto. left.
Qed.

Lemma makeDNF_leaves N a :
  (exists c, c ∈ makeDNF N /\ a ∈ c) <-> a ∈ leaves N.
Proof.
  induction N as [A|L IHL R IHR [|]]; simpl.
  - split.
    + intros (c & Hc & Ha). apply list_elem_of_singleton in Hc as ->. done.
    + intros Ha. exists [A]. split; [by apply list_elem_of_singleton|done].
  - rewrite elem_of_app, <- IHL, <- IHR. split.
    + intros (c & Hc & Ha).
      apply elem_of_distribute in Hc as (l & r & Hl & Hr & ->).
      apply elem_of_app in Ha as [Ha|Ha];
        [left; exists l; auto|right; exists r; auto].
    + destruct (makeDNF_clauses L) as [HLne _].
      destruct (makeDNF_clauses R) as [HRne _].
      intros [(c & Hc & Ha)|(c & Hc & Ha)].
      * destruct (makeDNF R) as [|r RNF] eqn:HR; [done|].
        exists (c ++ r). split; [|apply elem_of_app; auto].
        apply elem_of_distribute. exists c, r. repeat split; auto. left.
      * destruct (makeDNF L) as [|l LNF] eqn:HL; [done|].
        exists (l ++ c). split; [|apply elem_of_app; auto].
        apply elem_of_distribute. exists l, c. repeat split; auto. left.
  - rewrite moveClauses_drained, elem_of_app, <- IHL, <- IHR. split.
    + intros (c & Hc & Ha). apply elem_of_app in Hc as [Hc|Hc].
      * left. exists c. auto.
      * rewrite elem_of_reverse in Hc. right. exists c. auto.
    + intros [(c & Hc & Ha)|(c & Hc & Ha)]; exists c;
        (split; [apply elem_of_app|done]); [auto|].
      right. by rewrite elem_of_reverse.
Qed.

(** X12: the atomic constraints that occur in the clauses of the CNF, and
    of the DNF, are exactly the leaves of the normalized constraint: the
    builders neither drop nor invent an atomic constraint. *)
Theorem normal_forms_keep_the_leaves N a :
  ((exists c, c ∈ makeCNF N /\ a ∈ c) <-> a ∈ leaves N) /\
  ((exists c, c ∈ makeDNF N /\ a ∈ c) <-> a ∈ leaves N).
Proof. split; [apply makeCNF_leaves|apply makeDNF_leaves]. Qed.

(** X31: the two builders are dual: the DNF of a constraint with its
    conjunctions and disjunctions exchanged is, clause for clause and atom
    for atom, the CNF of the constraint, and the other way round. *)
Theorem normal_forms_are_dual N :
  makeDNF (swapKinds N) = makeCNF N /\ makeCNF (swapKinds N) = makeDNF N.
Proof.
  induction N as [A|L [IHL1 IHL2] R [IHR1 IHR2] [|]]; simpl;
    rewrite ?IHL1, ?IHL2, ?IHR1, ?IHR2; auto.
Qed.

(** ** Subsumption *)

Lemma holdsDNF_true v (NF : NormalForm) :
  holdsDNF v NF = true <->
  exists c, c ∈ NF /\ forall a, a ∈ c -> v a = true.
Proof.
  unfold holdsDNF. rewrite existsb_exists. split.
  - intros (c & Hc & Hall). exists c. split; [by apply list_elem_of_In|].
    intros a Ha. rewrite forallb_forall in Hall. apply Hall.
    by apply list_elem_of_In.
  - intros (c & Hc & Hall). exists c. split; [by apply list_elem_of_In|].
    apply forallb_forall. intros a Ha. apply Hall. by apply list_elem_of_In.
Qed.

Lemma holdsCNF_true v (NF : NormalForm) :
  holdsCNF v NF = true <->
  forall c, c ∈ NF -> exists a, a ∈ c /\ v a = true.
Proof.
  unfold holdsCNF. rewrite forallb_forall. split.
  - intros Hall c Hc. apply list_elem_of_In in Hc.
    specialize (Hall c Hc). apply existsb_exists in Hall as (a & Ha & Hv).
    exists a. split; [by apply list_elem_of_In|done].
  - intros Hall c Hc. apply list_elem_of_In in Hc.
    destruct (Hall c Hc) as (a & Ha & Hv). apply existsb_exists.
    exists a. split; [by apply list_elem_of_In|done].
Qed.

Lemma subsumes_pairs P Q (E : AtomicSubsumptionEvaluator) :
  (subsumes P Q E).2 = true <->
  forall Pi Qj, Pi ∈ makeDNF P -> Qj ∈ makeCNF Q ->
    exists a b, a ∈ Pi /\ b ∈ Qj /\ E a b = true.
Proof.
  unfold subsumes. simpl. rewrite everyPi_spec. split.
  - intros Hall Pi Qj HPi HQj. apply findInPi_spec. by apply Hall.
  - intros Hall Pi Qj HPi HQj. apply findInPi_spec. by apply Hall.
Qed.

(** When [P] implies [Q] under every truth assignment, every clause of the
    DNF of [P] shares an atomic constraint with every clause of the CNF of
    [Q]. *)
Lemma implication_gives_common_atom P Q :
  (forall v, holds v P = true -> holds v Q = true) ->
  forall Pi Qj, Pi ∈ makeDNF P -> Qj ∈ makeCNF Q ->
    exists a, a ∈ Pi /\ a ∈ Qj.
Proof.
  intros Himp Pi Qj HPi HQj.
  specialize (Himp (fun a => bool_decide (a ∈ Pi))).
  rewrite <- makeDNF_holds, <- makeCNF_holds in Himp.
  rewrite holdsDNF_true, holdsCNF_true in Himp.
  destruct (Himp (ex_intro _ Pi (conj HPi
              (fun a Ha => bool_decide_eq_true_2 _ Ha))) Qj HQj)
    as (b & Hb & Hv).
  exists b. split; [|done]. by apply bool_decide_eq_true_1 in Hv.
Qed.

Lemma subsumes_self N (E : AtomicSubsumptionEvaluator) :
  (forall a, E a a = true) ->
  subsumes N N E = (false, true).
Proof.
  intros Hrefl.
  assert ((subsumes N N E).2 = true) as H.
  { apply subsumes_pairs. intros Pi Qj HPi HQj.
    destruct (implication_gives_common_atom N N (fun v H => H) Pi Qj HPi HQj)
      as (a & Ha1 & Ha2).
    exists a, a. auto. }
  unfold subsumes in *. simpl in *. by rewrite H.
Qed.

(** X13: every normalized constraint subsumes itself under any evaluator
    that accepts each atomic constraint against itself. *)
Theorem subsumes_reflexive N (E : AtomicSubsumptionEvaluator) :
  (forall a, E a a = true) ->
  subsumes N N E = (false, true).
Proof. apply subsumes_self. Qed.

(** X14: subsumption is sound for implication.  If [P] subsumes [Q] under
    [E], then under every truth assignment that [E] respects (an atomic
    constraint accepted against a true one is true) [Q] holds whenever [P]
    holds. *)
Theorem subsumes_sound P Q (E : AtomicSubsumptionEvaluator) v :
  (subsumes P Q E).2 = true ->
  (forall a b, E a b = true -> v a = true -> v b = true) ->
  holds v P = true -> holds v Q = true.
Proof.
  intros Hsub Hresp HP.
  rewrite subsumes_pairs in Hsub.
  rewrite <- makeDNF_holds in HP. rewrite <- makeCNF_holds.
  apply holdsDNF_true in HP as (Pi & HPi & Hall).
  apply holdsCNF_true. intros Qj HQj.
  destruct (Hsub Pi Qj HPi HQj) as (a & b & Ha & Hb & HE).
  exists b. split; [done|]. eapply Hresp; eauto.
Qed.

Lemma subsumes_identity_implication P Q :
  (subsumes P Q (fun a b => bool_decide (a = b))).2 = true <->
  forall v, holds v P = true -> holds v Q = true.
Proof.
  split.
  - intros Hsub v. rewrite subsumes_pairs in Hsub.
    rewrite <- makeDNF_holds, <- makeCNF_holds.
    rewrite holdsDNF_true, holdsCNF_true.
    intros (Pi & HPi & Hall) Qj HQj.
    destruct (Hsub Pi Qj HPi HQj) as (a & b & Ha & Hb & HE).
    apply bool_decide_eq_true_1 in HE as <-. eauto.
  - intros Himp. apply subsumes_pairs. intros Pi Qj HPi HQj.
    destruct (implication_gives_common_atom P Q Himp Pi Qj HPi HQj)
      as (a & Ha1 & Ha2).
    exists a, a. repeat split; auto. by apply bool_decide_eq_true_2.
Qed.

(** X15: with the evaluator that accepts exactly identical atomic
    constraints, [P] subsumes [Q] if and only if [Q] holds under every
    truth assignment to the atomic constraints under which [P] holds. *)
Theorem subsumes_identity_iff_implication P Q :
  (subsumes P Q (fun a b => bool_decide (a = b))).2 = true <->
  forall v, holds v P = true -> holds v Q = true.
Proof. apply subsumes_identity_implication. Qed.

(** X16: with the evaluator that accepts exactly identical atomic
    constraints, subsumption is transitive. *)
Theorem subsumes_identity_transitive P Q R :
  (subsumes P Q (fun a b => bool_decide (a = b))).2 = true ->
  (subsumes Q R (fun a b => bool_decide (a = b))).2 = true ->
  (subsumes P R (fun a b => bool_decide (a = b))).2 = true.
Proof.
  rewrite !subsumes_identity_implication. intros HPQ HQR v HP.
  apply HQR, HPQ, HP.
Qed.

(** X32: accepting more pairs of atomic constraints can only turn a
    negative answer into a positive one: if [P] subsumes [Q] under [E] and
    [E'] accepts every pair [E] accepts, [P] subsumes [Q] under [E']. *)
Theorem subsumes_monotone P Q (E E' : AtomicSubsumptionEvaluator) :
  (forall a b, E a b = true -> E' a b = true) ->
  (subsumes P Q E).2 = true -> (subsumes P Q E').2 = true.
Proof.
  intros Hle. rewrite !subsumes_pairs. intros Hsub Pi Qj HPi HQj.
  destruct (Hsub Pi Qj HPi HQj) as (a & b & Ha & Hb & HE).
  exists a, b. auto.
Qed.

End NormalFormsAndSubsumption.

Section Normalization.

Variable X : Collaborators.

(** ** Normalization *)

Lemma fromConstraintExpr_without_concepts D M E :
  hasConceptReference E = false ->
  exists N,
    fromConstraintExpr X D E M = Ok (Some N) /\
    leaves N = map (fun A => mkAtomic A (leafMapping M)) (normalizedAtoms E).
Proof.
  induction E as [Opc L IHL R IHR|E IH|E IH| |]; simpl; intros Hfree;
    try discriminate; try (eexists; split; reflexivity); auto.
  destruct (isLogicalOp Opc); simpl in Hfree;
    [|eexists; split; reflexivity].
  apply orb_false_iff in Hfree as [HfL HfR].
  destruct (IHL HfL) as (NL & -> & HL), (IHR HfR) as (NR & -> & HR).
  simpl. eexists. split; [reflexivity|].
  simpl. by rewrite HL, HR, map_app.
Qed.

(** X17: an expression in which the normalizer meets no concept
    specialization always has a normal form, and the leaves of that normal
    form are the atomic expressions of the [&&]/[||]/paren decomposition in
    source order, each with the innermost level of the parameter mapping
    (no arguments when the mapping has no level). *)
Theorem concept_free_expression_normalizes D M E :
  hasConceptReference E = false ->
  exists N,
    fromConstraintExpr X D E M = Ok (Some N) /\
    leaves N = map (fun A => mkAtomic A (leafMapping M)) (normalizedAtoms E).
Proof. apply fromConstraintExpr_without_concepts. Qed.

(** X18: when the template-argument check never reports a failure and
    substitution into a concept specialization yields a concept
    specialization or nothing, normalization of an expression runs into
    neither the assertion nor the cast: it returns a normal form or none. *)
Theorem normalization_is_defined D M E :
  (forall C Args, (CheckTemplateArgumentList X C Args).1.1 = false) ->
  (forall E' M' SE,
     isConceptSpecialization E' = true ->
     SubstitutedExpression (SubstExpr X E' M') = Some SE ->
     isConceptSpecialization SE = true) ->
  exists r, fromConstraintExpr X D E M = Ok r.
Proof.
  intros Hcheck Hsubst. revert D M.
  induction E as [Opc L IHL R IHR|E IH|E IH|C Body IH Args|]; intros D M;
    simpl; unfold atomicLeaf; eauto.
  - destruct (isLogicalOp Opc); [|eauto].
    destruct (IHL D M) as [[NL|] ->]; simpl; [|eauto].
    destruct (IHR D M) as [[NR|] ->]; simpl; eauto.
  - destruct (SubstitutedExpression
                (SubstExpr X (ConceptSpecializationExpr C Body Args) M))
      as [SE|] eqn:HSE; [|eauto].
    pose proof (Hsubst (ConceptSpecializationExpr C Body Args) M SE
                  eq_refl HSE) as HCSE.
    destruct SE; try discriminate.
    specialize (Hcheck C TemplateArgsAsWritten).
    destruct (CheckTemplateArgumentList X C TemplateArgsAsWritten)
      as [[Failure Converted] Dependent].
    simpl in Hcheck. subst Failure.
    destruct Dependent; eauto.
Qed.

(** X19: normalization of a sequence of clauses.  Before anything is
    normalized, an entity that is a function with a trailing
    requires-clause, under a mapping that has a level, has its pattern
    looked up; a described function template that was not instantiated
    from a member template, and a function with neither that nor a member
    function nor a primary template to come from, is a null pointer
    dereferenced there, whatever the clauses are.  When that step passes,
    as it does for every other entity and for a mapping without levels: an
    empty sequence fails the assertion; a single clause normalizes as the
    clause alone; when every clause has a normal form the result is their
    left-associated conjunction; when the first clause has one and a later
    clause has none after clauses that have one, the result is none. *)
Theorem sequence_normalization D M :
  (forall FD,
     asFunctionDecl X D = Some FD ->
     hasTrailingRequiresClause FD = true ->
     getNumLevels M <> 0 ->
     DescribedFunctionTemplate FD = Some None \/
     (DescribedFunctionTemplate FD = None /\
      InstantiatedFromMemberFunction FD = None /\
      PrimaryTemplate FD = None) ->
     forall E, fromConstraintExprs X D E M = Undefined NullPointerDereference) /\
  ((asFunctionDecl X D = None \/ getNumLevels M = 0 \/
    exists FD, asFunctionDecl X D = Some FD /\
      (hasTrailingRequiresClause FD = false \/
       exists Pattern, functionPattern FD = Ok Pattern)) ->
   fromConstraintExprs X D [] M = Undefined FailedAssertion /\
   (forall E, fromConstraintExprs X D [E] M = fromConstraintExpr X D E M) /\
   (forall E0 N0 Rest Ns,
      fromConstraintExpr X D E0 M = Ok (Some N0) ->
      Forall2 (fun E N => fromConstraintExpr X D E M = Ok (Some N)) Rest Ns ->
      fromConstraintExprs X D (E0 :: Rest) M = Ok (Some (conjoinAll N0 Ns))) /\
   (forall E0 N0 Pre Ns Absent Post,
      fromConstraintExpr X D E0 M = Ok (Some N0) ->
      Forall2 (fun E N => fromConstraintExpr X D E M = Ok (Some N)) Pre Ns ->
      fromConstraintExpr X D Absent M = Ok None ->
      fromConstraintExprs X D (E0 :: Pre ++ Absent :: Post) M = Ok None)).
Proof.
  unfold fromConstraintExprs. split.
  - intros FD -> Hreq Hlevels Hnull E.
    unfold fromConstraintExprs_cast, instantiatedLocals, functionPattern.
    rewrite Hreq. rewrite bool_decide_eq_false_2 by exact Hlevels. simpl.
    by destruct Hnull as [->|(-> & -> & ->)].
  - intros Hpass.
    assert (exists Scope,
              instantiatedLocals (asFunctionDecl X D) M = Ok Scope)
      as [Scope HS].
    { unfold instantiatedLocals.
      destruct Hpass as [->|[Hzero|(FD & -> & [->|[Pattern ->]])]].
      - eauto.
      - destruct (asFunctionDecl X D) as [FD|]; [|eauto].
        rewrite bool_decide_eq_true_2 by exact Hzero.
        rewrite andb_false_r. eauto.
      - simpl. eauto.
      - destruct (_ && _); simpl; eauto. }
    split; [|split; [|split]].
    + unfold fromConstraintExprs_cast. by rewrite HS.
    + intros E. unfold fromConstraintExprs_cast. rewrite HS. simpl.
      by destruct (fromConstraintExpr X D E M).
    + intros. by eapply fromConstraintExprs_all_normalized.
    + intros. by eapply fromConstraintExprs_later_absent.
Qed.

Lemma makeCNF_conjoinAll Ns : forall N,
  makeCNF (conjoinAll N Ns) ≡ₚ makeCNF N ++ concat (map makeCNF Ns).
Proof.
  induction Ns as [|N1 Ns IH]; intros N; simpl.
  - by rewrite app_nil_r.
  - unfold conjoinAll in *. simpl. rewrite IH.
    rewrite makeCNF_conjunction, reverse_Permutation, <- app_assoc.
    reflexivity.
Qed.

(** The CNF of the conjunction of a sequence of normalized clauses
    consists of the CNF clauses of the single clauses: it is a permutation
    of their concatenation. *)
Theorem conjunction_CNF_collects_clauses N Ns :
  makeCNF (conjoinAll N Ns) ≡ₚ concat (map makeCNF (N :: Ns)).
Proof. apply makeCNF_conjoinAll. Qed.

(** ** At-least-as-constrained *)

(** X20: a declaration without constraints.  Both overloads answer, for an
    empty [AC1], whether [AC2] is empty too, and for a non-empty [AC1] and
    an empty [AC2], true; [Invalid] is reset to false, nothing is
    normalized, and the cached overload neither reads nor fills the
    subsumption cache. *)
Theorem unconstrained_comparisons D1 AC1 M1 D2 AC2 M2 Invalid S :
  AC1 = [] \/ AC2 = [] ->
  IsAtLeastAsConstrained_MLTAL X D1 AC1 M1 D2 AC2 M2 Invalid
  = Ok (match AC1 with [] => isEmpty AC2 | _ => true end,
        setFlag false Invalid) /\
  IsAtLeastAsConstrained X D1 AC1 D2 AC2 Invalid S
  = Ok (match AC1 with [] => isEmpty AC2 | _ => true end,
        setFlag false Invalid, S).
Proof.
  unfold IsAtLeastAsConstrained_MLTAL, IsAtLeastAsConstrained.
  intros [-> | ->]; [auto|]. destruct AC1; auto.
Qed.

(** X22: a constrained declaration is at least as constrained as itself:
    when its constraints have a normal form and the atomic evaluator
    accepts every atomic constraint against itself, the comparison of the
    declaration with itself answers true without setting [Invalid]. *)
Theorem at_least_as_constrained_reflexive D AC M N Invalid :
  AC <> [] ->
  fromConstraintExprs X D AC M = Ok (Some N) ->
  (forall a, AtomicSubsumes X a a = true) ->
  IsAtLeastAsConstrained_MLTAL X D AC M D AC M (Some Invalid)
  = Ok (true, Some false).
Proof.
  intros HAC HN Hrefl. unfold IsAtLeastAsConstrained_MLTAL.
  rewrite (isEmpty_false _ HAC), HN.
  unfold mbind, Outcome_bind. cbv beta iota.
  by rewrite (subsumes_self N (AtomicSubsumes X) Hrefl).
Qed.

End Normalization.

(** ** Concrete runs of the further properties *)

(** [OtherExpr 3] has type [int]: the check of the substituted expression
    fails hard, and the caller's record comes back as it was. *)
Lemma failed_check_witness :
  exists S',
    CheckConstraintSatisfaction demo 0 0 [OtherExpr 3] [[5]]
      emptySatisfaction emptySema = (true, emptySatisfaction, S') /\
    emptySatisfaction = emptySatisfaction /\
    SatisfactionCache emptySema !! Profile demo 0 (getInnermost [[5]]) = None.
Proof.
  eexists. split; [reflexivity|].
  destruct (failed_check_hands_back_the_record demo 0 0 [OtherExpr 3] [[5]]
              emptySatisfaction emptySema _ _ eq_refl) as (H1 & H2 & _).
  exact (conj H1 H2).
Defined.

(** [OtherExpr 0; OtherExpr 1] is checked as [OtherExpr 0 && OtherExpr 1],
    which is false. *)
Lemma fresh_check_witness :
  exists Satisfaction' S',
    CheckConstraintSatisfaction demo 4 0 [OtherExpr 0; OtherExpr 1] [[5]]
      emptySatisfaction emptySema = (false, Satisfaction', S') /\
    IsSatisfied Satisfaction' = false /\
    ConstraintOwner Satisfaction' = Some 4 /\
    SatTemplateArgs Satisfaction' = [5] /\
    SatisfactionCache S' !! [4; 5] = Some Satisfaction'.
Proof.
  exact (fresh_check_follows_verdict demo 4 0 (OtherExpr 0) [OtherExpr 1]
           [[5]] emptySatisfaction emptySema eq_refl eq_refl).
Defined.

Lemma subsumes_reflexive_witness :
  subsumes
    (Compound (Atomic atomA) (Compound (Atomic atomB) (Atomic atomC)
       CCK_Disjunction) CCK_Conjunction)
    (Compound (Atomic atomA) (Compound (Atomic atomB) (Atomic atomC)
       CCK_Disjunction) CCK_Conjunction)
    (fun a b => bool_decide (a = b)) = (false, true).
Proof.
  exact (subsumes_reflexive _ (fun a b => bool_decide (a = b))
           (fun a => bool_decide_eq_true_2 _ eq_refl)).
Defined.

(** [a && b] subsumes [a || c]; under the assignment that makes [a] and
    [b] true and [c] false, both hold. *)
Lemma subsumes_sound_witness :
  holds (fun a => bool_decide (a <> atomC))
    (Compound (Atomic atomA) (Atomic atomC) CCK_Disjunction) = true.
Proof.
  refine (subsumes_sound
    (Compound (Atomic atomA) (Atomic atomB) CCK_Conjunction)
    (Compound (Atomic atomA) (Atomic atomC) CCK_Disjunction)
    (fun a b => bool_decide (a = b))
    (fun a => bool_decide (a <> atomC)) eq_refl _ eq_refl).
  intros a b Hab Ha. apply bool_decide_eq_true_1 in Hab. by subst b.
Defined.

Lemma subsumes_transitive_witness :
  (subsumes (Compound (Atomic atomA) (Atomic atomB) CCK_Conjunction)
     (Compound (Atomic atomA) (Atomic atomC) CCK_Disjunction)
     (fun a b => bool_decide (a = b))).2 = true.
Proof.
  exact (subsumes_identity_transitive
    (Compound (Atomic atomA) (Atomic atomB) CCK_Conjunction)
    (Atomic atomA)
    (Compound (Atomic atomA) (Atomic atomC) CCK_Disjunction)
    eq_refl eq_refl).
Defined.

(** Accepting every pair instead of the identical ones. *)
Lemma subsumes_monotone_witness :
  (subsumes (Compound (Atomic atomA) (Atomic atomB) CCK_Conjunction)
     (Atomic atomA) (fun _ _ => true)).2 = true.
Proof.
  exact (subsumes_monotone
    (Compound (Atomic atomA) (Atomic atomB) CCK_Conjunction) (Atomic atomA)
    (fun a b => bool_decide (a = b)) (fun _ _ => true)
    (fun _ _ _ => eq_refl) eq_refl).
Defined.

Lemma concept_free_witness :
  exists N,
    fromConstraintExpr demo 0
      (BinaryOperator BO_LOr (ParenExpr (OtherExpr 0))
         (ExprWithCleanups (OtherExpr 1))) [[7]; [8]] = Ok (Some N) /\
    leaves N = [mkAtomic (OtherExpr 0) [7];
                mkAtomic (ExprWithCleanups (OtherExpr 1)) [7]].
Proof.
  exact (concept_free_expression_normalizes demo 0 [[7]; [8]]
    (BinaryOperator BO_LOr (ParenExpr (OtherExpr 0))
       (ExprWithCleanups (OtherExpr 1))) eq_refl).
Defined.

Lemma normalization_is_defined_witness :
  exists r,
    fromConstraintExpr demo 0
      (BinaryOperator BO_LAnd
         (ConceptSpecializationExpr 4 (OtherExpr 1) [1; 2]) illFormedCSE)
      [[7]] = Ok r.
Proof.
  refine (normalization_is_defined demo 0 [[7]]
    (BinaryOperator BO_LAnd
       (ConceptSpecializationExpr 4 (OtherExpr 1) [1; 2]) illFormedCSE)
    (fun _ _ => eq_refl) _).
  intros E' M' SE HE. destruct E' as [| | |C Body Args|]; try discriminate.
  simpl. do 9 (destruct C as [|C]; [by intros [= <-]|]).
  destruct C; [discriminate|by intros [= <-]].
Defined.

Lemma unconstrained_witness :
  IsAtLeastAsConstrained_MLTAL demo 1 [] [] 2 [OtherExpr 0] [] (Some true)
    = Ok (false, Some false) /\
  IsAtLeastAsConstrained demo 1 [] 2 [OtherExpr 0] (Some true) emptySema
    = Ok (false, Some false, emptySema).
Proof.
  exact (unconstrained_comparisons demo 1 [] [] 2 [OtherExpr 0] []
           (Some true) emptySema (or_introl eq_refl)).
Defined.

Lemma at_least_as_constrained_reflexive_witness :
  IsAtLeastAsConstrained_MLTAL demoIdentity 1
    [BinaryOperator BO_LOr (OtherExpr 0) (OtherExpr 1); OtherExpr 2] [] 1
    [BinaryOperator BO_LOr (OtherExpr 0) (OtherExpr 1); OtherExpr 2] []
    (Some true) = Ok (true, Some false).
Proof.
  exact (at_least_as_constrained_reflexive demoIdentity 1
    [BinaryOperator BO_LOr (OtherExpr 0) (OtherExpr 1); OtherExpr 2] [] _ true
    ltac:(discriminate) eq_refl
    (fun a => bool_decide_eq_true_2 _ eq_refl)).
Defined.

Section Ambiguity.

Variable X : Collaborators.
Variable Acc : AmbiguityAccess.

(** ** The stateful evaluator *)

Lemma tracks_const b : tracks Acc (fun s => (b, s)) b b.
Proof. intros s Hs. simpl. auto 10. Qed.

Lemma tracks_find g h gp gn hp hn :
  tracks Acc g gp gn -> tracks Acc h hp hn ->
  tracks Acc
    (fun s => let '(Found, s1) := g s in if Found then (true, s1) else h s1)
    (if gp then true else hp) (if gn then true else hn).
Proof.
  intros Hg Hh s Hs. destruct (Hg s Hs) as (Hs1 & Hr & Hkeep & Hn).
  destruct (g s) as [r s1]. simpl in *. subst r.
  destruct gp; simpl.
  - repeat split; auto. destruct Hn as [[-> <-]|?]; auto.
  - destruct (Hh s1 Hs1) as (Hs2 & Hr2 & Hkeep2 & Hn2).
    repeat split; auto.
    destruct Hn as [[-> <-]|Hne]; [exact Hn2|auto].
Qed.

Lemma tracks_every g h gp gn hp hn :
  tracks Acc g gp gn -> tracks Acc h hp hn ->
  tracks Acc
    (fun s => let '(All, s1) := g s in if All then h s1 else (false, s1))
    (if gp then hp else false) (if gn then hn else false).
Proof.
  intros Hg Hh s Hs. destruct (Hg s Hs) as (Hs1 & Hr & Hkeep & Hn).
  destruct (g s) as [r s1]. simpl in *. subst r.
  destruct gp; simpl.
  - destruct (Hh s1 Hs1) as (Hs2 & Hr2 & Hkeep2 & Hn2).
    repeat split; auto.
    destruct Hn as [[-> <-]|Hne]; [exact Hn2|auto].
  - repeat split; auto. destruct Hn as [[-> <-]|?]; auto.
Qed.

Section Loops.

Hypothesis atomic_subsumes_is_identity : forall A B,
  AtomicSubsumes X A B =
  bool_decide (AtomicExpr A = AtomicExpr B) &&
  hasMatchingParameterMapping Acc A B.

Lemma IdenticalExprEvaluator_tracks A B :
  tracks Acc (IdenticalExprEvaluator Acc A B)
    (identicalExprs Acc A B) (AtomicSubsumes X A B).
Proof using atomic_subsumes_is_identity.
  intros s Hs. rewrite atomic_subsumes_is_identity.
  unfold IdenticalExprEvaluator, identicalExprs.
  destruct (hasMatchingParameterMapping Acc A B); simpl;
    [|rewrite andb_false_r; auto 10].
  rewrite andb_true_r.
  case_bool_decide as Heq; simpl; [auto 10|].
  case_bool_decide as Hprof; simpl; [|auto 10].
  repeat split; auto; discriminate.
Qed.

Lemma findInQjWith_tracks Pia Qj :
  tracks Acc (findInQjWith (IdenticalExprEvaluator Acc) Pia Qj)
    (findInQj (identicalExprs Acc) Pia Qj)
    (findInQj (AtomicSubsumes X) Pia Qj).
Proof using atomic_subsumes_is_identity.
  induction Qj as [|Qjb Qj IH]; simpl; [apply tracks_const|].
  apply (tracks_find _ _ _ _ _ _ (IdenticalExprEvaluator_tracks Pia Qjb) IH).
Qed.

Lemma findInPiWith_tracks Pi Qj :
  tracks Acc (findInPiWith (IdenticalExprEvaluator Acc) Pi Qj)
    (findInPi (identicalExprs Acc) Pi Qj)
    (findInPi (AtomicSubsumes X) Pi Qj).
Proof using atomic_subsumes_is_identity.
  induction Pi as [|Pia Pi IH]; simpl; [apply tracks_const|].
  apply (tracks_find _ _ _ _ _ _ (findInQjWith_tracks Pia Qj) IH).
Qed.

Lemma everyQjWith_tracks Pi QCNF :
  tracks Acc (everyQjWith (IdenticalExprEvaluator Acc) Pi QCNF)
    (everyQj (identicalExprs Acc) Pi QCNF)
    (everyQj (AtomicSubsumes X) Pi QCNF).
Proof using atomic_subsumes_is_identity.
  induction QCNF as [|Qj QCNF IH]; simpl; [apply tracks_const|].
  apply (tracks_every _ _ _ _ _ _ (findInPiWith_tracks Pi Qj) IH).
Qed.

Lemma everyPiWith_tracks PDNF QCNF :
  tracks Acc (everyPiWith (IdenticalExprEvaluator Acc) PDNF QCNF)
    (everyPi (identicalExprs Acc) PDNF QCNF)
    (everyPi (AtomicSubsumes X) PDNF QCNF).
Proof using atomic_subsumes_is_identity.
  induction PDNF as [|Pi PDNF IH]; simpl; [apply tracks_const|].
  apply (tracks_every _ _ _ _ _ _ (everyQjWith_tracks Pi QCNF) IH).
Qed.

Lemma ambiguity_detector_result D1 AC1 M1 D2 AC2 M2 N1 N2 :
  AC1 <> [] -> AC2 <> [] ->
  fromConstraintExprs X D1 AC1 M1 = Ok (Some N1) ->
  fromConstraintExprs X D2 AC2 M2 = Ok (Some N2) ->
  if bool_decide ((subsumes N1 N2 (identicalExprs Acc)).2
                  = (subsumes N1 N2 (AtomicSubsumes X)).2)
     && bool_decide ((subsumes N2 N1 (identicalExprs Acc)).2
                     = (subsumes N2 N1 (AtomicSubsumes X)).2)
  then MaybeEmitAmbiguousAtomicConstraintsDiagnostic_MLTAL X Acc
         D1 AC1 M1 D2 AC2 M2 = Ok (false, [])
  else exists EA EB,
         MaybeEmitAmbiguousAtomicConstraintsDiagnostic_MLTAL X Acc
           D1 AC1 M1 D2 AC2 M2
         = Ok (true, [note_ambiguous_atomic_constraints EA;
                      note_ambiguous_atomic_constraints_second EB]) /\
         ambiguousPair Acc EA EB.
Proof using atomic_subsumes_is_identity.
  intros H1 H2 HN1 HN2.
  unfold MaybeEmitAmbiguousAtomicConstraintsDiagnostic_MLTAL.
  rewrite (isEmpty_false _ H1), (isEmpty_false _ H2), HN1, HN2.
  unfold mbind, Outcome_bind, subsumes, subsumesWith. cbv beta iota zeta.
  simpl orb. cbv beta iota.
  destruct (everyPiWith_tracks (makeDNF N1) (makeCNF N2) None I)
    as (Hs1 & Hr1 & _ & Hn1).
  destruct (everyPiWith (IdenticalExprEvaluator Acc) (makeDNF N1)
              (makeCNF N2) None) as [r1 s1].
  simpl in Hs1, Hr1, Hn1. subst r1.
  destruct (everyPiWith_tracks (makeDNF N2) (makeCNF N1) s1 Hs1)
    as (Hs2 & Hr2 & Hkeep2 & Hn2).
  destruct (everyPiWith (IdenticalExprEvaluator Acc) (makeDNF N2)
              (makeCNF N1) s1) as [r2 s2].
  simpl in Hs2, Hr2, Hkeep2, Hn2. subst r2. simpl.
  destruct (bool_decide _ && bool_decide _) eqn:Hsame; [reflexivity|].
  destruct s2 as [[EA EB]|]; [exists EA, EB; auto|].
  exfalso.
  destruct Hn2 as [[<- Hr2]|?]; [|done].
  destruct Hn1 as [[_ Hr1]|?]; [|done].
  rewrite Hr1, Hr2, !bool_decide_eq_true_2 in Hsame by reflexivity.
  discriminate.
Qed.

End Loops.

(** X23: the ambiguity detector, for an [AtomicConstraint::subsumes] that
    accepts exactly the atomic constraints with the same expression and
    matching parameter mappings.  When both constraint lists are non-empty
    and have normal forms, the detector never fails its assertion: it
    returns false without a note when subsumption in both directions is the
    same whether or not expressions of equal profile count as identical,
    and otherwise returns true with exactly two notes, at two distinct
    expressions that have the same canonical profile. *)
Theorem ambiguity_detector_reports_a_pair D1 AC1 M1 D2 AC2 M2 N1 N2 :
  (forall A B,
     AtomicSubsumes X A B =
     bool_decide (AtomicExpr A = AtomicExpr B) &&
     hasMatchingParameterMapping Acc A B) ->
  AC1 <> [] -> AC2 <> [] ->
  fromConstraintExprs X D1 AC1 M1 = Ok (Some N1) ->
  fromConstraintExprs X D2 AC2 M2 = Ok (Some N2) ->
  if bool_decide ((subsumes N1 N2 (identicalExprs Acc)).2
                  = (subsumes N1 N2 (AtomicSubsumes X)).2)
     && bool_decide ((subsumes N2 N1 (identicalExprs Acc)).2
                     = (subsumes N2 N1 (AtomicSubsumes X)).2)
  then MaybeEmitAmbiguousAtomicConstraintsDiagnostic_MLTAL X Acc
         D1 AC1 M1 D2 AC2 M2 = Ok (false, [])
  else exists EA EB,
         MaybeEmitAmbiguousAtomicConstraintsDiagnostic_MLTAL X Acc
           D1 AC1 M1 D2 AC2 M2
         = Ok (true, [note_ambiguous_atomic_constraints EA;
                      note_ambiguous_atomic_constraints_second EB]) /\
         ambiguousPair Acc EA EB.
Proof. intros. by apply ambiguity_detector_result. Qed.

(** The ambiguity detector stays silent and returns false when either
    constraint list is empty or when either side has no normal form; this
    holds for both overloads. *)
Theorem ambiguity_detector_silent D1 AC1 M1 D2 AC2 M2 :
  (AC1 = [] \/ AC2 = [] ->
   MaybeEmitAmbiguousAtomicConstraintsDiagnostic_MLTAL X Acc
     D1 AC1 M1 D2 AC2 M2 = Ok (false, []) /\
   MaybeEmitAmbiguousAtomicConstraintsDiagnostic X Acc D1 AC1 D2 AC2
   = Ok (false, [])) /\
  (fromConstraintExprs X D1 AC1 M1 = Ok None \/
   (exists N1, fromConstraintExprs X D1 AC1 M1 = Ok (Some N1)) /\
   fromConstraintExprs X D2 AC2 M2 = Ok None ->
   MaybeEmitAmbiguousAtomicConstraintsDiagnostic_MLTAL X Acc
     D1 AC1 M1 D2 AC2 M2 = Ok (false, [])).
Proof.
  unfold MaybeEmitAmbiguousAtomicConstraintsDiagnostic,
    MaybeEmitAmbiguousAtomicConstraintsDiagnostic_MLTAL.
  split.
  - intros [-> | ->]; simpl; [auto|]. by rewrite orb_true_r.
  - destruct (isEmpty AC1 || isEmpty AC2); [auto|].
    intros [-> | [[N1 ->] ->]]; reflexivity.
Qed.

End Ambiguity.

Section AssociatedConstraints.

Variable X : Collaborators.

Lemma leaves_conjoinAll Ns : forall N,
  leaves (conjoinAll N Ns) = leaves N ++ concat (map leaves Ns).
Proof.
  induction Ns as [|N1 Ns IH]; intros N; simpl.
  - by rewrite app_nil_r.
  - unfold conjoinAll in *. simpl. rewrite IH. simpl.
    by rewrite <- app_assoc.
Qed.

Lemma concept_free_clauses_normalize D M Es :
  forallb (fun E => negb (hasConceptReference E)) Es = true ->
  exists Ns,
    Forall2 (fun E N => fromConstraintExpr X D E M = Ok (Some N)) Es Ns /\
    concat (map leaves Ns)
    = map (fun A => mkAtomic A (leafMapping M))
        (concat (map normalizedAtoms Es)).
Proof.
  induction Es as [|E Es IH]; simpl; intros Hfree.
  - exists []. split; [constructor|reflexivity].
  - apply andb_true_iff in Hfree as [HE HEs].
    apply negb_true_iff in HE.
    destruct (fromConstraintExpr_without_concepts X D M E HE) as (N & HN & HL).
    destruct (IH HEs) as (Ns & HNs & HLs).
    exists (N :: Ns). split; [by constructor|].
    simpl. by rewrite HL, HLs, map_app.
Qed.

(** X24: [getNormalizedAssociatedConstraints].  For a declaration that is
    not template-like, and for a template-like declaration without
    associated constraints, it runs into an assertion instead of returning
    a result.  When the associated constraints are non-empty and mention no
    concept, it returns a normal form whose leaves are the atomic
    expressions of all clauses in source order, each with the innermost
    enclosing template arguments. *)
Theorem normalized_associated_constraints
  (getAssociatedConstraints : AssociatedConstraintsOf) TemplateLike :
  (getAssociatedConstraints TemplateLike = None ->
   getNormalizedAssociatedConstraints X getAssociatedConstraints TemplateLike
   = Undefined FailedAssertion) /\
  (getAssociatedConstraints TemplateLike = Some [] ->
   getNormalizedAssociatedConstraints X getAssociatedConstraints TemplateLike
   = Undefined FailedAssertion) /\
  (forall E Rest,
     getAssociatedConstraints TemplateLike = Some (E :: Rest) ->
     forallb (fun E' => negb (hasConceptReference E')) (E :: Rest) = true ->
     exists N,
       getNormalizedAssociatedConstraints X getAssociatedConstraints
         TemplateLike = Ok (Some N) /\
       leaves N
       = map (fun A => mkAtomic A
                (leafMapping (getTemplateInstantiationArgs X TemplateLike)))
           (concat (map normalizedAtoms (E :: Rest)))).
Proof.
  unfold getNormalizedAssociatedConstraints.
  split; [by intros ->|]. split; [by intros ->|].
  intros E Rest -> Hfree.
  destruct (concept_free_clauses_normalize TemplateLike
              (getTemplateInstantiationArgs X TemplateLike) (E :: Rest) Hfree)
    as (Ns & HNs & HL).
  inversion HNs as [|? N0 ? Ns' HE HRest]; subst.
  exists (conjoinAll N0 Ns'). split.
  - by apply (fromConstraintExprs_all_normalized X None []).
  - rewrite leaves_conjoinAll. exact HL.
Qed.

End AssociatedConstraints.

(** The constraints [T::f()] of two concepts, textually the same: neither
    declaration subsumes the other, both would with expressions of equal
    profile identified, and the two expressions are reported. *)
Lemma ambiguity_detector_witness :
  exists EA EB,
    MaybeEmitAmbiguousAtomicConstraintsDiagnostic_MLTAL demoSameExpr
      demoAccess 1 [OtherExpr 10] [] 2 [OtherExpr 11] []
    = Ok (true, [note_ambiguous_atomic_constraints EA;
                 note_ambiguous_atomic_constraints_second EB]) /\
    ambiguousPair demoAccess EA EB.
Proof.
  exact (ambiguity_detector_reports_a_pair demoSameExpr demoAccess
           1 [OtherExpr 10] [] 2 [OtherExpr 11] [] _ _
           (fun _ _ => eq_refl) ltac:(discriminate) ltac:(discriminate)
           eq_refl eq_refl).
Defined.

Example ambiguity_detector_run :
  MaybeEmitAmbiguousAtomicConstraintsDiagnostic_MLTAL demoSameExpr
    demoAccess 1 [OtherExpr 10] [] 2 [OtherExpr 11] []
  = Ok (true, [note_ambiguous_atomic_constraints (OtherExpr 11);
               note_ambiguous_atomic_constraints_second (OtherExpr 10)]) /\
  MaybeEmitAmbiguousAtomicConstraintsDiagnostic_MLTAL demoSameExpr
    demoAccess 1 [OtherExpr 10] [] 2 [OtherExpr 10] []
  = Ok (false, []).
Proof. split; reflexivity. Qed.

(** * Requirements *)

Section RequirementProperties.

Variable X : Collaborators.
Variable RA : RequirementAccess.

(** The statuses [calculateSatisfaction] returns, and what the
    requirement holds with each. *)
Lemma calculateSatisfaction_status Req E Status Req' :
  calculateSatisfaction X RA Req E = Fine (Status, Req') ->
  RTisEmpty Req' = RTisEmpty Req /\
  (RTisEmpty Req = true -> Status = SS_Satisfied) /\
  match Status with
  | SS_TypeRequirementSubstitutionFailure =>
      exists D, RTValue Req' = RT_SubstitutionDiagnostic D
  | SS_ImplicitConversionAmbiguous | SS_NoImplicitConversionExists =>
      exists T, RTValue Req' = RT_ExpectedType T
  | SS_ConstraintsNotSatisfied =>
      exists TPL Concept Body Args,
        RTValue Req'
        = RT_TypeConstraint TPL
            (Some (ConceptSpecializationExpr Concept Body Args)) /\
        CSEisSatisfied RA (ConceptSpecializationExpr Concept Body Args)
        = false
  | SS_Satisfied => True
  | _ => False
  end.
Proof.
  unfold calculateSatisfaction, RTisEmpty.
  destruct (RTValue Req) as [|D|T|TPL Sub] eqn:HV.
  - intros [= <- <-]. rewrite HV. auto.
  - intros [= <- <-]. rewrite HV. split; [done|]. split; [done|]. by exists D.
  - destruct (InitializationSequence RA T E); intros [= <- <-]; rewrite HV;
      (split; [done|]); (split; [done|]); try done; by exists T.
  - destruct (TypeConstraintOfFirst TPL) as [[Declared|]|]; try discriminate.
    destruct (SubstitutedExpression _) as [[| | |Concept Body Args|]|];
      try discriminate.
    destruct (CSEisSatisfied RA _) eqn:HS; simpl; intros [= <- <-]; simpl;
      (split; [done|]); (split; [done|]); [done|].
    by exists TPL, Concept, Body, Args.
Qed.

Lemma simpleRequirementAssertion_simple Loc Req :
  simpleRequirementAssertion true Loc Req = true ->
  RTisEmpty Req = true /\ Loc = None.
Proof.
  unfold simpleRequirementAssertion. simpl.
  intros [H1 H2]%andb_prop. split; [exact H1|].
  by destruct Loc.
Qed.

(** What the evaluating constructor builds. *)
Lemma ExprRequirement_evaluate_result E IsSimple Loc Req R :
  ExprRequirement_evaluate X RA E IsSimple Loc Req = Fine R ->
  simpleRequirementAssertion IsSimple Loc Req = true /\
  ERKind R = (if IsSimple then RK_Simple else RK_Compound) /\
  ERValue R = inl E /\ NoexceptLoc R = Loc /\
  ERDependent R = isInstantiationDependent X E || RTDependent Req /\
  RTisEmpty (TypeReq R) = RTisEmpty Req /\
  ((ERDependent R = true /\ ERStatus R = SS_Dependent /\
    ERSatisfied R = false) \/
   (ERDependent R = false /\ ERStatus R = SS_NoexceptNotMet /\
    ERSatisfied R = false /\ isValidLoc Loc = true) \/
   (ERDependent R = false /\
    ERSatisfied R = bool_decide (ERStatus R = SS_Satisfied) /\
    exists Req0,
      calculateSatisfaction X RA Req0 E = Fine (ERStatus R, TypeReq R) /\
      RTisEmpty Req0 = RTisEmpty Req)).
Proof.
  unfold ExprRequirement_evaluate.
  destruct (simpleRequirementAssertion IsSimple Loc Req) eqn:HA;
    [|discriminate]. simpl.
  destruct (isInstantiationDependent X E || RTDependent Req) eqn:HD.
  { intros [= <-]. simpl. repeat split; auto. }
  destruct (isValidLoc Loc && bool_decide (canThrow RA E = CT_Can)) eqn:HN.
  { intros [= <-]. simpl. apply andb_prop in HN as [HL _].
    repeat split; auto 10. }
  destruct (calculateSatisfaction X RA Req E) as [[Status Req']|c] eqn:HC;
    [|discriminate].
  simpl. intros [= <-]. simpl.
  destruct (calculateSatisfaction_status _ _ _ _ HC) as (He & _).
  repeat split; auto.
  right. right. repeat split; auto. by exists Req.
Qed.

(** X25: whatever constructor built an expression requirement, it is
    satisfied exactly when its status is [SS_Satisfied], a status
    [SS_Dependent] means it is dependent, a substitution diagnostic in
    place of the expression means the status
    [SS_ExprSubstitutionFailure], and a simple requirement has neither a
    return-type requirement nor a [noexcept] location. *)
Theorem expr_requirement_invariant R :
  ExprRequirement_constructed X RA R ->
  (ERSatisfied R = true <-> ERStatus R = SS_Satisfied) /\
  (ERStatus R = SS_Dependent -> ERDependent R = true) /\
  (forall D, ERValue R = inr D -> ERStatus R = SS_ExprSubstitutionFailure) /\
  (ERKind R = RK_Simple ->
   RTisEmpty (TypeReq R) = true /\ NoexceptLoc R = None).
Proof.
  intros [(E & IsSimple & Loc & Req & H)|
          [(E & IsSimple & Loc & Req & Status & H)|
           (D & IsSimple & Loc & Req & H)]].
  - apply ExprRequirement_evaluate_result in H
      as (HA & HK & HV & HL & HD & HE & Hcases).
    split; [|split; [|split]].
    + destruct Hcases as [(_ & -> & ->)|[(_ & -> & -> & _)|(_ & -> & _)]];
        try done.
      split; [apply bool_decide_eq_true_1|apply bool_decide_eq_true_2].
    + destruct Hcases as [(-> & _)|[(_ & -> & _)|(_ & _ & Req0 & HC & _)]];
        try done.
      intros Hs. rewrite Hs in HC.
      by destruct (calculateSatisfaction_status _ _ _ _ HC) as (_ & _ & ?).
    + intros D. by rewrite HV.
    + rewrite HK, HL, HE. destruct IsSimple; [|done]. intros _.
      by apply simpleRequirementAssertion_simple.
  - unfold ExprRequirement_withStatus in H.
    destruct (simpleRequirementAssertion IsSimple Loc Req) eqn:HA;
      [|discriminate].
    simpl in H. injection H as <-. simpl.
    split; [|split; [|split]].
    + split; [apply bool_decide_eq_true_1|apply bool_decide_eq_true_2].
    + apply bool_decide_eq_true_2.
    + done.
    + destruct IsSimple; [|done]. intros _.
      by apply simpleRequirementAssertion_simple.
  - unfold ExprRequirement_substitutionFailure in H.
    destruct (simpleRequirementAssertion IsSimple Loc Req) eqn:HA;
      [|discriminate].
    simpl in H. injection H as <-. simpl.
    split; [done|]. split; [done|]. split; [done|].
    destruct IsSimple; [|done]. intros _.
    by apply simpleRequirementAssertion_simple.
Qed.

(** X26: a requirement built by the evaluating constructor is dependent
    exactly when its status is [SS_Dependent]; a simple one that is not
    dependent is satisfied; and one that is neither dependent nor
    satisfied, which is what the renderer selects, is diagnosed without
    reaching an assertion or an unreachable statement: with one note, or,
    for a type constraint that is not satisfied, with one note followed by
    the rendering of the satisfaction stored in the substituted
    constraint. *)
Theorem evaluated_requirement_is_diagnosable
  (DiagnoseStored : ASTConstraintSatisfaction -> bool -> Checked (list Note))
  E IsSimple Loc Req R First :
  ExprRequirement_evaluate X RA E IsSimple Loc Req = Fine R ->
  (ERDependent R = true <-> ERStatus R = SS_Dependent) /\
  (IsSimple = true -> ERDependent R = false -> ERSatisfied R = true) /\
  (ERDependent R = false -> ERSatisfied R = false ->
   (ERStatus R <> SS_ConstraintsNotSatisfied ->
    exists N, ExprRequirement_Diagnose RA DiagnoseStored R First = Fine [N]) /\
   (ERStatus R = SS_ConstraintsNotSatisfied ->
    exists N TPL CSE,
      RTValue (TypeReq R) = RT_TypeConstraint TPL (Some CSE) /\
      CSEisSatisfied RA CSE = false /\
      ExprRequirement_Diagnose RA DiagnoseStored R First
      = (Rest ← DiagnoseStored (getSatisfaction RA CSE) First_default;
         Fine (N :: Rest)))).
Proof.
  intros H.
  apply ExprRequirement_evaluate_result in H
    as (HA & HK & HV & HL & HD & HE & Hcases).
  split; [|split].
  - destruct Hcases as [(-> & -> & _)|[(-> & -> & _)|(-> & _ & Req0 & HC & _)]];
      try done.
    split; [done|]. intros Hs. rewrite Hs in HC.
    by destruct (calculateSatisfaction_status _ _ _ _ HC) as (_ & _ & ?).
  - intros -> Hnd.
    apply simpleRequirementAssertion_simple in HA as [HEmpty ->].
    destruct Hcases as [(Hd & _)|[(_ & _ & _ & Hv)|(_ & -> & Req0 & HC & HE0)]].
    + congruence.
    + discriminate Hv.
    + apply bool_decide_eq_true_2.
      destruct (calculateSatisfaction_status _ _ _ _ HC) as (_ & Hs & _).
      apply Hs. congruence.
  - intros Hnd Hns. unfold ExprRequirement_Diagnose. rewrite Hns, HV.
    destruct Hcases as [(Hd & _)|[(_ & -> & _)|(_ & Hsat & Req0 & HC & _)]].
    + congruence.
    + split; [eauto|done].
    + rewrite Hns in Hsat. symmetry in Hsat.
      apply bool_decide_eq_false_1 in Hsat.
      destruct (calculateSatisfaction_status _ _ _ _ HC) as (_ & _ & Hst).
      destruct (ERStatus R); try done.
      * destruct Hst as (D & ->). split; [eauto|done].
      * destruct Hst as (T & ->). split; [eauto|done].
      * destruct Hst as (T & ->). split; [eauto|done].
      * destruct Hst as (TPL & Concept & Body & Args & -> & Hunsat).
        split; [done|]. intros _.
        destruct (bool_decide (length Args = 1)); simpl; eauto 10.
Qed.

End RequirementProperties.

Section NestedRequirementProperties.

Variable X : Collaborators.

(** The evaluator of the overload without substitution. *)
Lemma constantEvaluator_verdict A C :
  match constantVerdict X A with
  | None =>
      (evaluateAtomicConstraint X
         (fun AtomicExpr C => (ExprUsable AtomicExpr, C)) A C).1 = true
  | Some b =>
      (evaluateAtomicConstraint X
         (fun AtomicExpr C => (ExprUsable AtomicExpr, C)) A C).1 = false /\
      IsSatisfied
        (Sat (evaluateAtomicConstraint X
                (fun AtomicExpr C => (ExprUsable AtomicExpr, C)) A C).2) = b
  end.
Proof.
  unfold constantVerdict, evaluateAtomicConstraint.
  destruct (EvaluateAsRValue X A) as [notes|[|]]; simpl; auto.
Qed.

Lemma constantEvaluator_frame E : forall C,
  let C' :=
    (calculateConstraintSatisfaction X
       (fun AtomicExpr C => (ExprUsable AtomicExpr, C)) E C).2 in
  SatisfactionCache (SemaSt C') = SatisfactionCache (SemaSt C) /\
  PackFlag C' = PackFlag C /\ DepFlag C' = DepFlag C.
Proof.
  assert (Hatomic : forall A C,
    let C' :=
      (evaluateAtomicConstraint X
         (fun AtomicExpr C => (ExprUsable AtomicExpr, C)) A C).2 in
    SatisfactionCache (SemaSt C') = SatisfactionCache (SemaSt C) /\
    PackFlag C' = PackFlag C /\ DepFlag C' = DepFlag C).
  { intros A C. unfold evaluateAtomicConstraint.
    destruct (EvaluateAsRValue X A) as [notes|[|]]; simpl; auto. }
  induction E as [Opc L IHL R IHR|E IH|E IH| |]; intros C; simpl;
    try apply Hatomic; auto.
  destruct (isLogicalOp Opc); [|apply Hatomic].
  specialize (IHL C).
  destruct (calculateConstraintSatisfaction X _ L C) as [F C1]. simpl in IHL.
  destruct F; simpl; [exact IHL|].
  destruct IHL as (H1 & H2 & H3).
  destruct Opc, (IsSatisfied (Sat C1)); simpl; auto;
    destruct (IHR C1) as (H4 & H5 & H6); simpl in *;
    repeat split; congruence.
Qed.

(** A hard failure of an atomic right operand keeps what the left operand
    left in the record. *)
Lemma constantEvaluator_failure A C :
  isAtomicConstraintExpr A = true ->
  constantVerdict X A = None ->
  IsSatisfied
    (Sat (calculateConstraintSatisfaction X
            (fun AtomicExpr C => (ExprUsable AtomicExpr, C)) A C).2)
  = IsSatisfied (Sat C).
Proof.
  unfold constantVerdict. intros Hat Hv.
  assert (Hatomic :
    IsSatisfied
      (Sat (evaluateAtomicConstraint X
              (fun AtomicExpr C => (ExprUsable AtomicExpr, C)) A C).2)
    = IsSatisfied (Sat C)).
  { unfold evaluateAtomicConstraint.
    destruct (EvaluateAsRValue X A) as [notes|b]; [reflexivity|discriminate]. }
  destruct A as [Opc L R| | | |]; simpl in *; try discriminate;
    try exact Hatomic.
  destruct (isLogicalOp Opc); [discriminate|exact Hatomic].
Qed.

(** X27: a nested requirement keeps the expression and is satisfied
    exactly when the satisfaction it stores is.  Without template arguments it is never dependent, it is
    satisfied when the expression evaluates to true, and a right operand
    of [&&] that is not a constant expression leaves it satisfied, the
    hard failure being dropped.  With template arguments, a frame that
    cannot be acquired gives a requirement that is neither dependent nor
    satisfied and stores no record, in the state it started from. *)
Theorem nested_requirement_records_the_check Req E Args S :
  let R := (NestedRequirement_create X Req E Args S).1 in
  let S' := (NestedRequirement_create X Req E Args S).2 in
  NRConstraintExpr R = E /\
  ASTIsSatisfied (NRSatisfaction R) = NRSatisfied R /\
  (getNumLevels Args = 0 ->
   NRDependent R = false /\
   NRContainsUnexpandedParameterPack R = false /\
   (forall b, verdict (constantVerdict X) E = Some b -> NRSatisfied R = b) /\
   (forall LHS RHS,
      E = BinaryOperator BO_LAnd LHS RHS ->
      verdict (constantVerdict X) LHS = Some true ->
      isAtomicConstraintExpr RHS = true ->
      constantVerdict X RHS = None ->
      NRSatisfied R = true)) /\
  (getNumLevels Args <> 0 ->
   (InstIsInvalid X NestedRequirementConstraintsCheck Req (Some E) = true ->
    R = mkNestedRequirement false false false E (mkASTSatisfaction false [])
    /\ S' = S) /\
   (InstIsInvalid X NestedRequirementConstraintsCheck Req (Some E) = false ->
    forall b,
      verdict
        (atomicVerdict X
           (fun AtomicExpr =>
              InstIsInvalid X RequirementInstantiation Req (Some AtomicExpr))
           Args) E = Some b ->
      NRSatisfied R = b)).
Proof.
  unfold NestedRequirement_create.
  case_bool_decide as Hlevels.
  - unfold CheckConstraintSatisfaction_expr.
    pose proof (constantEvaluator_frame E
                  (mkCtx emptySatisfaction None None S)) as HF.
    pose proof (calculateConstraintSatisfaction_verdict X
                  (fun AtomicExpr C => (ExprUsable AtomicExpr, C))
                  (constantVerdict X) constantEvaluator_verdict E
                  (mkCtx emptySatisfaction None None S)) as HV.
    destruct (calculateConstraintSatisfaction X _ E _) as [F C] eqn:HE.
    simpl in *. destruct HF as (HC & _).
    repeat split; auto; try done.
    + intros b Hb. rewrite Hb in HV. by destruct HV.
    + intros LHS RHS -> HL Hat Hnone. simpl in HE.
      pose proof (calculateConstraintSatisfaction_verdict X
                    (fun AtomicExpr C => (ExprUsable AtomicExpr, C))
                    (constantVerdict X) constantEvaluator_verdict LHS
                    (mkCtx emptySatisfaction None None S)) as HVL.
      rewrite HL in HVL.
      destruct (calculateConstraintSatisfaction X _ LHS _) as [FL CL].
      simpl in HVL. destruct HVL as [-> HsL]. rewrite HsL in HE. simpl in HE.
      pose proof (constantEvaluator_failure RHS CL Hat Hnone) as Hkeep.
      rewrite HE in Hkeep. simpl in Hkeep. congruence.
  - unfold CheckConstraintSatisfaction_nested.
    destruct (InstIsInvalid X NestedRequirementConstraintsCheck Req (Some E))
      eqn:Hframe.
    + simpl. repeat split; auto; done.
    + rewrite CheckConstraintSatisfaction_exprs_single.
      set (Creator := fun AtomicExpr =>
             InstIsInvalid X RequirementInstantiation Req (Some AtomicExpr)).
      set (C0 := mkCtx emptySatisfaction (Some false) (Some false) S).
      pose proof (calculateConstraintSatisfaction_subst_frame X Creator Args
                    E C0) as HF.
      pose proof (calculateConstraintSatisfaction_verdict X
                    (substitutingEvaluator X Creator Args)
                    (atomicVerdict X Creator Args)
                    (substitutingEvaluator_verdict X Creator Args) E C0) as HV.
      fold (calculateConstraintSatisfaction_subst X Creator Args E C0) in HV.
      destruct (calculateConstraintSatisfaction_subst X Creator Args E C0)
        as [F C].
      simpl in *. destruct HF as (_ & _ & HC & _).
      repeat split; auto; try done.
      intros _ b Hb. rewrite Hb in HV. by destruct HV.
Qed.

End NestedRequirementProperties.

(** * Diagnostic renderer *)

Section RendererProperties.

Variable RA : RequirementAccess.
Variable DiagnoseStored :
  ASTConstraintSatisfaction -> bool -> Checked (list Note).

Lemma plain_operand_note A First :
  isPlainOperand RA A = true ->
  conjuncts A = [A] /\ conjunctionNodes A = [A] /\
  diagnoseWellFormedUnsatisfiedConstraintExpr RA DiagnoseStored A First
  = Fine [note_atomic_constraint_evaluated_to_false First A].
Proof.
  destruct A as [Opc L R|E|E|C B Args|n]; simpl; try discriminate; auto.
  - destruct Opc; try discriminate; auto;
      intros H; apply negb_true_iff in H; rewrite H; auto.
  - destruct (getRequirements RA (OtherExpr n)); [discriminate|auto].
Qed.

Lemma genericNotes_false Es :
  genericNotes false Es
  = map (note_atomic_constraint_evaluated_to_false false) Es.
Proof. by destruct Es. Qed.

Lemma genericNotes_app First Es1 Es2 :
  Es1 <> [] ->
  genericNotes First (Es1 ++ Es2)
  = genericNotes First Es1 ++ genericNotes false Es2.
Proof.
  destruct Es1 as [|E Es1]; [done|]. intros _. simpl.
  by rewrite map_app, genericNotes_false.
Qed.

Lemma conjuncts_of_true value E :
  (forall A, A ∈ conjuncts E -> isPlainOperand RA A = true) ->
  conjunctionValue value E = true ->
  List.filter (fun A => negb (value A)) (conjuncts E) = [].
Proof.
  induction E as [Opc L IHL R IHR|E IH|E IH|C B Args|n]; simpl;
    try (by intros _ ->); auto.
  destruct Opc; try (by intros _ H; simpl; rewrite H).
  intros Hplain [HL HR]%andb_prop.
  rewrite List.filter_app, IHL, IHR; auto;
    intros A HA; apply Hplain, elem_of_app; auto.
Qed.

Lemma conjuncts_of_false value E :
  (forall A, A ∈ conjuncts E -> isPlainOperand RA A = true) ->
  conjunctionValue value E = false ->
  List.filter (fun A => negb (value A)) (conjuncts E) <> [].
Proof.
  induction E as [Opc L IHL R IHR|E IH|E IH|C B Args|n]; simpl;
    try (by intros _ ->); auto.
  destruct Opc; try (by intros _ H; simpl; rewrite H).
  intros Hplain [HL|HR]%andb_false_iff; rewrite List.filter_app;
    intros [H1 H2]%app_eq_nil.
  - revert H1. apply IHL; [|exact HL].
    intros A HA; apply Hplain, elem_of_app; auto.
  - revert H2. apply IHR; [|exact HR].
    intros A HA; apply Hplain, elem_of_app; auto.
Qed.

(** X28: for a false conjunction of operands that the renderer has no
    special case for, where the constant evaluator gives every node of the
    [&&] tree the conjunction of the values of its operands, the rendering
    is one generic note for each false operand, in source order; the first
    note carries the caller's [First], the later ones are continuations,
    and no stored satisfaction is consulted. *)
Theorem false_conjunction_rendering value E : forall First,
  (forall Node, Node ∈ conjunctionNodes E ->
     EvaluateAsBooleanCondition RA Node
     = Some (conjunctionValue value Node)) ->
  (forall A, A ∈ conjuncts E -> isPlainOperand RA A = true) ->
  conjunctionValue value E = false ->
  diagnoseWellFormedUnsatisfiedConstraintExpr RA DiagnoseStored E First
  = Fine (genericNotes First
            (List.filter (fun A => negb (value A)) (conjuncts E))).
Proof.
  assert (Hleaf : forall A First,
    A ∈ conjuncts A -> 
    (forall A', A' ∈ conjuncts A -> isPlainOperand RA A' = true) ->
    conjuncts A = [A] ->
    value A = false ->
    diagnoseWellFormedUnsatisfiedConstraintExpr RA DiagnoseStored A First
    = Fine (genericNotes First
              (List.filter (fun A => negb (value A)) (conjuncts A)))).
  { intros A First HA Hplain Hc Hv.
    destruct (plain_operand_note A First (Hplain A HA)) as (_ & _ & ->).
    rewrite Hc. simpl. by rewrite Hv. }
  induction E as [Opc L IHL R IHR|E IH|E IH|C B Args|n]; intros First.
  - destruct Opc;
      try (intros _ Hplain Hv; apply Hleaf; simpl in *;
           auto using list_elem_of_here; fail).
    simpl. intros Heval Hplain Hv.
    assert (HevalL : forall Node, Node ∈ conjunctionNodes L ->
              EvaluateAsBooleanCondition RA Node
              = Some (conjunctionValue value Node)).
    { intros Node HN. apply Heval. right. apply elem_of_app. auto. }
    assert (HevalR : forall Node, Node ∈ conjunctionNodes R ->
              EvaluateAsBooleanCondition RA Node
              = Some (conjunctionValue value Node)).
    { intros Node HN. apply Heval. right. apply elem_of_app. auto. }
    assert (HplainL : forall A, A ∈ conjuncts L -> isPlainOperand RA A = true).
    { intros A HA. apply Hplain, elem_of_app. auto. }
    assert (HplainR : forall A, A ∈ conjuncts R -> isPlainOperand RA A = true).
    { intros A HA. apply Hplain, elem_of_app. auto. }
    assert (HL : L ∈ conjunctionNodes L) by (destruct L; left).
    assert (HR : R ∈ conjunctionNodes R) by (destruct R; left).
    rewrite (HevalL L HL), List.filter_app.
    destruct (conjunctionValue value L) eqn:HvL.
    + simpl in Hv.
      rewrite (conjuncts_of_true value L HplainL HvL). simpl.
      by apply IHR.
    + rewrite (IHL First HevalL HplainL eq_refl).
      unfold mbind, Checked_bind. cbv beta iota.
      rewrite (HevalR R HR).
      pose proof (conjuncts_of_false value L HplainL HvL) as Hne.
      destruct (conjunctionValue value R) eqn:HvR.
      * rewrite (conjuncts_of_true value R HplainR HvR).
        by rewrite app_nil_r.
      * rewrite (IHR false HevalR HplainR eq_refl).
        by rewrite genericNotes_app.
  - simpl. intros Heval Hplain Hv. apply IH; auto.
    intros Node HN. apply Heval. by right.
  - intros _ Hplain Hv; apply Hleaf; simpl in *; auto using list_elem_of_here.
  - intros _ Hplain Hv; apply Hleaf; simpl in *; auto using list_elem_of_here.
  - intros _ Hplain Hv; apply Hleaf; simpl in *; auto using list_elem_of_here.
Qed.

End RendererProperties.

Section TemplateArgumentListCheck.

Variable X : Collaborators.
Variable RA : RequirementAccess.

(** X29: the check of a template argument list.  An unconstrained template
    is accepted with nothing done.  A hard failure of the satisfaction
    check rejects the list without a diagnostic of its own.  Otherwise the
    list is rejected exactly when the record is not satisfied, and then the
    error precedes the rendering of the record.  A later check of the same
    template and arguments, in any state whose cache still holds the
    record, gives the same answer and the same diagnostics from the cached
    record, with the cache lookup as its only effect. *)
Theorem template_argument_list_check fuel TD TemplateArgs S :
  let Exprs := getAssociatedConstraintsOf RA TD in
  let Args := getTemplateInstantiationArgsWith RA TD TemplateArgs in
  let ID := Profile X TD (getInnermost Args) in
  (Exprs = [] ->
   EnsureTemplateArgumentListConstraints X RA fuel TD TemplateArgs S
   = (false, S, Fine [])) /\
  (forall Satisfaction1 S1,
     CheckConstraintSatisfaction X TD TD Exprs Args emptySatisfaction S
     = (true, Satisfaction1, S1) ->
     EnsureTemplateArgumentListConstraints X RA fuel TD TemplateArgs S
     = (true, S1, Fine [])) /\
  (forall Satisfaction1 S1,
     CheckConstraintSatisfaction X TD TD Exprs Args emptySatisfaction S
     = (false, Satisfaction1, S1) ->
     EnsureTemplateArgumentListConstraints X RA fuel TD TemplateArgs S
     = (negb (IsSatisfied Satisfaction1), S1,
        renderedFor RA fuel TD TemplateArgs Satisfaction1) /\
     forall S2,
       Exprs <> [] ->
       SatisfactionCache S2 !! ID = SatisfactionCache S1 !! ID ->
       EnsureTemplateArgumentListConstraints X RA fuel TD TemplateArgs S2
       = (negb (IsSatisfied Satisfaction1), emit (EvCacheFind ID) S2,
          renderedFor RA fuel TD TemplateArgs Satisfaction1)).
Proof.
  intros Exprs Args ID.
  assert (Hok : forall S0 Satisfaction1 S1,
    CheckConstraintSatisfaction X TD TD Exprs Args emptySatisfaction S0
    = (false, Satisfaction1, S1) ->
    EnsureTemplateArgumentListConstraints X RA fuel TD TemplateArgs S0
    = (negb (IsSatisfied Satisfaction1), S1,
       renderedFor RA fuel TD TemplateArgs Satisfaction1)).
  { intros S0 Satisfaction1 S1 H.
    unfold EnsureTemplateArgumentListConstraints, renderedFor.
    fold Exprs Args. rewrite H.
    by destruct (IsSatisfied Satisfaction1). }
  split; [|split].
  - intros Hnone. unfold EnsureTemplateArgumentListConstraints.
    fold Exprs. by rewrite Hnone.
  - intros Satisfaction1 S1 H.
    unfold EnsureTemplateArgumentListConstraints. fold Exprs Args.
    by rewrite H.
  - intros Satisfaction1 S1 H. split; [by apply Hok|].
    intros S2 Hsome Hsame. apply Hok.
    destruct Exprs as [|E Rest] eqn:HE; [done|].
    apply CheckConstraintSatisfaction_cached in H.
    apply CheckConstraintSatisfaction_hit.
    fold ID in H |- *. congruence.
Qed.

End TemplateArgumentListCheck.

(** The three shapes a non-dependent compound requirement takes in the
    concrete translation unit, and the note of each. *)
Lemma evaluated_requirement_witness :
  exists R N,
    ExprRequirement_evaluate demo demoRequirements (OtherExpr 0) false None
      (ReturnTypeRequirement_type demoRequirements 5) = Fine R /\
    ERStatus R = SS_ImplicitConversionAmbiguous /\
    ExprRequirement_Diagnose demoRequirements
      (DiagnoseUnsatisfiedConstraint_AST demoRequirements 1) R true
    = Fine [N].
Proof.
  eexists. 
  destruct (evaluated_requirement_is_diagnosable demo demoRequirements
              (DiagnoseUnsatisfiedConstraint_AST demoRequirements 1)
              (OtherExpr 0) false None
              (ReturnTypeRequirement_type demoRequirements 5) _ true eq_refl)
    as (_ & _ & H).
  destruct (H eq_refl eq_refl) as [[N HN] _]; [discriminate|].
  exists N. split; [reflexivity|]. split; [reflexivity|exact HN].
Defined.

Lemma expr_requirement_invariant_witness :
  ERSatisfied
    (mkExprRequirement RK_Compound false false false (inl (OtherExpr 0))
       (Some 3) (mkReturnTypeRequirement false false RT_Empty)
       SS_NoexceptNotMet) = true <->
  SS_NoexceptNotMet = SS_Satisfied.
Proof.
  exact (proj1 (expr_requirement_invariant demo demoRequirements _
    (or_introl
       (ex_intro _ (OtherExpr 0)
          (ex_intro _ false
             (ex_intro _ (Some 3)
                (ex_intro _ (mkReturnTypeRequirement false false RT_Empty)
                   eq_refl))))))).
Defined.

Lemma false_conjunction_witness :
  diagnoseWellFormedUnsatisfiedConstraintExpr demoRequirements
    (DiagnoseUnsatisfiedConstraint_AST demoRequirements 0)
    (BinaryOperator BO_LAnd
       (BinaryOperator BO_LAnd (OtherExpr 1) (OtherExpr 2))
       (ParenExpr (OtherExpr 3))) true
  = Fine [note_atomic_constraint_evaluated_to_false true (OtherExpr 1);
          note_atomic_constraint_evaluated_to_false false (OtherExpr 3)].
Proof.
  apply (false_conjunction_rendering demoRequirements
           (DiagnoseUnsatisfiedConstraint_AST demoRequirements 0) demoValue
           (BinaryOperator BO_LAnd
              (BinaryOperator BO_LAnd (OtherExpr 1) (OtherExpr 2))
              (ParenExpr (OtherExpr 3))) true).
  - intros Node _. reflexivity.
  - intros A HA. simpl in HA.
    repeat (apply elem_of_cons in HA as [->|HA]; [reflexivity|]).
    by apply elem_of_nil in HA.
  - reflexivity.
Defined.

(** Template 7 is constrained by the false expression 1: its argument
    list is rejected with the error and one note, and a second check
    answers from the cache. *)
Example template_argument_list_run :
  (EnsureTemplateArgumentListConstraints demo demoRequirements 1 7 [0]
     emptySema).1.1 = true /\
  (EnsureTemplateArgumentListConstraints demo demoRequirements 1 7 [0]
     emptySema).2
  = Fine [err_template_arg_list_constraints_not_satisfied 7 [0];
          note_atomic_constraint_evaluated_to_false true (OtherExpr 1)] /\
  (EnsureTemplateArgumentListConstraints demo demoRequirements 1 8 [0]
     emptySema) = (false, emptySema, Fine []).
Proof. repeat split; reflexivity. Qed.

Section RequirementListRendering.

Variable X : Collaborators.
Variable RA : RequirementAccess.

Lemma diagnoseFirstFailing_skip DiagnoseStored Skipped Reqs First :
  forallb (fun Req => isDependent Req || isSatisfied Req) Skipped = true ->
  diagnoseFirstFailing RA DiagnoseStored (Skipped ++ Reqs) First
  = diagnoseFirstFailing RA DiagnoseStored Reqs First.
Proof.
  induction Skipped as [|Req Skipped IH]; simpl; [done|].
  intros [HReq HS]%andb_prop.
  destruct (isDependent Req), (isSatisfied Req); try discriminate; simpl;
    auto.
Qed.

(** X30: the rendering of a requires-expression passes over the
    requirements that are dependent or satisfied and diagnoses the first
    one that is neither; the requirements after it play no part.  A type
    requirement built from a type is always passed over.  A nested
    requirement whose frame could not be acquired is selected, and is
    diagnosed with no note at all. *)
Theorem requirement_list_rendering fuel Skipped Req Later First :
  forallb (fun Req => isDependent Req || isSatisfied Req) Skipped = true ->
  let DiagnoseStored := DiagnoseUnsatisfiedConstraint_AST RA (S fuel) in
  (negb (isDependent Req) && negb (isSatisfied Req) = true ->
   diagnoseFirstFailing RA DiagnoseStored (Skipped ++ Req :: Later) First
   = Requirement_Diagnose RA DiagnoseStored Req First) /\
  (forall T,
     diagnoseFirstFailing RA DiagnoseStored
       (Skipped ++ Req_Type (TypeRequirement_type RA T) :: Later) First
     = diagnoseFirstFailing RA DiagnoseStored Later First) /\
  (forall D E Args St,
     getNumLevels Args <> 0 ->
     InstIsInvalid X NestedRequirementConstraintsCheck D (Some E) = true ->
     diagnoseFirstFailing RA DiagnoseStored
       (Skipped ++
        Req_Nested (NestedRequirement_create X D E Args St).1 :: Later) First
     = Fine []).
Proof.
  intros Hskip DiagnoseStored. split; [|split].
  - intros Hsel. rewrite diagnoseFirstFailing_skip by exact Hskip.
    simpl. by rewrite Hsel.
  - intros T. rewrite diagnoseFirstFailing_skip by exact Hskip.
    simpl. by rewrite andb_false_r.
  - intros D E Args St Hlevels Hframe.
    rewrite diagnoseFirstFailing_skip by exact Hskip.
    unfold NestedRequirement_create, CheckConstraintSatisfaction_nested.
    case_bool_decide; [done|]. by rewrite Hframe.
Qed.

End RequirementListRendering.

(** A type requirement followed by a compound requirement whose
    [noexcept] is not met: the second is the one diagnosed. *)
Lemma requirement_list_witness :
  diagnoseFirstFailing demoRequirements
    (DiagnoseUnsatisfiedConstraint_AST demoRequirements 1)
    ([Req_Type (TypeRequirement_type demoRequirements 4)] ++
     Req_Expr
       (mkExprRequirement RK_Compound false false false (inl (OtherExpr 0))
          (Some 3) (mkReturnTypeRequirement false false RT_Empty)
          SS_NoexceptNotMet) :: []) true
  = Fine [note_expr_requirement_noexcept_not_met true (OtherExpr 0)].
Proof.
  exact (proj1 (requirement_list_rendering demo demoRequirements 0
                  [Req_Type (TypeRequirement_type demoRequirements 4)]
                  (Req_Expr
                     (mkExprRequirement RK_Compound false false false
                        (inl (OtherExpr 0)) (Some 3)
                        (mkReturnTypeRequirement false false RT_Empty)
                        SS_NoexceptNotMet)) [] true eq_refl) eq_refl).
Defined.

(** * The details of a record *)

Section DetailsOfEvaluation.

Variable X : Collaborators.

Lemma gainedEntriesFor_nil Before After :
  Details After = Details Before -> gainedEntriesFor [] Before After.
Proof. intros H. exists []. by rewrite app_nil_r. Qed.

Lemma gainedEntriesFor_app Atoms1 Atoms2 Before Middle After :
  gainedEntriesFor Atoms1 Before Middle ->
  gainedEntriesFor Atoms2 Middle After ->
  gainedEntriesFor (Atoms1 ++ Atoms2) Before After.
Proof.
  intros (New1 & H1 & HA1) (New2 & H2 & HA2). exists (New1 ++ New2).
  rewrite H2, H1, <- app_assoc, fmap_app, HA1, HA2. done.
Qed.

(** An evaluator whose atomic step records each unsatisfied atomic
    constraint records, over a whole expression, the atomic constraints
    that the short-circuit evaluation finds unsatisfied. *)
Lemma calculateConstraintSatisfaction_details Evaluator atomic :
  (forall A C,
     match atomic A with
     | None => (evaluateAtomicConstraint X Evaluator A C).1 = true
     | Some b =>
         (evaluateAtomicConstraint X Evaluator A C).1 = false /\
         IsSatisfied (Sat (evaluateAtomicConstraint X Evaluator A C).2) = b
     end) ->
  (forall A C b,
     atomic A = Some b ->
     gainedEntriesFor (if b then [] else [A]) (Sat C)
       (Sat (evaluateAtomicConstraint X Evaluator A C).2)) ->
  forall E C b,
    verdict atomic E = Some b ->
    gainedEntriesFor (unsatisfiedAtoms atomic E) (Sat C)
      (Sat (calculateConstraintSatisfaction X Evaluator E C).2).
Proof.
  intros Hverdict Hdetails.
  assert (Hatom : forall A C b,
    atomic A = Some b ->
    gainedEntriesFor (match atomic A with Some false => [A] | _ => [] end)
      (Sat C) (Sat (evaluateAtomicConstraint X Evaluator A C).2)).
  { intros A C b HA. rewrite HA. specialize (Hdetails A C b HA).
    by destruct b. }
  induction E as [Opc L IHL R IHR|E IH|E IH| |]; intros C b; simpl;
    try (by apply Hatom); try (by apply IH).
  destruct Opc; simpl; try (by apply Hatom).
  - pose proof (calculateConstraintSatisfaction_verdict X Evaluator atomic
                  Hverdict L C) as HL.
    destruct (verdict atomic L) as [[|]|] eqn:HvL; try discriminate.
    + intros HvR. specialize (IHL C true eq_refl).
      destruct (calculateConstraintSatisfaction X Evaluator L C) as [F C1].
      simpl in HL, IHL. destruct HL as [-> Hs]. rewrite Hs. simpl.
      eapply gainedEntriesFor_app; [exact IHL|]. by eapply IHR.
    + intros _. specialize (IHL C false eq_refl).
      destruct (calculateConstraintSatisfaction X Evaluator L C) as [F C1].
      simpl in HL, IHL. destruct HL as [-> Hs]. rewrite Hs. simpl.
      exact IHL.
  - pose proof (calculateConstraintSatisfaction_verdict X Evaluator atomic
                  Hverdict L C) as HL.
    destruct (verdict atomic L) as [[|]|] eqn:HvL; try discriminate.
    + intros _. specialize (IHL C true eq_refl).
      destruct (calculateConstraintSatisfaction X Evaluator L C) as [F C1].
      simpl in HL, IHL. destruct HL as [-> Hs]. rewrite Hs. simpl.
      exact IHL.
    + intros HvR. specialize (IHL C false eq_refl).
      destruct (calculateConstraintSatisfaction X Evaluator L C) as [F C1].
      simpl in HL, IHL. destruct HL as [-> Hs]. rewrite Hs. simpl.
      eapply gainedEntriesFor_app; [exact IHL|]. by eapply IHR.
Qed.

Lemma substitutingEvaluator_details Creator Args A C b :
  atomicVerdict X Creator Args A = Some b ->
  gainedEntriesFor (if b then [] else [A]) (Sat C)
    (Sat (evaluateAtomicConstraint X
            (substitutingEvaluator X Creator Args) A C).2).
Proof.
  unfold atomicVerdict, evaluateAtomicConstraint, substitutingEvaluator.
  destruct (Creator A); [discriminate|].
  destruct (TrapHasErrorOccurred (SubstExpr X A Args)).
  { intros [= <-].
    destruct (SubstitutedExpression (SubstExpr X A Args)); simpl;
      by eexists [_]. }
  destruct (SubstitutedExpression (SubstExpr X A Args)) as [SE|];
    [|discriminate].
  destruct (isInstantiationDependent X SE); simpl.
  { intros [= <-]. by apply gainedEntriesFor_nil. }
  destruct (CheckConstraintExpression_result X SE Culprit_default
              (emit (EvSubstExpr A Args) (SemaSt C))) as [c ->].
  destruct (forallb _ (checkedAtoms SE)); simpl; [|discriminate].
  destruct (EvaluateAsRValue X SE) as [notes|[|]]; simpl; try discriminate;
    intros [= <-].
  - by apply gainedEntriesFor_nil.
  - by eexists [_].
Qed.

Lemma constantEvaluator_details A C b :
  constantVerdict X A = Some b ->
  gainedEntriesFor (if b then [] else [A]) (Sat C)
    (Sat (evaluateAtomicConstraint X
            (fun AtomicExpr C => (ExprUsable AtomicExpr, C)) A C).2).
Proof.
  unfold constantVerdict, evaluateAtomicConstraint.
  destruct (EvaluateAsRValue X A) as [notes|[|]]; simpl; try discriminate;
    intros [= <-].
  - by apply gainedEntriesFor_nil.
  - by eexists [_].
Qed.

Lemma unsatisfiedAtoms_of_false atomic E :
  verdict atomic E = Some false -> unsatisfiedAtoms atomic E <> [].
Proof.
  induction E as [Opc L IHL R IHR|E IH|E IH| |]; simpl; auto;
    try (by intros ->).
  destruct Opc; simpl; try (by intros ->).
  - destruct (verdict atomic L) as [[|]|]; try discriminate.
    + intros HR [_ H]%app_eq_nil. by apply IHR.
    + intros _. by apply IHL.
  - destruct (verdict atomic L) as [[|]|]; try discriminate.
    intros HR [H _]%app_eq_nil. by apply IHL.
Qed.

Lemma unsatisfiedAtoms_orFree atomic E :
  orFree E = true -> verdict atomic E = Some true ->
  unsatisfiedAtoms atomic E = [].
Proof.
  induction E as [Opc L IHL R IHR|E IH|E IH| |]; simpl; auto;
    try (by intros _ ->).
  destruct Opc; simpl; try discriminate; try (by intros _ ->).
  intros [HL HR]%andb_prop.
  destruct (verdict atomic L) as [[|]|]; try discriminate.
  intros HvR. by rewrite IHL, IHR.
Qed.

(** C7 (as amended): an evaluation that does not fail hard, through the
    list of constraint expressions with substitution or through the
    overload without substitution, leaves the verdict in [IsSatisfied] and
    returns the details it started with followed by one entry for each
    atomic constraint that the short-circuit evaluation found unsatisfied,
    in evaluation order.  So a record that comes back unsatisfied has
    gained an entry; a record that comes back satisfied has gained none
    when no [||] occurs in the expression; [A || B] with [A] satisfied has
    gained the entries of [A] alone; and [A || B] with [A] unsatisfied and
    [B] satisfied comes back satisfied with the entries recorded for [A],
    of which there is at least one, followed by those recorded for [B]. *)
Theorem details_hold_the_unsatisfied_atoms :
  (forall Creator Args E Rest C,
     recordsUnsatisfiedAtoms (atomicVerdict X Creator Args)
       (conjunctionOf E Rest) (Sat C)
       (Sat (CheckConstraintSatisfaction_exprs X (E :: Rest) Args Creator C).2))
  /\
  (forall E Satisfaction S,
     recordsUnsatisfiedAtoms (constantVerdict X) E Satisfaction
       (CheckConstraintSatisfaction_expr X E Satisfaction S).1.2) /\
  (forall atomic E Before After,
     recordsUnsatisfiedAtoms atomic E Before After ->
     (verdict atomic E = Some false ->
      IsSatisfied After = false /\ Details After <> Details Before) /\
     (verdict atomic E = Some true -> orFree E = true ->
      IsSatisfied After = true /\ Details After = Details Before)) /\
  (forall atomic A B Before After,
     recordsUnsatisfiedAtoms atomic (BinaryOperator BO_LOr A B) Before After ->
     (verdict atomic A = Some true ->
      IsSatisfied After = true /\
      gainedEntriesFor (unsatisfiedAtoms atomic A) Before After) /\
     (verdict atomic A = Some false -> verdict atomic B = Some true ->
      IsSatisfied After = true /\
      unsatisfiedAtoms atomic A <> [] /\
      gainedEntriesFor
        (unsatisfiedAtoms atomic A ++ unsatisfiedAtoms atomic B)
        Before After)).
Proof.
  split; [|split; [|split]].
  - intros Creator Args E Rest C b Hb.
    rewrite CheckConstraintSatisfaction_exprs_conjunction.
    unfold calculateConstraintSatisfaction_subst.
    pose proof (calculateConstraintSatisfaction_verdict X
                  (substitutingEvaluator X Creator Args)
                  (atomicVerdict X Creator Args)
                  (substitutingEvaluator_verdict X Creator Args)
                  (conjunctionOf E Rest) C) as HV.
    rewrite Hb in HV. destruct HV as [_ HV]. split; [exact HV|].
    eapply calculateConstraintSatisfaction_details; eauto.
    + apply substitutingEvaluator_verdict.
    + intros. by apply substitutingEvaluator_details.
  - intros E Satisfaction S b Hb. unfold CheckConstraintSatisfaction_expr.
    pose proof (calculateConstraintSatisfaction_verdict X
                  (fun AtomicExpr C => (ExprUsable AtomicExpr, C))
                  (constantVerdict X) (constantEvaluator_verdict X) E
                  (mkCtx Satisfaction None None S)) as HV.
    pose proof (calculateConstraintSatisfaction_details
                  (fun AtomicExpr C => (ExprUsable AtomicExpr, C))
                  (constantVerdict X) (constantEvaluator_verdict X)
                  constantEvaluator_details E
                  (mkCtx Satisfaction None None S) b Hb) as HD.
    rewrite Hb in HV. destruct HV as [_ HV].
    destruct (calculateConstraintSatisfaction X _ E _) as [F C].
    simpl in *. by split.
  - intros atomic E Before After Hrec. split.
    + intros Hv. destruct (Hrec false Hv) as (Hs & New & HD & HN).
      split; [exact Hs|]. rewrite HD. intros Heq.
      apply (unsatisfiedAtoms_of_false atomic E Hv).
      rewrite <- HN.
      assert (New = []) as ->; [|done].
      apply (app_inv_head (Details Before)). by rewrite app_nil_r.
    + intros Hv Hfree. destruct (Hrec true Hv) as (Hs & New & HD & HN).
      split; [exact Hs|].
      rewrite (unsatisfiedAtoms_orFree atomic E Hfree Hv) in HN.
      apply fmap_nil_inv in HN. subst New. by rewrite app_nil_r in HD.
  - intros atomic A B Before After Hrec. split.
    + intros HA. specialize (Hrec true). simpl in Hrec. rewrite HA in Hrec.
      by apply Hrec.
    + intros HA HB. specialize (Hrec true). simpl in Hrec.
      rewrite HA in Hrec. destruct (Hrec HB) as [Hs HG].
      split; [exact Hs|]. split; [|exact HG].
      by apply unsatisfiedAtoms_of_false.
Qed.

End DetailsOfEvaluation.

(** [OtherExpr 1 || OtherExpr 0] comes back satisfied with the entry of its
    left operand, and [OtherExpr 0 || OtherExpr 1] with none. *)
Lemma details_witness :
  IsSatisfied
    (CheckConstraintSatisfaction_expr demo
       (BinaryOperator BO_LOr (OtherExpr 1) (OtherExpr 0))
       emptySatisfaction emptySema).1.2 = true /\
  gainedEntriesFor [OtherExpr 1] emptySatisfaction
    (CheckConstraintSatisfaction_expr demo
       (BinaryOperator BO_LOr (OtherExpr 1) (OtherExpr 0))
       emptySatisfaction emptySema).1.2 /\
  gainedEntriesFor [] emptySatisfaction
    (CheckConstraintSatisfaction_expr demo
       (BinaryOperator BO_LOr (OtherExpr 0) (OtherExpr 1))
       emptySatisfaction emptySema).1.2.
Proof.
  split; [|split].
  - exact (proj1 (proj1 (proj2 (details_hold_the_unsatisfied_atoms demo))
             (BinaryOperator BO_LOr (OtherExpr 1) (OtherExpr 0))
             emptySatisfaction emptySema true eq_refl)).
  - exact (proj2 (proj1 (proj2 (details_hold_the_unsatisfied_atoms demo))
             (BinaryOperator BO_LOr (OtherExpr 1) (OtherExpr 0))
             emptySatisfaction emptySema true eq_refl)).
  - exact (proj2 (proj1 (proj2 (details_hold_the_unsatisfied_atoms demo))
             (BinaryOperator BO_LOr (OtherExpr 0) (OtherExpr 1))
             emptySatisfaction emptySema true eq_refl)).
Defined.

(** Function 20 has a trailing requires-clause and no pattern to come
    from: with a level in the mapping its clauses are never reached, and
    without one they are normalized.  Function 21 has a primary
    template. *)
Example function_pattern_run :
  fromConstraintExprs demo 20 [OtherExpr 0] [[1]]
  = Undefined NullPointerDereference /\
  fromConstraintExprs demo 20 [] [[1]] = Undefined NullPointerDereference /\
  fromConstraintExprs demo 20 [OtherExpr 0] []
  = Ok (Some (Atomic (mkAtomic (OtherExpr 0) []))) /\
  fromConstraintExprs demo 21 [OtherExpr 0] [[1]]
  = Ok (Some (Atomic (mkAtomic (OtherExpr 0) [1]))) /\
  instantiatedLocals (asFunctionDecl demo 21) [[1]] = Ok [(22, 0); (22, 1)].
Proof. repeat split; reflexivity. Qed.
